(** * Memory planner of the TorchScript JIT (torch/csrc/jit/passes/memory_planning)

    A shallow embedding of the planner's geometry primitives, the NAIVE
    strategy, the validator, the trace replay and the two planner entry
    points, followed by the properties established about them. *)

From Stdlib Require Import ZArith Lia Bool.
From stdpp Require Import base tactics option list sorting gmap strings.

Local Open Scope Z_scope.

(** ** 64-bit signed integers *)

Module Int64.

Definition max : Z := 2 ^ 63 - 1.
Definition min : Z := - 2 ^ 63.

(** Two's-complement wrap-around of a mathematical integer into int64_t. *)
Definition wrap (z : Z) : Z := (z + 2 ^ 63) mod 2 ^ 64 - 2 ^ 63.

Definition in_range (z : Z) : Prop := min <= z <= max.

Definition add (x y : Z) : Z := wrap (x + y).
Definition sub (x y : Z) : Z := wrap (x - y).

End Int64.

(** ** Data model (memory_planning.h) *)

(** Modelled from the spec: [LiveRange] is declared in the static runtime
    (runtime/static/impl.h).  The spec gives it as a closed interval
    [(begin, end)] of event timestamps with [begin <= end]. *)
Record LiveRange : Type := mkLiveRange { lvr_begin : Z; lvr_end : Z }.

Record MemRegion : Type := mkMemRegion { reg_offset : Z; reg_size : Z }.

Record MemAllocation : Type := mkMemAllocation { lvr : LiveRange; reg : MemRegion }.

(** Modelled from the spec: [operator==] on live ranges, declared with the
    type, compares the two endpoints. *)
Definition LiveRange_eqb (lhs rhs : LiveRange) : bool :=
  (lvr_begin lhs =? lvr_begin rhs) && (lvr_end lhs =? lvr_end rhs).

(** [operator==(const MemRegion&, const MemRegion&)] *)
Definition MemRegion_eqb (lhs rhs : MemRegion) : bool :=
  (reg_offset lhs =? reg_offset rhs) && (reg_size lhs =? reg_size rhs).

(** [operator==(MemAllocation, MemAllocation)] *)
Definition MemAllocation_eqb (lhs rhs : MemAllocation) : bool :=
  LiveRange_eqb (lvr lhs) (lvr rhs) && MemRegion_eqb (reg lhs) (reg rhs).

#[global] Instance LiveRange_eq_dec : EqDecision LiveRange.
Proof. solve_decision. Defined.
#[global] Instance MemRegion_eq_dec : EqDecision MemRegion.
Proof. solve_decision. Defined.
#[global] Instance MemAllocation_eq_dec : EqDecision MemAllocation.
Proof. solve_decision. Defined.

#[global] Instance LiveRange_countable : Countable LiveRange.
Proof.
  refine (inj_countable' (λ r, (lvr_begin r, lvr_end r))
                         (λ p, mkLiveRange p.1 p.2) _).
  by intros [].
Defined.

(** Graph values and nodes are handled through pointers in the source; the
    embedding identifies a pointer with a number. *)
Definition Value : Type := positive.
Definition NodeRef : Type := positive.

(** ** Diagnostics and failures

    [TORCH_WARN] and the validator's write to [std::cerr] are recorded in a
    log; [TORCH_INTERNAL_ASSERT] and [TORCH_CHECK] abort the computation. *)

Inductive Diag : Type :=
| CerrConflict (alloc1 alloc2 : MemAllocation)
| WarnOverlappingLiveRanges (v existing : Value)
| WarnUnsupportedValue (v : Value)
| WarnStorageSize (why : string) (v : Value).

Inductive Failure : Type :=
| InternalAssert (site : string)
| CheckFailed (site : string)
| StdException (what : string).

Inductive M (A : Type) : Type :=
| Done (a : A) (log : list Diag)
| Fatal (f : Failure).
Arguments Done {A} a log.
Arguments Fatal {A} f.

#[global] Instance M_ret : MRet M := λ A a, Done a [].
#[global] Instance M_bind : MBind M := λ A B f m,
  match m with
  | Done a log =>
      match f a with
      | Done b log' => Done b (log ++ log')
      | Fatal e => Fatal e
      end
  | Fatal e => Fatal e
  end.

Definition emit (d : Diag) : M unit := Done () [d].
Definition TORCH_INTERNAL_ASSERT (site : string) (cond : bool) : M unit :=
  if cond then mret () else Fatal (InternalAssert site).
Definition TORCH_CHECK (site : string) (cond : bool) : M unit :=
  if cond then mret () else Fatal (CheckFailed site).
Definition TORCH_WARN (d : Diag) : M unit := emit d.

(** Range-based [for] loops: with a state that the body updates, and for
    their effects only. *)
Fixpoint foldM {A S : Type} (body : S → A → M S) (l : list A) (s : S) : M S :=
  match l with
  | [] => mret s
  | x :: l' => s' ← body s x; foldM body l' s'
  end.

Fixpoint for_each {A : Type} (body : A → M unit) (l : list A) : M unit :=
  match l with
  | [] => mret ()
  | x :: l' => body x;; for_each body l'
  end.

(** [std::unordered_map::insert]: an entry whose key is already there is
    dropped. *)
Definition um_insert `{Countable K} {V : Type} (k : K) (v : V) (m : gmap K V) : gmap K V :=
  match m !! k with
  | Some _ => m
  | None => <[k := v]> m
  end.

(** ** Geometry primitives (memory_planning.cpp, lines 15-65) *)

Definition valid_add (a b : Z) : bool :=
  if ((b >? 0) && (a >? Int64.max - b)) || ((b <? 0) && (a <? Int64.min - b))
  then false else true.

Definition valid_sub (a b : Z) : bool :=
  if ((b <? 0) && (a >? Int64.max + b)) || ((b >? 0) && (a <? Int64.min + b))
  then false else true.

Definition intersectArea (a b c d : Z) : M Z :=
  TORCH_INTERNAL_ASSERT "a <= b" (a <=? b);;
  TORCH_INTERNAL_ASSERT "c <= d" (c <=? d);;
  let outer := Int64.sub (Z.max b d) (Z.min a c) in
  let l1 := Int64.sub b a in
  let l2 := Int64.sub d c in
  if negb (valid_add l1 l2) then
    (* sum areas larger than possible outer area (thus overlap) *)
    mret (-1)
  else if negb (valid_sub outer (Int64.add l1 l2)) then
    (* multipoint overlap (sum areas larger than outer area) *)
    mret (-1)
  else if Int64.sub outer (Int64.add l1 l2) >? 0 then
    (* outer area larger than sum (no overlap) *)
    mret 1
  else
    (* outer area equals sum area (single point overlap) *)
    mret 0.

Definition intersectLiveRange (lvr1 lvr2 : LiveRange) : M bool :=
  r ← intersectArea (lvr_begin lvr1) (lvr_end lvr1) (lvr_begin lvr2) (lvr_end lvr2);
  mret (r <=? 0).

Definition intersectMemRegion (reg1 reg2 : MemRegion) : M bool :=
  (* greater than 1 point overlap *)
  r ← intersectArea (reg_offset reg1) (Int64.add (reg_offset reg1) (reg_size reg1))
                    (reg_offset reg2) (Int64.add (reg_offset reg2) (reg_size reg2));
  mret (r <? 0).

(** ** Validator (memory_planning.cpp, lines 336-362) *)

Definition getTotalAllocationSize (allocations : list MemAllocation) : Z :=
  fold_left
    (λ (total_size : Z) (alloc : MemAllocation),
       Z.max total_size (Int64.add (reg_offset (reg alloc)) (reg_size (reg alloc))))
    allocations 0.

(** [&&] evaluates its right operand only when the left one is true. *)
Definition intersectAllocs (m1 m2 : MemAllocation) : M bool :=
  t ← intersectLiveRange (lvr m1) (lvr m2);
  if (t : bool) then intersectMemRegion (reg m1) (reg m2) else mret false.

(** The inner loop of [validateAllocations] for a fixed [alloc1]; the result
    is [false] when a conflicting [alloc2] was found (and written out). *)
Fixpoint validateAgainst (alloc1 : MemAllocation) (inner : list MemAllocation) : M bool :=
  match inner with
  | [] => mret true
  | alloc2 :: inner' =>
      if MemAllocation_eqb alloc1 alloc2 then validateAgainst alloc1 inner'
      else
        c ← intersectAllocs alloc1 alloc2;
        if (c : bool) then emit (CerrConflict alloc1 alloc2);; mret false
        else validateAgainst alloc1 inner'
  end.

Fixpoint validateFrom (allocations outer : list MemAllocation) : M bool :=
  match outer with
  | [] => mret true
  | alloc1 :: outer' =>
      ok ← validateAgainst alloc1 allocations;
      if (ok : bool) then validateFrom allocations outer' else mret false
  end.

Definition validateAllocations (allocations : list MemAllocation) : M bool :=
  validateFrom allocations allocations.

(** ** Ordered maps keyed by live ranges *)

(** Modelled from the spec: the comparator [live_range_start_cmp] is declared
    with [LiveRange] in the static runtime.  The spec orders ranges by
    [begin] and breaks ties by [end] ("begin asc, end asc"). *)
Definition live_range_start_cmp (range1 range2 : LiveRange) : bool :=
  if lvr_begin range1 =? lvr_begin range2
  then lvr_end range1 <? lvr_end range2
  else lvr_begin range1 <? lvr_begin range2.

(** [std::map<LiveRange, V, live_range_start_cmp>] is kept as the list of its
    entries in iteration order, that is, ascending for the comparator. *)
Module LiveRangeMap.

Definition t (V : Type) : Type := list (LiveRange * V).

(** [std::map::insert]: an entry whose key is already there is dropped. *)
Fixpoint insert {V : Type} (k : LiveRange) (v : V) (m : t V) : t V :=
  match m with
  | [] => [(k, v)]
  | (k', v') :: m' =>
      if live_range_start_cmp k k' then (k, v) :: m
      else if live_range_start_cmp k' k then (k', v') :: insert k v m'
      else m
  end.

Fixpoint find {V : Type} (k : LiveRange) (m : t V) : option V :=
  match m with
  | [] => None
  | (k', v') :: m' =>
      if live_range_start_cmp k k' then None
      else if live_range_start_cmp k' k then find k m'
      else Some v'
  end.

Definition count {V : Type} (k : LiveRange) (m : t V) : Z :=
  match find k m with Some _ => 1 | None => 0 end.

(** [std::map::at] throws when the key is not there. *)
Definition at_ {V : Type} (k : LiveRange) (m : t V) : M V :=
  match find k m with
  | Some v => mret v
  | None => Fatal (StdException "map::at")
  end.

(** The range constructor [std::map(first, last)] inserts in turn. *)
Definition of_list {V : Type} (items : list (LiveRange * V)) : t V :=
  fold_left (λ (m : t V) (item : LiveRange * V), insert item.1 item.2 m) items [].

End LiveRangeMap.

(** ** The NAIVE strategy (memory_planning.cpp, lines 67-81) *)

(** Modelled from the spec: [c10::gAlignment] belongs to the allocator; the
    spec has the platform alignment as "typically 64 bytes". *)
Definition gAlignment : Z := 64.

(** Modelled from the spec: [computeAlignedTensorSize(n)] "rounds n up to a
    platform constant", the alignment above. *)
Definition computeAlignedTensorSize (nbytes : Z) : Z :=
  (nbytes + gAlignment - 1) / gAlignment * gAlignment.

(** The loop of [naive] over the sorted items.  [aligned_size] is a
    [size_t]; it is reduced to [int64_t] where the region stores it and where
    it is added to [offset]. *)
Fixpoint naive_loop (sorted_managed_live_ranges : list (LiveRange * Z)) (offset : Z)
  : list MemAllocation :=
  match sorted_managed_live_ranges with
  | [] => []
  | item :: rest =>
      let aligned_size := computeAlignedTensorSize item.2 in
      mkMemAllocation item.1 (mkMemRegion offset (Int64.wrap aligned_size))
        :: naive_loop rest (Int64.add offset aligned_size)
  end.

Definition naive (managed_live_ranges : gmap LiveRange Z) : list MemAllocation :=
  let sorted_managed_live_ranges :=
    LiveRangeMap.of_list (map_to_list managed_live_ranges) in
  naive_loop sorted_managed_live_ranges 0.

(** ** The graph, as far as the planner looks at it *)

(** Modelled from the spec: the graph IR (ir/ir.h) is an external
    collaborator, "a graph with a deterministic linear schedule".  Nodes are
    objects owned by the graph and reached through pointers, so the graph
    holds a store of nodes next to the schedule that lists them; the kinds,
    attributes, types and operations below cover what the planner calls. *)

Inductive NodeKind : Type :=
| prim_AllocateStorage
| prim_AllocateTensor
| prim_PreAllocateTensor
| prim_Constant
| Operator (name : string).

Inductive Attr : Type :=
| attr_total_size | attr_device | attr_size | attr_offset
| attr_sizes | attr_stride | attr_dtype.

Inductive AttrValue : Type :=
| AttrInt (i : Z)
| AttrInts (ints : list Z).

#[global] Instance Attr_eq_dec : EqDecision Attr.
Proof. solve_decision. Defined.

Record Node : Type := mkNode {
  node_kind : NodeKind;
  node_inputs : list Value;
  node_outputs : list Value;
  node_attrs : list (Attr * AttrValue)
}.

Record TensorType : Type := mkTensorType {
  scalarType : option Z;
  concrete_sizes : option (list Z);
  concrete_strides : option (list Z);
  numel : option Z
}.

Inductive JitType : Type :=
| TensorTypeOf (ttp : TensorType)
| OtherType.

Record ValueInfo : Type := mkValueInfo {
  value_type : JitType;
  value_node : NodeRef
}.

Record Graph : Type := mkGraph {
  store : gmap NodeRef Node;
  schedule : list NodeRef;          (* graph->nodes() *)
  graph_outputs : list Value;       (* graph->outputs() *)
  values : gmap Value ValueInfo;
  next_pointer : positive
}.

Definition outputs_of (graph : Graph) (n : NodeRef) : list Value :=
  match store graph !! n with
  | Some nd => node_outputs nd
  | None => []
  end.

Definition update_node (n : NodeRef) (f : Node → Node) (graph : Graph) : Graph :=
  mkGraph (alter f n (store graph)) (schedule graph) (graph_outputs graph)
          (values graph) (next_pointer graph).

(** [graph->create(kind, 1)]: a new node with one output, not scheduled yet. *)
Definition Graph_create (kind : NodeKind) (graph : Graph) : NodeRef * Graph :=
  let n := next_pointer graph in
  let out := Pos.succ n in
  (n, mkGraph (<[n := mkNode kind [] [out] []]> (store graph))
              (schedule graph) (graph_outputs graph)
              (<[out := mkValueInfo OtherType n]> (values graph))
              (Pos.succ out)).

(** [n->output()] *)
Definition Node_output (graph : Graph) (n : NodeRef) : Value :=
  match outputs_of graph n with
  | out :: _ => out
  | [] => 1%positive
  end.

Definition Node_addInput (n : NodeRef) (v : Value) (graph : Graph) : Graph :=
  update_node n (λ nd, mkNode (node_kind nd) (node_inputs nd ++ [v])
                              (node_outputs nd) (node_attrs nd)) graph.

(** [n->i_(name, v)] and [n->is_(name, v)] *)
Definition Node_set_attr (n : NodeRef) (name : Attr) (v : AttrValue) (graph : Graph) : Graph :=
  update_node n (λ nd, mkNode (node_kind nd) (node_inputs nd) (node_outputs nd)
                              ((name, v) :: filter (λ e, e.1 ≠ name) (node_attrs nd))) graph.

(** [n->i(name)] throws when the attribute is not there or not an integer. *)
Definition Node_i (graph : Graph) (n : NodeRef) (name : Attr) : M Z :=
  match store graph !! n with
  | Some nd =>
      match list_find (λ e, e.1 = name) (node_attrs nd) with
      | Some (_, (_, AttrInt i)) => mret i
      | _ => Fatal (StdException "attribute")
      end
  | None => Fatal (StdException "attribute")
  end.

Fixpoint insert_before (new target : NodeRef) (l : list NodeRef) : list NodeRef :=
  match l with
  | [] => []
  | n :: l' => if decide (n = target) then new :: l else n :: insert_before new target l'
  end.

(** [new->insertBefore(target)] *)
Definition Node_insertBefore (new target : NodeRef) (graph : Graph) : Graph :=
  mkGraph (store graph) (insert_before new target (schedule graph))
          (graph_outputs graph) (values graph) (next_pointer graph).

(** [new->insertBefore(graph->nodes().front())] *)
Definition Node_insertFront (new : NodeRef) (graph : Graph) : Graph :=
  mkGraph (store graph) (new :: schedule graph)
          (graph_outputs graph) (values graph) (next_pointer graph).

(** [new->insertBefore(graph->return_node())] *)
Definition Node_insertBeforeReturn (new : NodeRef) (graph : Graph) : Graph :=
  mkGraph (store graph) (schedule graph ++ [new])
          (graph_outputs graph) (values graph) (next_pointer graph).

(** ** Trace events (memory_planning.h) *)

Inductive EventType : Type := Allocate | Free.

#[global] Instance EventType_eq_dec : EqDecision EventType.
Proof. solve_decision. Defined.

(** Modelled from the spec: [FrameNodeId] is declared by the interpreter;
    the spec gives it as [(pc, node_schema, node_header, node_ref)]. *)
Record FrameNodeId : Type := mkFrameNodeId {
  pc : Z;
  node_schema : string;
  node_header : string;
  node : NodeRef
}.

Record MemEvent : Type := mkMemEvent {
  ev_time : Z;
  ev_allocation_trace : string;
  ev_ptr_addr : string;
  ev_size : Z;
  ev_type : EventType;
  ev_frame_node_id : option FrameNodeId
}.

(** ** Live ranges from a trace (memory_planning.cpp, lines 408-472) *)

(** The three containers the sweep updates: [managed_live_ranges],
    [live_range_node_header] and [allocs]. *)
Definition TraceState : Type :=
  gmap LiveRange Z * list (LiveRange * FrameNodeId) * gmap string MemEvent.

Definition replayMemEvent (st : TraceState) (mem_event : MemEvent) : M TraceState :=
  let '(managed_live_ranges, live_range_node_header, allocs) := st in
  match ev_type mem_event with
  | Allocate =>
      match ev_frame_node_id mem_event with
      | Some _ =>
          mret (managed_live_ranges, live_range_node_header,
                um_insert (ev_ptr_addr mem_event) mem_event allocs)
      | None =>
          (* created before interpreter started e.g. inputs and weights... *)
          TORCH_INTERNAL_ASSERT "mem_event.time == 0" (ev_time mem_event =? 0);;
          mret st
      end
  | Free =>
      TORCH_INTERNAL_ASSERT "allocs.count(mem_event.ptr_addr) > 0"
        (bool_decide (is_Some (allocs !! ev_ptr_addr mem_event)));;
      TORCH_INTERNAL_ASSERT "allocs.find(mem_event.ptr_addr) != allocs.end()"
        (bool_decide (is_Some (allocs !! ev_ptr_addr mem_event)));;
      match allocs !! ev_ptr_addr mem_event with
      | None => Fatal (StdException "unordered_map::at")
      | Some alloc =>
          TORCH_INTERNAL_ASSERT "alloc.type == MemEvent::EventType::Allocate"
            (bool_decide (ev_type alloc = Allocate));;
          TORCH_INTERNAL_ASSERT "alloc.size == mem_event.size"
            (ev_size alloc =? ev_size mem_event);;
          TORCH_INTERNAL_ASSERT "alloc.time < mem_event.time"
            (ev_time alloc <? ev_time mem_event);;
          let lvr := mkLiveRange (ev_time alloc) (ev_time mem_event) in
          match ev_frame_node_id alloc with
          | None => Fatal (StdException "bad_optional_access")
          | Some frame_node_id =>
              mret (um_insert lvr (ev_size alloc) managed_live_ranges,
                    live_range_node_header ++ [(lvr, frame_node_id)],
                    delete (ev_ptr_addr mem_event) allocs)
          end
      end
  end.

(** The body of the loop over what is left in [allocs] after the sweep. *)
Definition checkLeakedAlloc (graph : Graph) (alloc : MemEvent) : M unit :=
  TORCH_INTERNAL_ASSERT "alloc.second.type == Allocate && alloc.second.frame_node_id.has_value()"
    (bool_decide (ev_type alloc = Allocate) && bool_decide (is_Some (ev_frame_node_id alloc)));;
  match ev_frame_node_id alloc with
  | None => Fatal (StdException "bad_optional_access")
  | Some frame_node_id =>
      let outs := outputs_of graph (node frame_node_id) in
      if (0 <? length outs)%nat then
        for_each
          (λ out : Value,
             TORCH_INTERNAL_ASSERT "g_outputs.count(out) > 0"
               (bool_decide (out ∈ graph_outputs graph)))
          outs
      else mret ()
  end.

Definition getManagedLiveRangesFromMemEvents (mem_events : list MemEvent) (graph : Graph)
  : M (gmap LiveRange Z * list (LiveRange * FrameNodeId)) :=
  '(managed_live_ranges, live_range_node_header, allocs) ←
    foldM replayMemEvent mem_events ((∅, [], ∅) : TraceState);
  (if negb (bool_decide (allocs = ∅)) then
     for_each (checkLeakedAlloc graph) (map_to_list allocs).*2
   else mret ());;
  mret (managed_live_ranges, live_range_node_header).

(** ** External collaborators

    Alias analysis, the operator registry, device selection and the packing
    heuristics other than NAIVE live in other files; the planner is
    parameterised by them. *)

Record Collaborators : Type := mkCollaborators {
  pickDeviceType : Graph → option Z;
  defaultStrides : list Z → list Z;
  elementSize : Z → Z;
  (** the argument names of every schema registered for a kind *)
  getAllOperatorsFor : NodeKind → list (list string);
  isOptimizableContainerType : Graph → NodeRef → gmap NodeRef bool → bool;
  GetAlwaysAliveValues : Graph → gset Value;
  GetLiveness : Graph → gset Value → gmap Value LiveRange;
  linearScanHeuristic : gmap LiveRange Z → M (list MemAllocation);
  greedyBySize : gmap LiveRange Z → M (list MemAllocation);
  greedyBySizeWithFirstGap : gmap LiveRange Z → M (list MemAllocation);
  greedyBySizeAndLongestWithFirstGap : gmap LiveRange Z → M (list MemAllocation);
  greedyByOperatorBreadth :
    gmap Value Z → gmap Value LiveRange → list NodeRef → M (list MemAllocation)
}.

(** [enum class Strategy], by its underlying integer. *)
Definition Strategy : Type := Z.
Definition NAIVE : Strategy := 0.
Definition LINEAR_SCAN : Strategy := 1.
Definition GREEDY_BY_SIZE : Strategy := 2.
Definition GREEDY_BY_SIZE_WITH_FIRST_GAP : Strategy := 3.
Definition GREEDY_BY_LONGEST_AND_SIZE : Strategy := 4.
Definition GREEDY_BY_BREADTH : Strategy := 5.

(** [m[k]] on an unordered map: a missing key is first bound to the default. *)
Definition um_index `{Countable K} {V : Type} (k : K) (d : V) (m : gmap K V) : V * gmap K V :=
  match m !! k with
  | Some v => (v, m)
  | None => (d, <[k := d]> m)
  end.

(** [std::sort], as an insertion sort; the order among elements that the
    comparator does not tell apart is left open by the standard. *)
Fixpoint sort_insert {A : Type} (lt : A → A → bool) (x : A) (l : list A) : list A :=
  match l with
  | [] => [x]
  | y :: l' => if lt y x then y :: sort_insert lt x l' else x :: l
  end.

Definition std_sort {A : Type} (lt : A → A → bool) (l : list A) : list A :=
  foldr (sort_insert lt) [] l.

Definition int8 (z : Z) : Z := (z + 2 ^ 7) mod 2 ^ 8 - 2 ^ 7.
Definition kCPU : Z := 0.

(** [operator==(const FrameNodeId&, const FrameNodeId&)] *)
Definition FrameNodeId_eqb (lhs rhs : FrameNodeId) : bool :=
  (pc lhs =? pc rhs) && String.eqb (node_schema lhs) (node_schema rhs)
  && String.eqb (node_header lhs) (node_header rhs).

(** [frame_node_id_cmp] *)
Definition frame_node_id_cmp (f1 f2 : FrameNodeId * list LiveRange) : bool :=
  pc f1.1 <? pc f2.1.

Definition type_of (graph : Graph) (v : Value) : JitType :=
  match values graph !! v with
  | Some info => value_type info
  | None => OtherType
  end.

(** [v->node()] *)
Definition node_of (graph : Graph) (v : Value) : NodeRef :=
  match values graph !! v with
  | Some info => value_node info
  | None => 1%positive
  end.

Definition kind_of (graph : Graph) (n : NodeRef) : NodeKind :=
  match store graph !! n with
  | Some nd => node_kind nd
  | None => Operator ""
  end.

Section Planner.

Variable ext : Collaborators.

(** *** Sizes (lines 83-145) *)

Definition computeStorageSize (graph : Graph) (value : Value) : M (option Z) :=
  match type_of graph value with
  | OtherType =>
      TORCH_WARN (WarnStorageSize "out isn't a tensortype" value);; mret None
  | TensorTypeOf ttp =>
      match scalarType ttp, concrete_sizes ttp with
      | None, _ =>
          TORCH_WARN (WarnStorageSize "didn't have a scalar type" value);; mret None
      | Some _, None =>
          TORCH_WARN (WarnStorageSize "doesn't have sizes" value);; mret None
      | Some scalar_type, Some _ =>
          let element_size := elementSize ext scalar_type in
          match numel ttp with
          | None => TORCH_WARN (WarnStorageSize "doesn't have numel" value);; mret None
          | Some n => mret (Some ((n * element_size) mod 2 ^ 64))
          end
      end
  end.

Definition getSizesStrides (ttp : TensorType) : list Z * list Z :=
  let sizes :=
    match concrete_sizes ttp with
    | Some (s0 :: rest) => if s0 =? 0 then [0] else s0 :: rest
    | _ => [0]
    end in
  let strides :=
    match concrete_strides ttp with
    | Some (s0 :: rest) => if s0 =? 0 then defaultStrides ext sizes else s0 :: rest
    | _ => defaultStrides ext sizes
    end in
  (sizes, strides).

(** *** Rewriting the graph (lines 147-252, 474-482) *)

Definition insertAllocStorageNode (graph : Graph) (total_size : Z) : NodeRef * Graph :=
  let '(storage, graph) := Graph_create prim_AllocateStorage graph in
  let graph := Node_set_attr storage attr_total_size (AttrInt total_size) graph in
  let graph :=
    match pickDeviceType ext graph with
    | Some device_type => Node_set_attr storage attr_device (AttrInt (int8 device_type)) graph
    | None => Node_set_attr storage attr_device (AttrInt (int8 kCPU)) graph
    end in
  (storage, Node_insertFront storage graph).

Definition allocations_map_of (allocations : list MemAllocation) : gmap LiveRange MemRegion :=
  fold_left (λ (m : gmap LiveRange MemRegion) (item : MemAllocation),
               <[lvr item := reg item]> m) allocations ∅.

Definition insertAllocTensorNode (storage : NodeRef) (total_size : Z)
    (st : Graph * gmap LiveRange MemRegion) (item : LiveRange * Value)
  : M (Graph * gmap LiveRange MemRegion) :=
  let '(graph, allocations_map) := st in
  let '(region, allocations_map) := um_index item.1 (mkMemRegion 0 0) allocations_map in
  let allocation := item.2 in
  let nd := node_of graph allocation in
  let '(alloc, graph) := Graph_create prim_AllocateTensor graph in
  let graph := Node_addInput nd (Node_output graph alloc) graph in
  let graph := Node_insertBefore alloc nd graph in
  let graph := Node_addInput alloc (Node_output graph storage) graph in
  match type_of graph allocation with
  | OtherType => Fatal (StdException "expect<TensorType>")
  | TensorTypeOf ttp =>
      let '(sizes, strides) := getSizesStrides ttp in
      TORCH_CHECK "trying to create an allocation that exceeds previously planned memory"
        (Int64.add (reg_offset region) (reg_size region) <=? total_size);;
      let graph := Node_set_attr alloc attr_size (AttrInt (reg_size region)) graph in
      let graph := Node_set_attr alloc attr_offset (AttrInt (reg_offset region)) graph in
      let graph := Node_set_attr alloc attr_sizes (AttrInts sizes) graph in
      let graph := Node_set_attr alloc attr_stride (AttrInts strides) graph in
      device ← Node_i graph storage attr_device;
      let graph := Node_set_attr alloc attr_device (AttrInt (int8 device)) graph in
      match scalarType ttp with
      | None => Fatal (StdException "bad_optional_access")
      | Some dtype =>
          mret (Node_set_attr alloc attr_dtype (AttrInt (int8 dtype)) graph, allocations_map)
      end
  end.

Definition insertAllocTensorNodes (graph : Graph) (storage : NodeRef)
    (allocations : list MemAllocation) (managed_range_values : LiveRangeMap.t Value)
  : M Graph :=
  let allocations_map := allocations_map_of allocations in
  total_size ← Node_i graph storage attr_total_size;
  st ← foldM (insertAllocTensorNode storage total_size) managed_range_values
             (graph, allocations_map);
  mret st.1.

Definition insertPreAllocTensorNode (storage nd : NodeRef)
    (st : Graph * gmap LiveRange MemRegion * list NodeRef) (lvr : LiveRange)
  : M (Graph * gmap LiveRange MemRegion * list NodeRef) :=
  let '(graph, allocations_map, inserted_alloc_nodes) := st in
  let '(region, allocations_map) := um_index lvr (mkMemRegion 0 0) allocations_map in
  let '(alloc, graph) := Graph_create prim_PreAllocateTensor graph in
  let inserted_alloc_nodes := inserted_alloc_nodes ++ [alloc] in
  let graph := Node_insertBefore alloc nd graph in
  let graph := Node_addInput alloc (Node_output graph storage) graph in
  let graph := Node_set_attr alloc attr_size (AttrInt (reg_size region)) graph in
  let graph := Node_set_attr alloc attr_offset (AttrInt (reg_offset region)) graph in
  device ← Node_i graph storage attr_device;
  mret (Node_set_attr alloc attr_device (AttrInt device) graph,
        allocations_map, inserted_alloc_nodes).

Definition insertPreAllocTensorNodes (graph : Graph) (storage : NodeRef)
    (allocations : list MemAllocation)
    (collected_node_live_ranges : list (FrameNodeId * list LiveRange))
  : M (list NodeRef * Graph) :=
  let allocations_map := allocations_map_of allocations in
  let collected_node_live_ranges := std_sort frame_node_id_cmp collected_node_live_ranges in
  st ← foldM
         (λ (st : Graph * gmap LiveRange MemRegion * list NodeRef)
            (item : FrameNodeId * list LiveRange),
            let frame_id := item.1 in
            let lvrs := std_sort live_range_start_cmp item.2 in
            foldM (insertPreAllocTensorNode storage (node frame_id)) lvrs st)
         collected_node_live_ranges (graph, allocations_map, []);
  mret (st.2, st.1.1).

Definition insertCollectAllocatedTensorsNode (graph : Graph) (alloc_nodes : list NodeRef)
  : Graph :=
  let '(collect_node, graph) := Graph_create prim_Constant graph in
  let graph := Node_insertBeforeReturn collect_node graph in
  fold_left (λ (graph : Graph) (n : NodeRef),
               Node_addInput collect_node (Node_output graph n) graph)
            alloc_nodes graph.

(** *** Managed values (lines 254-334) *)

Definition hasOutVariant (graph : Graph) (n : NodeRef) : bool :=
  existsb (λ variant_args : list string, existsb (String.eqb "out") variant_args)
          (getAllOperatorsFor ext (kind_of graph n)).

Definition ManagedState : Type := list NodeRef * gmap Value Z * gset Value.

Definition manageOutput (graph : Graph) (always_alive_values : gset Value)
    (node_has_out_variant : gmap NodeRef bool) (n : NodeRef)
    (st : ManagedState) (out_v : Value) : M ManagedState :=
  let '(out_nodes, managed_tensor_values, leaked_values) := st in
  if bool_decide (out_v ∈ always_alive_values) then mret st
  else
    size ← computeStorageSize graph out_v;
    match size with
    | Some s =>
        if 0 <? s
        then mret (out_nodes, um_insert out_v (Int64.wrap s) managed_tensor_values,
                   leaked_values)
        else if isOptimizableContainerType ext graph n node_has_out_variant
        then mret (out_nodes, managed_tensor_values, {[out_v]} ∪ leaked_values)
        else TORCH_WARN (WarnUnsupportedValue out_v);;
             mret (out_nodes, managed_tensor_values, {[out_v]} ∪ leaked_values)
    | None =>
        if isOptimizableContainerType ext graph n node_has_out_variant
        then mret (out_nodes, managed_tensor_values, {[out_v]} ∪ leaked_values)
        else TORCH_WARN (WarnUnsupportedValue out_v);;
             mret (out_nodes, managed_tensor_values, {[out_v]} ∪ leaked_values)
    end.

Definition getManagedValues (graph : Graph) (always_alive_values : gset Value)
  : M (list NodeRef * gmap Value Z) :=
  let node_has_out_variant :=
    fold_left (λ (m : gmap NodeRef bool) (n : NodeRef), um_insert n (hasOutVariant graph n) m)
              (schedule graph) ∅ in
  st ← foldM
         (λ (st : ManagedState) (n : NodeRef),
            if negb (default false (node_has_out_variant !! n)) then mret st
            else
              let '(out_nodes, managed_tensor_values, leaked_values) := st in
              foldM (manageOutput graph always_alive_values node_has_out_variant n)
                    (outputs_of graph n)
                    (out_nodes ++ [n], managed_tensor_values, leaked_values))
         (schedule graph) (([], ∅, ∅) : ManagedState);
  mret (st.1.1, st.1.2).

Definition getManagedStuff (graph : Graph)
  : M (list NodeRef * gmap Value Z * gmap Value LiveRange) :=
  let always_alive := GetAlwaysAliveValues ext graph in
  let live_ranges := GetLiveness ext graph always_alive in
  '(out_nodes, managed_tensor_values) ← getManagedValues graph always_alive;
  let managed_ranges :=
    fold_left (λ (m : gmap Value LiveRange) (item : Value * LiveRange),
                 if bool_decide (is_Some (managed_tensor_values !! item.1))
                 then um_insert item.1 item.2 m else m)
              (map_to_list live_ranges) ∅ in
  mret (out_nodes, managed_tensor_values, managed_ranges).

(** *** Ranges per node (lines 382-406) *)

Fixpoint node_live_ranges_add (frame_node_id : FrameNodeId) (lvr : LiveRange)
    (m : list (FrameNodeId * list LiveRange)) : list (FrameNodeId * list LiveRange) :=
  match m with
  | [] => [(frame_node_id, [lvr])]
  | (k, lvrs) :: m' =>
      if FrameNodeId_eqb k frame_node_id then (k, lvrs ++ [lvr]) :: m'
      else (k, lvrs) :: node_live_ranges_add frame_node_id lvr m'
  end.

Definition collectLiveRangesPerNode (live_range_node_header : list (LiveRange * FrameNodeId))
  : list (FrameNodeId * list LiveRange) :=
  let node_live_ranges :=
    fold_left (λ m (item : LiveRange * FrameNodeId), node_live_ranges_add item.2 item.1 m)
              live_range_node_header [] in
  let collected_node_live_ranges :=
    (λ item : FrameNodeId * list LiveRange,
       (item.1, std_sort live_range_start_cmp item.2)) <$> node_live_ranges in
  std_sort frame_node_id_cmp collected_node_live_ranges.

(** *** The two entry points (lines 484-602)

    Both return nothing in the source; here they return the graph as they
    leave it, together with the allocations they computed.  [GRAPH_DEBUG]
    output and [printAllocation], which feeds it, are left out. *)

Definition planMemoryWithTracing (graph : Graph) (strat : Strategy)
    (mem_events : list MemEvent) (device_type : option Z)
  : M (Graph * list MemAllocation) :=
  TORCH_INTERNAL_ASSERT "!mem_events.empty()" (negb (bool_decide (mem_events = [])));;
  '(managed_live_ranges, live_range_node_header) ←
    getManagedLiveRangesFromMemEvents mem_events graph;
  let planned : option (M (list MemAllocation)) :=
    if strat =? NAIVE then Some (mret (naive managed_live_ranges))
    else if strat =? LINEAR_SCAN then Some (linearScanHeuristic ext managed_live_ranges)
    else if strat =? GREEDY_BY_SIZE then Some (greedyBySize ext managed_live_ranges)
    else None in
  match planned with
  | None => mret (graph, [])           (* default: return; *)
  | Some plan =>
      allocations ← plan;
      let total_size := getTotalAllocationSize allocations in
      let '(storage_node, graph) := insertAllocStorageNode graph total_size in
      let collected_node_live_ranges := collectLiveRangesPerNode live_range_node_header in
      '(inserted_alloc_nodes, graph) ←
        insertPreAllocTensorNodes graph storage_node allocations collected_node_live_ranges;
      mret (insertCollectAllocatedTensorsNode graph inserted_alloc_nodes, allocations)
  end.

(** The loop that fills [managed_live_ranges] (lines 538-540). *)
Definition rangeSizes (managed_value_sizes : gmap Value Z)
    (managed_value_ranges : gmap Value LiveRange)
  : gmap LiveRange Z * gmap Value LiveRange :=
  fold_left
    (λ (st : gmap LiveRange Z * gmap Value LiveRange) (item : Value * Z),
       let '(r, ranges) := um_index item.1 (mkLiveRange 0 0) st.2 in
       (<[r := item.2]> st.1, ranges))
    (map_to_list managed_value_sizes) (∅, managed_value_ranges).

(** The loop that fills [managed_range_values] (lines 578-588), over the
    entries of [managed_value_ranges] in the order the iteration yields
    them. *)
Definition recordRangeValue (managed_range_values : LiveRangeMap.t Value)
    (item : Value * LiveRange) : M (LiveRangeMap.t Value) :=
  (if negb (LiveRangeMap.count item.2 managed_range_values =? 0) then
     existing ← LiveRangeMap.at_ item.2 managed_range_values;
     TORCH_WARN (WarnOverlappingLiveRanges item.1 existing)
   else mret ());;
  mret (LiveRangeMap.insert item.2 item.1 managed_range_values).

Definition rangeValues (entries : list (Value * LiveRange)) : M (LiveRangeMap.t Value) :=
  foldM recordRangeValue entries [].

Definition planMemory (graph : Graph) (strat : Strategy) : M (Graph * list MemAllocation) :=
  '(out_nodes, managed_value_sizes, managed_value_ranges) ← getManagedStuff graph;
  let '(managed_live_ranges, managed_value_ranges) :=
    rangeSizes managed_value_sizes managed_value_ranges in
  let planned : option (M (list MemAllocation)) :=
    if strat =? NAIVE then Some (mret (naive managed_live_ranges))
    else if strat =? LINEAR_SCAN then Some (linearScanHeuristic ext managed_live_ranges)
    else if strat =? GREEDY_BY_SIZE then Some (greedyBySize ext managed_live_ranges)
    else if strat =? GREEDY_BY_SIZE_WITH_FIRST_GAP
      then Some (greedyBySizeWithFirstGap ext managed_live_ranges)
    else if strat =? GREEDY_BY_LONGEST_AND_SIZE
      then Some (greedyBySizeAndLongestWithFirstGap ext managed_live_ranges)
    else if strat =? GREEDY_BY_BREADTH
      then Some (greedyByOperatorBreadth ext managed_value_sizes managed_value_ranges out_nodes)
    else None in
  match planned with
  | None => mret (graph, [])           (* default: return; *)
  | Some plan =>
      allocations ← plan;
      valid ← validateAllocations allocations;
      TORCH_INTERNAL_ASSERT "invalid allocation" valid;;
      let total_size := getTotalAllocationSize allocations in
      managed_range_values ← rangeValues (map_to_list managed_value_ranges);
      let '(storage_node, graph) := insertAllocStorageNode graph total_size in
      graph ← insertAllocTensorNodes graph storage_node allocations managed_range_values;
      mret (graph, allocations)
  end.

End Planner.

(** ** Vocabulary of the statements *)

(** The three-valued primitive [intersect(a, b, c, d)] in the words of the
    spec, over mathematical integers: "overlap" (-1) when [L] or [outer - L]
    leaves the signed 64-bit range, "disjoint" (+1) when [outer > L], "touch"
    (0) when [outer == L], and "overlap" (-1) otherwise. *)
Definition intersect_spec (a b c d : Z) : Z :=
  let outer := Z.max b d - Z.min a c in
  let L := (b - a) + (d - c) in
  if negb ((Int64.min <=? L) && (L <=? Int64.max)) then -1
  else if negb ((Int64.min <=? outer - L) && (outer - L <=? Int64.max)) then -1
  else if outer >? L then 1
  else if outer =? L then 0
  else -1.

(** Two regions overlap by more than a single point, over mathematical
    integers: some stretch of positive length lies in both. *)
Definition regions_overlap (r1 r2 : MemRegion) : Prop :=
  Z.max (reg_offset r1) (reg_offset r2)
  < Z.min (reg_offset r1 + reg_size r1) (reg_offset r2 + reg_size r2).

(** What [intersectArea] is shown to return on non-negative endpoints. *)
Definition area_result (a b c d : Z) : Z :=
  let outer := Z.max b d - Z.min a c in
  let L := (b - a) + (d - c) in
  if L >? Int64.max then -1 else if outer >? L then 1 else 0.


(** Two distinct allocations that [intersectAllocs] reports as intersecting. *)
Definition conflict (a b : MemAllocation) : Prop :=
  a ≠ b ∧ intersectAllocs a b = Done true [].


(** An allocation on which the assertions of [intersectArea] hold. *)
Definition MemAllocation_wf (a : MemAllocation) : Prop :=
  lvr_begin (lvr a) <= lvr_end (lvr a) ∧
  reg_offset (reg a) <= Int64.add (reg_offset (reg a)) (reg_size (reg a)).


(** Two live ranges intersect in time, over mathematical integers: the
    closed intervals have a point in common. *)
Definition live_ranges_meet (l1 l2 : LiveRange) : Prop :=
  lvr_begin l1 <= lvr_end l2 ∧ lvr_begin l2 <= lvr_end l1.

(** Two distinct allocations that are live at a common time and whose
    regions overlap, in the words of the spec. *)
Definition overlapping_pair (a b : MemAllocation) : Prop :=
  a ≠ b ∧ live_ranges_meet (lvr a) (lvr b) ∧ regions_overlap (reg a) (reg b).

(** An allocation as a planner produces it: a live range and a region of
    positive size, with non-negative endpoints inside the 64-bit range. *)
Definition MemAllocation_ordinary (a : MemAllocation) : Prop :=
  0 <= lvr_begin (lvr a) <= lvr_end (lvr a) ∧ lvr_end (lvr a) <= Int64.max ∧
  0 <= reg_offset (reg a) ∧ 0 < reg_size (reg a) ∧
  reg_offset (reg a) + reg_size (reg a) <= Int64.max.

(** Sum of a list of integers, and of the aligned sizes of managed items. *)
Definition sumZ (l : list Z) : Z := foldr Z.add 0 l.

Definition sum_aligned (items : list (LiveRange * Z)) : Z :=
  sumZ (computeAlignedTensorSize <$> items.*2).

(** The order [std::map] keeps its keys in. *)
Definition key_lt (x y : LiveRange) : Prop := live_range_start_cmp x y = true.
Definition entry_lt {V : Type} (x y : LiveRange * V) : Prop := key_lt x.1 y.1.

(** One event of a trace against the table [open] of pending allocations,
    in the words of the spec: an [Allocate] with a frame node id enters the
    table; one without must carry time 0 and is ignored; a [Free] needs an
    entry under its pointer key with equal size and strictly earlier time,
    which it removes. *)
Inductive replay_step (open : gmap string MemEvent) (e : MemEvent)
  : gmap string MemEvent → Prop :=
| step_allocate (fid : FrameNodeId) :
    ev_type e = Allocate → ev_frame_node_id e = Some fid →
    replay_step open e (um_insert (ev_ptr_addr e) e open)
| step_allocate_before_start :
    ev_type e = Allocate → ev_frame_node_id e = None → ev_time e = 0 →
    replay_step open e open
| step_free (a : MemEvent) :
    ev_type e = Free → open !! ev_ptr_addr e = Some a →
    ev_size a = ev_size e → ev_time a < ev_time e →
    replay_step open e (delete (ev_ptr_addr e) open).

Inductive replay : gmap string MemEvent → list MemEvent → gmap string MemEvent → Prop :=
| replay_nil (open : gmap string MemEvent) : replay open [] open
| replay_cons (open open1 open2 : gmap string MemEvent) (e : MemEvent) (es : list MemEvent) :
    replay_step open e open1 → replay open1 es open2 → replay open (e :: es) open2.

(** An allocation left pending is tolerated when every output of the node
    that made it is an output of the graph. *)
Definition leak_tolerated (graph : Graph) (a : MemEvent) : Prop :=
  ∃ fid, ev_frame_node_id a = Some fid ∧
         Forall (λ out : Value, out ∈ graph_outputs graph) (outputs_of graph (node fid)).

Definition trace_accepted (graph : Graph) (mem_events : list MemEvent) : Prop :=
  ∃ open, replay ∅ mem_events open ∧
          map_Forall (λ (_ : string) (a : MemEvent), leak_tolerated graph a) open.

(** What holds of every entry of [allocs] during the sweep. *)
Definition pending_ok (allocs : gmap string MemEvent) : Prop :=
  map_Forall (λ (_ : string) (a : MemEvent),
                ev_type a = Allocate ∧ is_Some (ev_frame_node_id a)) allocs.

(** The first value of an iteration sequence that carries live range [r]. *)
Fixpoint holder (r : LiveRange) (entries : list (Value * LiveRange)) : option Value :=
  match entries with
  | [] => None
  | (v, r') :: rest => if decide (r' = r) then Some v else holder r rest
  end.

(** The warnings due for [entries] when the ranges of [seen] are on record:
    one for every entry whose range is held already, naming the holder. *)
Fixpoint overlap_warnings (seen entries : list (Value * LiveRange)) : list Diag :=
  match entries with
  | [] => []
  | (v, r) :: rest =>
      match holder r seen with
      | Some existing => [WarnOverlappingLiveRanges v existing]
      | None => []
      end ++ overlap_warnings (seen ++ [(v, r)]) rest
  end.

(** A caller is told of a problem by a failure or by a diagnostic. *)
Definition flagged {A : Type} (outcome : M A) : Prop :=
  match outcome with
  | Done _ log => log ≠ []
  | Fatal _ => True
  end.

(** ** A small graph and trivial collaborators, for examples *)

Definition example_ext : Collaborators :=
  mkCollaborators
    (λ _, None) (λ sizes, sizes) (λ _, 4)
    (λ _, [["self"; "out"]]) (λ _ _ _, false)
    (λ _, ∅) (λ _ _, ∅)
    (λ m, mret (naive m)) (λ m, mret (naive m)) (λ m, mret (naive m))
    (λ m, mret (naive m)) (λ _ _ _, mret []).

(** One operator node, [%3 = aten::relu(%2)], whose output is the graph's. *)
Definition example_graph : Graph :=
  mkGraph {[ 1%positive := mkNode (Operator "aten::relu") [2%positive] [3%positive] [] ]}
          [1%positive] [3%positive]
          {[ 3%positive := mkValueInfo OtherType 1%positive ]}
          4%positive.

Definition example_frame : FrameNodeId := mkFrameNodeId 0 "aten::relu" "%3" 1%positive.

Definition example_trace : list MemEvent :=
  [mkMemEvent 1 "" "a" 32 Allocate (Some example_frame);
   mkMemEvent 2 "" "b" 32 Allocate (Some example_frame);
   mkMemEvent 3 "" "a" 32 Free None;
   mkMemEvent 4 "" "c" 32 Allocate (Some example_frame);
   mkMemEvent 5 "" "b" 32 Free None;
   mkMemEvent 6 "" "c" 32 Free None].

(** Two operator nodes whose outputs, [%3] and [%5], are 4-element float
    tensors with the same live range [[0,5]]. *)
Definition float_tensor : JitType :=
  TensorTypeOf (mkTensorType (Some 6) (Some [4]) (Some [1]) (Some 4)).

Definition shared_range_graph : Graph :=
  mkGraph {[ 1%positive := mkNode (Operator "aten::relu") [2%positive] [3%positive] [];
             4%positive := mkNode (Operator "aten::relu") [2%positive] [5%positive] [] ]}
          [1%positive; 4%positive] []
          {[ 3%positive := mkValueInfo float_tensor 1%positive;
             5%positive := mkValueInfo float_tensor 4%positive ]}
          6%positive.

Definition shared_range_ext : Collaborators :=
  mkCollaborators
    (λ _, None) (λ sizes, sizes) (λ _, 4)
    (λ _, [["self"; "out"]]) (λ _ _ _, false)
    (λ _, ∅)
    (λ _ _, {[ 3%positive := mkLiveRange 0 5; 5%positive := mkLiveRange 0 5 ]})
    (λ m, mret (naive m)) (λ m, mret (naive m)) (λ m, mret (naive m))
    (λ m, mret (naive m)) (λ _ _ _, mret []).

(** ** More of memory_planning.h *)

(** [toString(Strategy)], lines 704-721 *)
Definition toString (s : Strategy) : string :=
  if s =? NAIVE then "NAIVE"
  else if s =? LINEAR_SCAN then "LINEAR_SCAN"
  else if s =? GREEDY_BY_SIZE then "GREEDY_BY_SIZE"
  else if s =? GREEDY_BY_SIZE_WITH_FIRST_GAP then "GREEDY_BY_SIZE_WITH_FIRST_GAP"
  else if s =? GREEDY_BY_LONGEST_AND_SIZE then "GREEDY_BY_LONGEST_AND_SIZE"
  else if s =? GREEDY_BY_BREADTH then "GREEDY_BY_BREADTH"
  else "UNKNOWN STRATEGY".

(** [region_size_cmp], lines 740-745 *)
Definition region_size_cmp (reg1 reg2 : MemRegion) : bool :=
  if reg_size reg1 =? reg_size reg2
  then reg_offset reg1 <? reg_offset reg2
  else reg_size reg1 <? reg_size reg2.

(** [region_offset_cmp], lines 747-752 *)
Definition region_offset_cmp (reg1 reg2 : MemRegion) : bool :=
  if reg_offset reg1 =? reg_offset reg2
  then reg_size reg1 <? reg_size reg2
  else reg_offset reg1 <? reg_offset reg2.

(** ** Vocabulary of the further properties *)

(** The [Free] events of a trace. *)
Definition frees (events : list MemEvent) : list MemEvent :=
  filter (λ e, ev_type e = Free) events.

(** A live range [r] with size [s] that an [Allocate] and a later [Free]
    among the events [seen] account for. *)
Definition paired_in (seen : list MemEvent) (r : LiveRange) (s : Z) : Prop :=
  ∃ a f, a ∈ seen ∧ f ∈ seen ∧ ev_type a = Allocate ∧ ev_type f = Free ∧
         ev_ptr_addr a = ev_ptr_addr f ∧ ev_size a = ev_size f ∧
         ev_time a < ev_time f ∧
         r = mkLiveRange (ev_time a) (ev_time f) ∧ s = ev_size a.

(** What the sweep keeps true of its three containers once the events
    [seen] are processed. *)
Definition sweep_invariant (seen : list MemEvent) (st : TraceState) : Prop :=
  (∀ k a, st.2 !! k = Some a → a ∈ seen ∧ ev_type a = Allocate ∧ ev_ptr_addr a = k) ∧
  (∀ r s, st.1.1 !! r = Some s → paired_in seen r s) ∧
  (∀ r, is_Some (st.1.1 !! r) ↔ r ∈ (st.1.2).*1) ∧
  length st.1.2 = length (frees seen).

(** The call that the switch of [planMemory] (lines 541-571) makes for a
    strategy, on the containers [getManagedStuff] returned; [None] for a
    strategy the switch does not know. *)
Definition strategy_call (ext : Collaborators) (strat : Strategy)
    (out_nodes : list NodeRef) (managed_value_sizes : gmap Value Z)
    (managed_value_ranges : gmap Value LiveRange) : option (M (list MemAllocation)) :=
  let '(managed_live_ranges, managed_value_ranges) :=
    rangeSizes managed_value_sizes managed_value_ranges in
  if strat =? NAIVE then Some (mret (naive managed_live_ranges))
  else if strat =? LINEAR_SCAN then Some (linearScanHeuristic ext managed_live_ranges)
  else if strat =? GREEDY_BY_SIZE then Some (greedyBySize ext managed_live_ranges)
  else if strat =? GREEDY_BY_SIZE_WITH_FIRST_GAP
    then Some (greedyBySizeWithFirstGap ext managed_live_ranges)
  else if strat =? GREEDY_BY_LONGEST_AND_SIZE
    then Some (greedyBySizeAndLongestWithFirstGap ext managed_live_ranges)
  else if strat =? GREEDY_BY_BREADTH
    then Some (greedyByOperatorBreadth ext managed_value_sizes managed_value_ranges out_nodes)
  else None.

(** Collaborators for [shared_range_graph] under which [%3] lives over
    [[0,5]] and [%5] over [[3,8]], and whose linear scan hands back two
    regions of [2 ^ 62] bytes at offset 0, one for each range. *)
Definition staggered_ext : Collaborators :=
  mkCollaborators
    (λ _, None) (λ sizes, sizes) (λ _, 4)
    (λ _, [["self"; "out"]]) (λ _ _ _, false)
    (λ _, ∅)
    (λ _ _, {[ 3%positive := mkLiveRange 0 5; 5%positive := mkLiveRange 3 8 ]})
    (λ _, mret [mkMemAllocation (mkLiveRange 0 5) (mkMemRegion 0 (2 ^ 62));
                mkMemAllocation (mkLiveRange 3 8) (mkMemRegion 0 (2 ^ 62))])
    (λ m, mret (naive m)) (λ m, mret (naive m))
    (λ m, mret (naive m)) (λ _ _ _, mret []).

(** The graph [planMemory] leaves when it plans [shared_range_graph] with
    NAIVE under [staggered_ext]. *)
Definition staggered_planned : Graph :=
  Eval vm_compute in
    match planMemory staggered_ext shared_range_graph NAIVE with
    | Done (graph, _) _ => graph
    | Fatal _ => shared_range_graph
    end.

(** [graph'] is [graph] with nodes added: the graph outputs are the same,
    every node and value that [graph] could hold is as it was, and the
    schedule of [graph] is kept in order inside that of [graph']. *)
Definition extends (graph graph' : Graph) : Prop :=
  graph_outputs graph' = graph_outputs graph ∧
  (next_pointer graph ≤ next_pointer graph')%positive ∧
  (∀ n, (n < next_pointer graph)%positive → store graph' !! n = store graph !! n) ∧
  (∀ v, (v < next_pointer graph)%positive → values graph' !! v = values graph !! v) ∧
  schedule graph `sublist_of` schedule graph'.

(** The node [nd0] sits in the store of [graph] under the pointer [n], which
    the graph has handed out, and [n] is scheduled. *)
Definition holds_node (nd0 : Node) (n : NodeRef) (graph : Graph) : Prop :=
  store graph !! n = Some nd0 ∧ (n < next_pointer graph)%positive ∧ n ∈ schedule graph.

(** The graph [planMemoryWithTracing] leaves when it plans [example_trace]
    on [example_graph] with NAIVE. *)
Definition example_traced : Graph :=
  Eval vm_compute in
    match planMemoryWithTracing example_ext example_graph NAIVE example_trace None with
    | Done (graph, _) _ => graph
    | Fatal _ => example_graph
    end.

(** * Properties *)

(** ** The monad *)

Lemma M_ret_Done {A : Type} (a : A) : (mret a : M A) = Done a [].
Proof. reflexivity. Qed.

Lemma M_bind_Done {A B : Type} (a : A) (f : A → M B) :
  (Done a [] ≫= f) = f a.
Proof. unfold mbind, M_bind. by destruct (f a). Qed.

Lemma M_bind_Done_inv {A B : Type} (m : M A) (f : A → M B) (b : B) (log : list Diag) :
  (m ≫= f) = Done b log →
  ∃ a l1 l2, m = Done a l1 ∧ f a = Done b l2 ∧ log = l1 ++ l2.
Proof.
  unfold mbind, M_bind. destruct m as [a l1|e]; [|done].
  destruct (f a) as [b' l2|e] eqn:Hf; [|done].
  intros [= -> <-]. by exists a, l1, l2.
Qed.

Lemma assert_true (site : string) : TORCH_INTERNAL_ASSERT site true = Done () [].
Proof. reflexivity. Qed.

Lemma assert_false (site : string) :
  TORCH_INTERNAL_ASSERT site false = Fatal (InternalAssert site).
Proof. reflexivity. Qed.

(** ** Equality tests *)

Lemma LiveRange_eqb_eq (x y : LiveRange) : LiveRange_eqb x y = true ↔ x = y.
Proof.
  destruct x, y. unfold LiveRange_eqb. simpl.
  rewrite andb_true_iff, !Z.eqb_eq. split; [intros [-> ->]; done | by intros [= -> ->]].
Qed.

Lemma MemRegion_eqb_eq (x y : MemRegion) : MemRegion_eqb x y = true ↔ x = y.
Proof.
  destruct x, y. unfold MemRegion_eqb. simpl.
  rewrite andb_true_iff, !Z.eqb_eq. split; [intros [-> ->]; done | by intros [= -> ->]].
Qed.

Lemma MemAllocation_eqb_eq (x y : MemAllocation) : MemAllocation_eqb x y = true ↔ x = y.
Proof.
  destruct x, y. unfold MemAllocation_eqb. simpl.
  rewrite andb_true_iff, LiveRange_eqb_eq, MemRegion_eqb_eq.
  split; [intros [-> ->]; done | by intros [= -> ->]].
Qed.

Lemma MemAllocation_eqb_refl (x : MemAllocation) : MemAllocation_eqb x x = true.
Proof. by apply MemAllocation_eqb_eq. Qed.

Lemma MemAllocation_eqb_neq (x y : MemAllocation) : MemAllocation_eqb x y = false ↔ x ≠ y.
Proof. rewrite <- MemAllocation_eqb_eq. by destruct (MemAllocation_eqb x y). Qed.

(** ** 64-bit arithmetic *)

Lemma wrap_in_range (z : Z) : Int64.in_range z → Int64.wrap z = z.
Proof.
  unfold Int64.in_range, Int64.wrap, Int64.min, Int64.max. intros H.
  rewrite Z.mod_small; lia.
Qed.

Lemma add_in_range (x y : Z) : Int64.in_range (x + y) → Int64.add x y = x + y.
Proof. apply wrap_in_range. Qed.

(** ** What [intersectArea] returns on non-negative 64-bit endpoints *)

Lemma intersectArea_nonneg (a b c d : Z) :
  0 <= a <= b → b <= Int64.max → 0 <= c <= d → d <= Int64.max →
  intersectArea a b c d = Done (area_result a b c d) [].
Proof.
  intros Hab Hb Hcd Hd. unfold intersectArea, area_result, TORCH_INTERNAL_ASSERT.
  assert (Hle1 : (a <=? b) = true) by lia. assert (Hle2 : (c <=? d) = true) by lia.
  rewrite Hle1, Hle2, !M_ret_Done, !M_bind_Done.
  unfold Int64.sub, Int64.add.
  assert (Hm : Int64.max = 2 ^ 63 - 1) by reflexivity.
  rewrite (wrap_in_range (b - a)), (wrap_in_range (d - c)),
    (wrap_in_range (Z.max b d - Z.min a c)) by (unfold Int64.in_range, Int64.min; lia).
  unfold valid_add, valid_sub.
  destruct (b - a + (d - c) >? Int64.max) eqn:HL.
  - replace ((d - c >? 0) && (b - a >? Int64.max - (d - c))) with true by lia.
    done.
  - replace ((d - c >? 0) && (b - a >? Int64.max - (d - c))) with false by lia.
    replace ((d - c <? 0) && (b - a <? Int64.min - (d - c))) with false by lia.
    simpl. rewrite (wrap_in_range (b - a + (d - c))) by (unfold Int64.in_range, Int64.min; lia).
    replace ((b - a + (d - c) <? 0) &&
             (Z.max b d - Z.min a c >? Int64.max + (b - a + (d - c)))) with false by lia.
    replace ((b - a + (d - c) >? 0) &&
             (Z.max b d - Z.min a c <? Int64.min + (b - a + (d - c)))) with false
      by (unfold Int64.min; lia).
    simpl. rewrite wrap_in_range by (unfold Int64.in_range, Int64.min; lia).
    destruct (Z.max b d - Z.min a c - (b - a + (d - c)) >? 0) eqn:H1,
      (Z.max b d - Z.min a c >? b - a + (d - c)) eqn:H2; try done; lia.
Qed.

(** ** Nothing is logged by the geometry primitives *)

Lemma intersectArea_log (a b c d r : Z) (log : list Diag) :
  intersectArea a b c d = Done r log → log = [].
Proof.
  unfold intersectArea, TORCH_INTERNAL_ASSERT.
  destruct (a <=? b); [|done]. destruct (c <=? d); [|done].
  rewrite !M_ret_Done, !M_bind_Done.
  repeat match goal with |- context [if ?g then _ else _] => destruct g end;
    by intros [= _ <-].
Qed.

Lemma intersectLiveRange_log (l1 l2 : LiveRange) (t : bool) (log : list Diag) :
  intersectLiveRange l1 l2 = Done t log → log = [].
Proof.
  unfold intersectLiveRange. intros H.
  apply M_bind_Done_inv in H as (r & k1 & k2 & Ha & Hr & ->).
  apply intersectArea_log in Ha as ->. by injection Hr as _ <-.
Qed.

Lemma intersectMemRegion_log (r1 r2 : MemRegion) (t : bool) (log : list Diag) :
  intersectMemRegion r1 r2 = Done t log → log = [].
Proof.
  unfold intersectMemRegion. intros H.
  apply M_bind_Done_inv in H as (r & k1 & k2 & Ha & Hr & ->).
  apply intersectArea_log in Ha as ->. by injection Hr as _ <-.
Qed.

Lemma intersectAllocs_log (m1 m2 : MemAllocation) (c : bool) (log : list Diag) :
  intersectAllocs m1 m2 = Done c log → log = [].
Proof.
  unfold intersectAllocs. intros H.
  apply M_bind_Done_inv in H as (t & k1 & k2 & Ht & Hr & ->).
  apply intersectLiveRange_log in Ht as ->.
  destruct t.
  - by apply intersectMemRegion_log in Hr as ->.
  - by injection Hr as _ <-.
Qed.

(** ** The validator's loops, case by case *)

Lemma validateAgainst_cases (alloc1 : MemAllocation) (inner : list MemAllocation) :
  match validateAgainst alloc1 inner with
  | Done true log =>
      log = [] ∧ ∀ b, b ∈ inner → alloc1 ≠ b → intersectAllocs alloc1 b = Done false []
  | Done false log =>
      ∃ b, log = [CerrConflict alloc1 b] ∧ b ∈ inner ∧ conflict alloc1 b
  | Fatal e =>
      ∃ b, b ∈ inner ∧ alloc1 ≠ b ∧ intersectAllocs alloc1 b = Fatal e
  end.
Proof.
  induction inner as [|alloc2 inner IH]; simpl.
  - split; [done|]. intros b Hb. by apply elem_of_nil in Hb.
  - destruct (MemAllocation_eqb alloc1 alloc2) eqn:Heq.
    + apply MemAllocation_eqb_eq in Heq as <-.
      destruct (validateAgainst alloc1 inner) as [[] log|e].
      * destruct IH as [-> IH]. split; [done|].
        intros b [->|Hb]%elem_of_cons Hne; [done | by apply IH].
      * destruct IH as (b & -> & Hb & Hc). exists b. by rewrite elem_of_cons; auto.
      * destruct IH as (b & Hb & Hne & Hf). exists b. by rewrite elem_of_cons; auto.
    + apply MemAllocation_eqb_neq in Heq.
      destruct (intersectAllocs alloc1 alloc2) as [c log|e] eqn:Hc.
      * pose proof (intersectAllocs_log _ _ _ _ Hc) as ->.
        rewrite M_bind_Done. destruct c.
        -- simpl. exists alloc2. split; [done|]. split; [apply elem_of_cons; auto|done].
        -- destruct (validateAgainst alloc1 inner) as [[] log|e].
           ++ destruct IH as [-> IH]. split; [done|].
              intros b [->|Hb]%elem_of_cons Hne; [done | by apply IH].
           ++ destruct IH as (b & -> & Hb & Hcf). exists b. by rewrite elem_of_cons; auto.
           ++ destruct IH as (b & Hb & Hne & Hf). exists b. by rewrite elem_of_cons; auto.
      * simpl. exists alloc2. by rewrite elem_of_cons; auto.
Qed.

Lemma validateFrom_cases (allocations outer : list MemAllocation) :
  match validateFrom allocations outer with
  | Done true log =>
      log = [] ∧
      ∀ a b, a ∈ outer → b ∈ allocations → a ≠ b → intersectAllocs a b = Done false []
  | Done false log =>
      ∃ a b, log = [CerrConflict a b] ∧ a ∈ outer ∧ b ∈ allocations ∧ conflict a b
  | Fatal e =>
      ∃ a b, a ∈ outer ∧ b ∈ allocations ∧ a ≠ b ∧ intersectAllocs a b = Fatal e
  end.
Proof.
  induction outer as [|alloc1 outer IH]; simpl.
  - split; [done|]. intros a b Ha. by apply elem_of_nil in Ha.
  - pose proof (validateAgainst_cases alloc1 allocations) as Hin.
    destruct (validateAgainst alloc1 allocations) as [[] log|e].
    + destruct Hin as [-> Hin]. rewrite M_bind_Done.
      destruct (validateFrom allocations outer) as [[] log|e].
      * destruct IH as [-> IH]. split; [done|].
        intros a b [->|Ha]%elem_of_cons Hb Hne; [by apply Hin | by apply IH].
      * destruct IH as (a & b & -> & Ha & Hb & Hc). exists a, b.
        by rewrite elem_of_cons; auto.
      * destruct IH as (a & b & Ha & Hb & Hne & Hf). exists a, b.
        by rewrite elem_of_cons; auto.
    + destruct Hin as (b & -> & Hb & Hc). simpl. exists alloc1, b.
      split; [done|]. split; [apply elem_of_cons; auto|done].
    + destruct Hin as (b & Hb & Hne & Hf). simpl. exists alloc1, b.
      by rewrite elem_of_cons; auto.
Qed.

Lemma intersectArea_total (a b c d : Z) :
  a <= b → c <= d → ∃ r, intersectArea a b c d = Done r [].
Proof.
  intros Hab Hcd. unfold intersectArea, TORCH_INTERNAL_ASSERT.
  assert (Hle1 : (a <=? b) = true) by lia. assert (Hle2 : (c <=? d) = true) by lia.
  rewrite Hle1, Hle2, !M_ret_Done, !M_bind_Done.
  repeat match goal with |- context [if ?g then _ else _] => destruct g end; eauto.
Qed.

Lemma intersectAllocs_total (a b : MemAllocation) :
  MemAllocation_wf a → MemAllocation_wf b → ∃ c, intersectAllocs a b = Done c [].
Proof.
  intros [Ha1 Ha2] [Hb1 Hb2]. unfold intersectAllocs, intersectLiveRange, intersectMemRegion.
  destruct (intersectArea_total _ _ _ _ Ha1 Hb1) as [r1 ->].
  destruct (intersectArea_total _ _ _ _ Ha2 Hb2) as [r2 ->].
  rewrite !M_bind_Done, !M_ret_Done, !M_bind_Done.
  destruct (r1 <=? 0); eauto.
Qed.

(** ** Live ranges that touch *)

Lemma intersectLiveRange_touch (l1 l2 : LiveRange) :
  0 <= lvr_begin l1 <= lvr_end l1 →
  lvr_end l1 = lvr_begin l2 →
  lvr_begin l2 <= lvr_end l2 <= Int64.max →
  intersectLiveRange l1 l2 = Done true [].
Proof.
  intros H1 Heq H2. unfold intersectLiveRange.
  rewrite intersectArea_nonneg by lia. rewrite M_bind_Done, M_ret_Done.
  f_equal. unfold area_result.
  repeat match goal with |- context [if ?g then _ else _] => destruct g eqn:? end; lia.
Qed.

(** C1 (as the code has it): live ranges that meet in a single point,
    [a.end == b.begin], do intersect in time: [intersectLiveRange] answers
    true on them, so whether the two allocations conflict is decided by
    [intersectMemRegion] on their regions alone. *)
Theorem touching_live_ranges_intersect (a b : MemAllocation) :
  0 <= lvr_begin (lvr a) <= lvr_end (lvr a) →
  lvr_end (lvr a) = lvr_begin (lvr b) →
  lvr_begin (lvr b) <= lvr_end (lvr b) <= Int64.max →
  intersectLiveRange (lvr a) (lvr b) = Done true [] ∧
  intersectAllocs a b = intersectMemRegion (reg a) (reg b).
Proof.
  intros H1 Heq H2.
  pose proof (intersectLiveRange_touch _ _ H1 Heq H2) as Ht.
  split; [done|]. unfold intersectAllocs. by rewrite Ht, M_bind_Done.
Qed.

Lemma touching_live_ranges_intersect_witness :
  let a := mkMemAllocation (mkLiveRange 0 5) (mkMemRegion 0 128) in
  let b := mkMemAllocation (mkLiveRange 5 10) (mkMemRegion 128 128) in
  intersectLiveRange (lvr a) (lvr b) = Done true [] ∧
  intersectAllocs a b = intersectMemRegion (reg a) (reg b).
Proof.
  intros a b. apply (touching_live_ranges_intersect a b); simpl.
  - lia.
  - reflexivity.
  - unfold Int64.max. lia.
Defined.

(** C1 (as the spec has it) fails: the live ranges [[0,5]] and [[5,10]] touch
    in one point and are reported as intersecting in time, and with regions
    that overlap the pair is a conflict that the validator rejects. *)
Lemma touching_live_ranges_conflict :
  let a := mkMemAllocation (mkLiveRange 0 5) (mkMemRegion 0 (2 ^ 62)) in
  let b := mkMemAllocation (mkLiveRange 5 10) (mkMemRegion 0 (2 ^ 62)) in
  lvr_end (lvr a) = lvr_begin (lvr b) ∧
  intersectLiveRange (lvr a) (lvr b) = Done true [] ∧
  intersectAllocs a b = Done true [] ∧
  validateAllocations [a; b] = Done false [CerrConflict a b].
Proof. repeat split; vm_compute; reflexivity. Qed.

(** The plan of the spec's third scenario is accepted by the validator. *)
Lemma scenario_3_accepted :
  validateAllocations
    [mkMemAllocation (mkLiveRange 0 5) (mkMemRegion 0 128);
     mkMemAllocation (mkLiveRange 5 10) (mkMemRegion 0 128)] = Done true [].
Proof. reflexivity. Qed.

(** ** The validator *)

(** The validator in terms of the test it calls: on allocations that pass
    the assertions of [intersectArea], [validateAllocations] returns true
    exactly when [intersectAllocs] answers true on no ordered pair of
    distinct allocations; when it does on some pair, the validator returns
    false after writing one such pair out. *)
Lemma validateAllocations_iff (allocations : list MemAllocation) :
  Forall MemAllocation_wf allocations →
  (validateAllocations allocations = Done true [] ↔
   ∀ a b, a ∈ allocations → b ∈ allocations → a ≠ b →
          intersectAllocs a b ≠ Done true [])
  ∧ ((∃ a b, a ∈ allocations ∧ b ∈ allocations ∧ conflict a b) →
     ∃ a b, a ∈ allocations ∧ b ∈ allocations ∧ conflict a b ∧
            validateAllocations allocations = Done false [CerrConflict a b]).
Proof.
  intros Hwf. rewrite Forall_forall in Hwf.
  unfold validateAllocations.
  pose proof (validateFrom_cases allocations allocations) as Hc.
  split; [split|].
  - intros Hv. rewrite Hv in Hc. destruct Hc as [_ Hc].
    intros a b Ha Hb Hne. by rewrite (Hc a b Ha Hb Hne).
  - intros Hno. destruct (validateFrom allocations allocations) as [[] log|e].
    + by destruct Hc as [-> _].
    + destruct Hc as (a & b & _ & Ha & Hb & Hne & Hab). by destruct (Hno a b Ha Hb Hne).
    + destruct Hc as (a & b & Ha & Hb & Hne & Hf).
      destruct (intersectAllocs_total a b (Hwf a Ha) (Hwf b Hb)) as [c Hd]. congruence.
  - intros (a & b & Ha & Hb & Hne & Hab).
    destruct (validateFrom allocations allocations) as [[] log|e].
    + destruct Hc as [_ Hc]. rewrite (Hc a b Ha Hb Hne) in Hab. done.
    + destruct Hc as (a' & b' & -> & Ha' & Hb' & Hcf). by exists a', b'.
    + destruct Hc as (a' & b' & Ha' & Hb' & Hne' & Hf).
      destruct (intersectAllocs_total a' b' (Hwf a' Ha') (Hwf b' Hb')) as [c Hd]. congruence.
Qed.

Lemma validateAllocations_iff_witness :
  let a := mkMemAllocation (mkLiveRange 0 5) (mkMemRegion 0 (2 ^ 62)) in
  let b := mkMemAllocation (mkLiveRange 5 10) (mkMemRegion 0 (2 ^ 62)) in
  Forall MemAllocation_wf [a; b] ∧
  ((validateAllocations [a; b] = Done true [] ↔
    ∀ x y, x ∈ [a; b] → y ∈ [a; b] → x ≠ y → intersectAllocs x y ≠ Done true [])
   ∧ ((∃ x y, x ∈ [a; b] ∧ y ∈ [a; b] ∧ conflict x y) →
      ∃ x y, x ∈ [a; b] ∧ y ∈ [a; b] ∧ conflict x y ∧
             validateAllocations [a; b] = Done false [CerrConflict x y])).
Proof.
  intros a b.
  assert (Hwf : Forall MemAllocation_wf [a; b]).
  { repeat constructor; vm_compute; congruence. }
  split; [exact Hwf|]. exact (validateAllocations_iff [a; b] Hwf).
Defined.

(** C10: allocations are told apart by value, not by position, so a plan
    made of one allocation listed twice is reported as valid although the
    two entries share their whole live range and their whole region. *)
Theorem validateAllocations_duplicates (a : MemAllocation) :
  validateAllocations [a; a] = Done true [].
Proof.
  unfold validateAllocations. simpl. by rewrite !MemAllocation_eqb_refl.
Qed.

(** The equality test is what lets the duplicate through: the same
    allocation intersects itself as far as [intersectAllocs] is concerned. *)
Lemma duplicate_intersects_itself :
  let a := mkMemAllocation (mkLiveRange 0 5) (mkMemRegion 0 (2 ^ 62)) in
  intersectAllocs a a = Done true [] ∧ validateAllocations [a; a] = Done true [].
Proof. split; reflexivity. Qed.

(** ** [intersectArea] on intervals that overlap *)

(** C4: on the intervals [[0,128]] and [[0,128]], which overlap in more than
    a point ([outer = 128 < L = 256], nothing overflows), [intersectArea]
    returns 0 ("touch") where the three-valued primitive of the spec and the
    comments of the code ask for -1 ("overlap"). *)
Theorem intersectArea_overlap_reported_as_touch :
  intersect_spec 0 128 0 128 = -1 ∧ intersectArea 0 128 0 128 = Done 0 [].
Proof. split; reflexivity. Qed.

(** Without overflow the result is never -1. *)
Lemma intersectArea_never_overlap (a b c d : Z) :
  0 <= a <= b → b <= Int64.max → 0 <= c <= d → d <= Int64.max →
  (b - a) + (d - c) <= Int64.max →
  intersectArea a b c d = Done (if Z.max b d - Z.min a c >? (b - a) + (d - c) then 1 else 0) [].
Proof.
  intros Hab Hb Hcd Hd HL. rewrite intersectArea_nonneg by done.
  unfold area_result. simpl.
  replace (b - a + (d - c) >? Int64.max) with false by lia. done.
Qed.

(** C5: the regions [{offset 0, size 128}] and [{offset 0, size 128}] are the
    same bytes, so they overlap by more than a point, yet [intersectMemRegion]
    answers false. *)
Theorem intersectMemRegion_misses_overlap :
  regions_overlap (mkMemRegion 0 128) (mkMemRegion 0 128) ∧
  intersectMemRegion (mkMemRegion 0 128) (mkMemRegion 0 128) = Done false [].
Proof.
  split.
  - unfold regions_overlap. simpl. lia.
  - reflexivity.
Qed.

(** [intersectMemRegion] answers true only when the two sizes together
    overflow. *)
Lemma intersectMemRegion_only_on_overflow (r1 r2 : MemRegion) :
  0 <= reg_offset r1 → 0 < reg_size r1 → reg_offset r1 + reg_size r1 <= Int64.max →
  0 <= reg_offset r2 → 0 < reg_size r2 → reg_offset r2 + reg_size r2 <= Int64.max →
  intersectMemRegion r1 r2 = Done (Int64.max <? reg_size r1 + reg_size r2) [].
Proof.
  intros Ho1 Hs1 Hm1 Ho2 Hs2 Hm2. unfold intersectMemRegion, Int64.add.
  assert (Hm : Int64.max = 2 ^ 63 - 1) by reflexivity.
  rewrite !wrap_in_range by (unfold Int64.in_range, Int64.min; lia).
  rewrite intersectArea_nonneg by lia. rewrite M_bind_Done, M_ret_Done.
  f_equal. unfold area_result.
  repeat match goal with |- context [if ?g then _ else _] => destruct g eqn:? end.
  all: lia.
Qed.

(** The unchecked sum [offset + size] wraps around for a region near the top
    of the 64-bit range, and the assertion [a <= b] then fails. *)
Lemma intersectMemRegion_near_max :
  intersectMemRegion (mkMemRegion (2 ^ 63 - 2) 10) (mkMemRegion 0 1)
  = Fatal (InternalAssert "a <= b").
Proof. reflexivity. Qed.

(** ** The validator on plans with overlapping regions *)

Lemma intersectLiveRange_meet (l1 l2 : LiveRange) :
  0 <= lvr_begin l1 <= lvr_end l1 → lvr_end l1 <= Int64.max →
  0 <= lvr_begin l2 <= lvr_end l2 → lvr_end l2 <= Int64.max →
  intersectLiveRange l1 l2 = Done (bool_decide (live_ranges_meet l1 l2)) [].
Proof.
  intros H1 H1' H2 H2'. unfold intersectLiveRange.
  rewrite intersectArea_nonneg by done. rewrite M_bind_Done, M_ret_Done.
  f_equal. assert (Hm : Int64.max = 2 ^ 63 - 1) by reflexivity.
  unfold area_result, live_ranges_meet.
  case_bool_decide as Hd;
    repeat match goal with |- context [if ?g then _ else _] => destruct g eqn:? end;
    lia.
Qed.

Lemma MemAllocation_ordinary_wf (a : MemAllocation) :
  MemAllocation_ordinary a → MemAllocation_wf a.
Proof.
  intros (Hl & Hle & Ho & Hs & Hm). split; [lia|].
  unfold Int64.add. rewrite wrap_in_range; [lia|].
  unfold Int64.in_range, Int64.min. lia.
Qed.

(** What [intersectAllocs] decides on ordinary allocations: that the live
    ranges meet and that the two sizes together leave the 64-bit range.
    Where the regions lie plays no part. *)
Lemma intersectAllocs_ordinary (a b : MemAllocation) :
  MemAllocation_ordinary a → MemAllocation_ordinary b →
  intersectAllocs a b
  = Done (bool_decide (live_ranges_meet (lvr a) (lvr b)) &&
          (Int64.max <? reg_size (reg a) + reg_size (reg b))) [].
Proof.
  intros (Hl1 & Hle1 & Ho1 & Hs1 & Hm1) (Hl2 & Hle2 & Ho2 & Hs2 & Hm2).
  unfold intersectAllocs.
  rewrite intersectLiveRange_meet by done. rewrite M_bind_Done.
  destruct (bool_decide (live_ranges_meet (lvr a) (lvr b))); simpl.
  - by rewrite intersectMemRegion_only_on_overflow.
  - done.
Qed.

(** The validator on ordinary allocations, over mathematical integers: a
    plan is rejected only for a pair whose live ranges meet and whose sizes
    add up to more than the largest 64-bit integer. *)
Lemma validateAllocations_ordinary (allocations : list MemAllocation) :
  Forall MemAllocation_ordinary allocations →
  validateAllocations allocations = Done true [] ↔
  ∀ a b, a ∈ allocations → b ∈ allocations → a ≠ b →
         ¬ (live_ranges_meet (lvr a) (lvr b) ∧
            Int64.max < reg_size (reg a) + reg_size (reg b)).
Proof.
  intros Hord. rewrite Forall_forall in Hord.
  unfold validateAllocations.
  pose proof (validateFrom_cases allocations allocations) as Hc.
  split.
  - intros Hv. rewrite Hv in Hc. destruct Hc as [_ Hc].
    intros a b Ha Hb Hne [Hmeet Hbig]. specialize (Hc a b Ha Hb Hne).
    rewrite intersectAllocs_ordinary in Hc by auto.
    rewrite bool_decide_eq_true_2 in Hc by done. simpl in Hc.
    injection Hc as Hc. apply Z.ltb_ge in Hc. lia.
  - intros Hno. destruct (validateFrom allocations allocations) as [[] log|e].
    + by destruct Hc as [-> _].
    + destruct Hc as (a & b & _ & Ha & Hb & Hne & Hab).
      rewrite intersectAllocs_ordinary in Hab by auto.
      injection Hab as Hab. apply andb_true_iff in Hab as [Hmeet Hbig].
      apply bool_decide_eq_true_1 in Hmeet. apply Z.ltb_lt in Hbig.
      by destruct (Hno a b Ha Hb Hne).
    + destruct Hc as (a & b & Ha & Hb & Hne & Hf).
      rewrite intersectAllocs_ordinary in Hf by auto. done.
Qed.

(** Every plan of ordinary allocations whose sizes stay below [2 ^ 62] is
    accepted, whatever its regions. *)
Lemma validateAllocations_accepts_small_sizes (allocations : list MemAllocation) :
  Forall MemAllocation_ordinary allocations →
  Forall (λ a, reg_size (reg a) < 2 ^ 62) allocations →
  validateAllocations allocations = Done true [].
Proof.
  intros Hord Hsmall. apply validateAllocations_ordinary; [done|].
  rewrite Forall_forall in Hsmall.
  intros a b Ha%Hsmall Hb%Hsmall _ [_ Hbig]. simpl in *.
  assert (Hm : Int64.max = 2 ^ 63 - 1) by reflexivity. lia.
Qed.

(** C2: the allocations [{[0,10], {0,64}}] and [{[0,10], {32,64}}] are
    distinct, live over the same interval, and share the bytes 32 to 63, so
    they intersect both in time and in space; [validateAllocations] returns
    true on the pair and writes nothing out. *)
Theorem validateAllocations_accepts_overlap :
  let a := mkMemAllocation (mkLiveRange 0 10) (mkMemRegion 0 64) in
  let b := mkMemAllocation (mkLiveRange 0 10) (mkMemRegion 32 64) in
  overlapping_pair a b ∧ validateAllocations [a; b] = Done true [].
Proof.
  intros a b. split.
  - split; [by intros [=]|]. split.
    + unfold live_ranges_meet. simpl. lia.
    + unfold regions_overlap. simpl. lia.
  - reflexivity.
Qed.

(** ** The comparator is a strict total order *)

Lemma key_lt_spec (x y : LiveRange) :
  key_lt x y ↔
  lvr_begin x < lvr_begin y ∨ (lvr_begin x = lvr_begin y ∧ lvr_end x < lvr_end y).
Proof.
  unfold key_lt, live_range_start_cmp.
  destruct (lvr_begin x =? lvr_begin y) eqn:Hb; lia.
Qed.

Lemma key_lt_false (x y : LiveRange) :
  live_range_start_cmp x y = false ↔ ¬ key_lt x y.
Proof. unfold key_lt. by destruct (live_range_start_cmp x y). Qed.

Lemma key_lt_trans (x y z : LiveRange) : key_lt x y → key_lt y z → key_lt x z.
Proof. rewrite !key_lt_spec. lia. Qed.

Lemma key_lt_irrefl (x : LiveRange) : ¬ key_lt x x.
Proof. rewrite key_lt_spec. lia. Qed.

Lemma key_lt_total (x y : LiveRange) : ¬ key_lt x y → ¬ key_lt y x → x = y.
Proof.
  rewrite !key_lt_spec. destruct x as [xb xe], y as [yb ye]. simpl. intros H1 H2.
  f_equal; lia.
Qed.

Lemma key_lt_begin (x y : LiveRange) : key_lt x y → lvr_begin x <= lvr_begin y.
Proof. rewrite key_lt_spec. lia. Qed.

(** ** [std::map] insertion keeps the entries sorted and loses none *)

Section LiveRangeMapFacts.
Context {V : Type}.
Implicit Types (k : LiveRange) (v : V) (m : LiveRangeMap.t V).

Lemma insert_elem_of k v m x :
  x ∈ LiveRangeMap.insert k v m → x = (k, v) ∨ x ∈ m.
Proof.
  induction m as [|[k' v'] m IH]; simpl.
  - intros ->%list_elem_of_singleton. by left.
  - destruct (live_range_start_cmp k k').
    + intros [->|H]%elem_of_cons; [by left | by right].
    + destruct (live_range_start_cmp k' k); [|by right].
      intros [->|H]%elem_of_cons; [right; apply elem_of_cons; by left|].
      destruct (IH H) as [->|H']; [by left|]. right. apply elem_of_cons. by right.
Qed.

Lemma insert_sorted k v m :
  StronglySorted entry_lt m → StronglySorted entry_lt (LiveRangeMap.insert k v m).
Proof.
  induction m as [|[k' v'] m IH]; simpl; intros Hs.
  - repeat constructor.
  - apply StronglySorted_inv in Hs as [Hs Hall].
    destruct (live_range_start_cmp k k') eqn:H1.
    + constructor; [by constructor|]. constructor; [done|].
      eapply Forall_impl; [exact Hall|]. intros [k2 v2] H2. unfold entry_lt in *. simpl in *.
      by eapply key_lt_trans.
    + destruct (live_range_start_cmp k' k) eqn:H2; [|by constructor].
      constructor; [by apply IH|]. apply Forall_forall. intros x Hx.
      apply insert_elem_of in Hx as [->|Hx]; [done|].
      rewrite Forall_forall in Hall. by apply Hall.
Qed.

Lemma insert_fresh k v m :
  k ∉ m.*1 → LiveRangeMap.insert k v m ≡ₚ (k, v) :: m.
Proof.
  induction m as [|[k' v'] m IH]; simpl; intros Hk; [done|].
  apply not_elem_of_cons in Hk as [Hne Hk].
  destruct (live_range_start_cmp k k') eqn:H1; [done|].
  destruct (live_range_start_cmp k' k) eqn:H2.
  - rewrite (IH Hk). apply Permutation_swap.
  - apply key_lt_false in H1, H2. by destruct Hne; apply key_lt_total.
Qed.

Lemma insert_present k v m :
  StronglySorted entry_lt m → k ∈ m.*1 → LiveRangeMap.insert k v m = m.
Proof.
  induction m as [|[k' v'] m IH]; simpl; intros Hs Hk; [by apply elem_of_nil in Hk|].
  apply StronglySorted_inv in Hs as [Hs Hall].
  apply elem_of_cons in Hk as [->|Hk].
  - pose proof (key_lt_irrefl k') as Hirr. apply key_lt_false in Hirr. by rewrite Hirr.
  - assert (Hlt : key_lt k' k).
    { apply list_elem_of_fmap in Hk as ([k2 v2] & -> & Hin).
      rewrite Forall_forall in Hall. exact (Hall _ Hin). }
    assert (Hnlt : ¬ key_lt k k').
    { intros H. exact (key_lt_irrefl k (key_lt_trans _ _ _ H Hlt)). }
    apply key_lt_false in Hnlt. rewrite Hnlt, Hlt. f_equal. by apply IH.
Qed.

Lemma find_insert_present k v m x :
  StronglySorted entry_lt m → (k, x) ∈ m → LiveRangeMap.find k m = Some x.
Proof.
  induction m as [|[k' v'] m IH]; simpl; intros Hs Hk; [by apply elem_of_nil in Hk|].
  apply StronglySorted_inv in Hs as [Hs Hall].
  apply elem_of_cons in Hk as [[= <- <-]|Hk].
  - pose proof (key_lt_irrefl k) as Hirr. apply key_lt_false in Hirr. by rewrite Hirr.
  - assert (Hlt : key_lt k' k).
    { rewrite Forall_forall in Hall. exact (Hall _ Hk). }
    assert (Hnlt : ¬ key_lt k k').
    { intros H. exact (key_lt_irrefl k (key_lt_trans _ _ _ H Hlt)). }
    apply key_lt_false in Hnlt. rewrite Hnlt, Hlt. by apply IH.
Qed.

Lemma find_None k m :
  k ∉ m.*1 → LiveRangeMap.find k m = None.
Proof.
  induction m as [|[k' v'] m IH]; simpl; intros Hk; [done|].
  apply not_elem_of_cons in Hk as [Hne Hk].
  destruct (live_range_start_cmp k k') eqn:H1; [done|].
  destruct (live_range_start_cmp k' k) eqn:H2; [by apply IH|].
  apply key_lt_false in H1, H2. by destruct Hne; apply key_lt_total.
Qed.

Lemma of_list_from (items : list (LiveRange * V)) m :
  StronglySorted entry_lt m →
  NoDup (m.*1 ++ items.*1) →
  let m' := fold_left (λ (m : LiveRangeMap.t V) (item : LiveRange * V),
                         LiveRangeMap.insert item.1 item.2 m) items m in
  m' ≡ₚ m ++ items ∧ StronglySorted entry_lt m'.
Proof.
  revert m. induction items as [|[k v] items IH]; simpl; intros m Hs Hnd.
  - by rewrite app_nil_r.
  - apply NoDup_app in Hnd as (Hm & Hdisj & Hit).
    assert (Hk : k ∉ m.*1).
    { intros Hin. apply (Hdisj k Hin). apply elem_of_cons. by left. }
    pose proof (insert_fresh k v m Hk) as Hp.
    destruct (IH (LiveRangeMap.insert k v m)) as [Hperm Hsorted].
    + by apply insert_sorted.
    + rewrite Hp. simpl. apply NoDup_cons. split.
      * rewrite elem_of_app. intros [Hin|Hin]; [done|]. by apply NoDup_cons in Hit as [? _].
      * apply NoDup_app. split; [done|]. split; [|by apply NoDup_cons in Hit as [_ ?]].
        intros x Hx Hx'. apply (Hdisj x Hx). apply elem_of_cons. by right.
    + split; [|done]. rewrite Hperm, Hp. simpl.
      by rewrite Permutation_middle.
Qed.

Lemma of_list_sorted_perm (items : list (LiveRange * V)) :
  NoDup items.*1 →
  LiveRangeMap.of_list items ≡ₚ items ∧ StronglySorted entry_lt (LiveRangeMap.of_list items).
Proof.
  intros Hnd. apply (of_list_from items []); [constructor | done].
Qed.

End LiveRangeMapFacts.

(** ** The NAIVE strategy *)

Lemma sumZ_app (l1 l2 : list Z) : sumZ (l1 ++ l2) = sumZ l1 + sumZ l2.
Proof. unfold sumZ. induction l1 as [|x l1 IH]; simpl; lia. Qed.

Lemma sumZ_perm (l1 l2 : list Z) : l1 ≡ₚ l2 → sumZ l1 = sumZ l2.
Proof. unfold sumZ. induction 1; simpl; lia. Qed.

Lemma sum_aligned_perm (l1 l2 : list (LiveRange * Z)) :
  l1 ≡ₚ l2 → sum_aligned l1 = sum_aligned l2.
Proof. intros H. unfold sum_aligned. apply sumZ_perm. by rewrite H. Qed.

Lemma computeAlignedTensorSize_nonneg (n : Z) : 0 <= n → 0 <= computeAlignedTensorSize n.
Proof.
  intros Hn. unfold computeAlignedTensorSize, gAlignment.
  apply Z.mul_nonneg_nonneg; [|lia]. apply Z.div_pos; lia.
Qed.

Lemma sum_aligned_cons (item : LiveRange * Z) (items : list (LiveRange * Z)) :
  sum_aligned (item :: items) = computeAlignedTensorSize item.2 + sum_aligned items.
Proof. reflexivity. Qed.

Lemma sum_aligned_nonneg (items : list (LiveRange * Z)) :
  Forall (λ item, 0 <= item.2) items → 0 <= sum_aligned items.
Proof.
  induction 1 as [|item items Hi _ IH]; [done|].
  rewrite sum_aligned_cons.
  pose proof (computeAlignedTensorSize_nonneg _ Hi). lia.
Qed.

Lemma naive_loop_lvr (items : list (LiveRange * Z)) (o : Z) :
  lvr <$> naive_loop items o = items.*1.
Proof. revert o. induction items as [|item items IH]; intros o; simpl; [done|]. by rewrite IH. Qed.

Lemma aligned_size_in_range (item : LiveRange * Z) (items : list (LiveRange * Z)) (o : Z) :
  0 <= o →
  Forall (λ item, 0 <= item.2) (item :: items) →
  o + sum_aligned (item :: items) <= Int64.max →
  Int64.wrap (computeAlignedTensorSize item.2) = computeAlignedTensorSize item.2.
Proof.
  intros Ho [Hi Hpos]%Forall_cons Hmax. rewrite sum_aligned_cons in Hmax.
  pose proof (computeAlignedTensorSize_nonneg _ Hi) as Ha.
  pose proof (sum_aligned_nonneg _ Hpos) as Hs.
  apply wrap_in_range. unfold Int64.in_range, Int64.min, Int64.max in *. lia.
Qed.

Lemma naive_loop_sizes (items : list (LiveRange * Z)) (o : Z) :
  0 <= o →
  Forall (λ item, 0 <= item.2) items →
  o + sum_aligned items <= Int64.max →
  (reg_size ∘ reg) <$> naive_loop items o = computeAlignedTensorSize <$> items.*2.
Proof.
  revert o. induction items as [|item items IH]; intros o Ho Hpos Hmax; simpl; [done|].
  rewrite (aligned_size_in_range item items o) by done.
  apply Forall_cons in Hpos as [Hi Hpos].
  pose proof (computeAlignedTensorSize_nonneg _ Hi) as Ha.
  pose proof (sum_aligned_nonneg _ Hpos) as Hs.
  rewrite sum_aligned_cons in Hmax.
  rewrite add_in_range by (unfold Int64.in_range, Int64.min, Int64.max in *; lia).
  rewrite IH; [done|lia|done|lia].
Qed.

Lemma naive_loop_lookup (items : list (LiveRange * Z)) (o : Z) (i : nat) (a : MemAllocation) :
  0 <= o →
  Forall (λ item, 0 <= item.2) items →
  o + sum_aligned items <= Int64.max →
  naive_loop items o !! i = Some a →
  ∃ item, items !! i = Some item ∧ lvr a = item.1 ∧
          reg_size (reg a) = computeAlignedTensorSize item.2 ∧
          reg_offset (reg a) = o + sum_aligned (take i items).
Proof.
  revert o i. induction items as [|item items IH]; intros o i Ho Hpos Hmax; simpl; [done|].
  rewrite (aligned_size_in_range item items o) by done.
  apply Forall_cons in Hpos as [Hi Hpos].
  pose proof (computeAlignedTensorSize_nonneg _ Hi) as Ha.
  pose proof (sum_aligned_nonneg _ Hpos) as Hs.
  rewrite sum_aligned_cons in Hmax.
  destruct i as [|i]; simpl.
  - intros [= <-]. exists item. simpl. unfold sum_aligned. simpl. repeat split; lia.
  - intros Hl.
    rewrite add_in_range in Hl by (unfold Int64.in_range, Int64.min, Int64.max in *; lia).
    apply IH in Hl as (item' & Hit & Hl1 & Hl2 & Hl3); [|lia|done|lia].
    exists item'. rewrite sum_aligned_cons. repeat split; try done. lia.
Qed.

Lemma naive_loop_total (items : list (LiveRange * Z)) (o : Z) :
  0 <= o →
  Forall (λ item, 0 <= item.2) items →
  o + sum_aligned items <= Int64.max →
  fold_left
    (λ (total_size : Z) (alloc : MemAllocation),
       Z.max total_size (Int64.add (reg_offset (reg alloc)) (reg_size (reg alloc))))
    (naive_loop items o) o
  = o + sum_aligned items.
Proof.
  revert o. induction items as [|item items IH]; intros o Ho Hpos Hmax; simpl.
  - unfold sum_aligned. simpl. lia.
  - rewrite (aligned_size_in_range item items o) by done.
    apply Forall_cons in Hpos as [Hi Hpos].
    pose proof (computeAlignedTensorSize_nonneg _ Hi) as Ha.
    pose proof (sum_aligned_nonneg _ Hpos) as Hs.
    rewrite sum_aligned_cons in *.
    rewrite !(add_in_range o (computeAlignedTensorSize item.2))
      by (unfold Int64.in_range, Int64.min, Int64.max in *; lia).
    rewrite Z.max_r by lia. rewrite IH; [lia|lia|done|lia].
Qed.

Lemma sorted_by_lvr (l : list MemAllocation) :
  StronglySorted (λ x y : LiveRange, lvr_begin x <= lvr_begin y) (lvr <$> l) →
  StronglySorted (λ a b : MemAllocation, lvr_begin (lvr a) <= lvr_begin (lvr b)) l.
Proof.
  induction l as [|a l IH]; [constructor|].
  rewrite fmap_cons. intros [Hl Hall]%StronglySorted_inv.
  constructor; [by apply IH|]. by rewrite Forall_fmap in Hall.
Qed.

(** C3: NAIVE lists the managed live ranges by ascending [begin], each one
    once, gives each its aligned size and, as offset, the sum of the aligned
    sizes of the items before it (the first offset is 0); the total
    allocation size is then the sum of all aligned sizes.  Sizes are
    non-negative and their aligned sum fits in 64 bits. *)
Theorem naive_prefix_sums (managed_live_ranges : gmap LiveRange Z) :
  map_Forall (λ _ (s : Z), 0 <= s) managed_live_ranges →
  sum_aligned (map_to_list managed_live_ranges) <= Int64.max →
  let allocations := naive managed_live_ranges in
  lvr <$> allocations ≡ₚ (map_to_list managed_live_ranges).*1 ∧
  StronglySorted (λ a b : MemAllocation, lvr_begin (lvr a) <= lvr_begin (lvr b)) allocations ∧
  (∀ (i : nat) (a : MemAllocation), allocations !! i = Some a →
     (∃ s, managed_live_ranges !! lvr a = Some s ∧
           reg_size (reg a) = computeAlignedTensorSize s) ∧
     reg_offset (reg a) = sumZ ((reg_size ∘ reg) <$> take i allocations)) ∧
  getTotalAllocationSize allocations = sum_aligned (map_to_list managed_live_ranges).
Proof.
  intros Hpos Hmax. unfold naive. simpl.
  set (items := map_to_list managed_live_ranges) in *.
  destruct (of_list_sorted_perm items) as [Hperm Hsorted].
  { apply NoDup_fst_map_to_list. }
  set (sorted := LiveRangeMap.of_list items) in *.
  assert (Hpos' : Forall (λ item : LiveRange * Z, 0 <= item.2) sorted).
  { apply Forall_forall. intros [k s] Hin. rewrite Hperm in Hin.
    apply elem_of_map_to_list in Hin. exact (Hpos k s Hin). }
  assert (Hmax' : 0 + sum_aligned sorted <= Int64.max).
  { rewrite (sum_aligned_perm _ _ Hperm). lia. }
  repeat split.
  - rewrite naive_loop_lvr. by rewrite Hperm.
  - apply (sorted_by_lvr (naive_loop sorted 0)). rewrite naive_loop_lvr.
    eapply (StronglySorted_fmap fst entry_lt); [|exact Hsorted].
    intros x y Hxy. by apply key_lt_begin.
  - apply naive_loop_lookup in H as (item & Hit & Hl & Hsz & _); [|lia|done|done].
    exists item.2. split; [|done]. rewrite Hl.
    apply elem_of_map_to_list. fold items. rewrite <- Hperm.
    destruct item. eapply list_elem_of_lookup_2. exact Hit.
  - apply naive_loop_lookup in H as (item & Hit & Hl & Hsz & Hoff); [|lia|done|done].
    rewrite Hoff. rewrite fmap_take, naive_loop_sizes by (done || lia).
    unfold sum_aligned. rewrite !fmap_take. lia.
  - unfold getTotalAllocationSize. rewrite naive_loop_total by (done || lia).
    rewrite (sum_aligned_perm _ _ Hperm). lia.
Qed.

Lemma naive_prefix_sums_witness :
  let m : gmap LiveRange Z :=
    {[ mkLiveRange 1 3 := 100; mkLiveRange 0 2 := 10; mkLiveRange 2 4 := 10 ]} in
  map_Forall (λ _ (s : Z), 0 <= s) m ∧
  sum_aligned (map_to_list m) <= Int64.max ∧
  getTotalAllocationSize (naive m) = sum_aligned (map_to_list m).
Proof.
  intros m.
  assert (Hpos : map_Forall (λ _ (s : Z), 0 <= s) m).
  { intros k s Hk. unfold m in Hk.
    repeat (apply lookup_insert_Some in Hk as [[_ <-]|[_ Hk]]; [lia|]).
    apply lookup_singleton_Some in Hk as [_ <-]. lia. }
  assert (Hmax : sum_aligned (map_to_list m) <= Int64.max) by (vm_compute; congruence).
  split; [exact Hpos|]. split; [exact Hmax|].
  exact (proj2 (proj2 (proj2 (naive_prefix_sums m Hpos Hmax)))).
Defined.

(** The spec's fourth scenario under NAIVE, with 64-byte alignment. *)
Example naive_scenario_4 :
  naive {[ mkLiveRange 0 2 := 10; mkLiveRange 1 3 := 100; mkLiveRange 2 4 := 10 ]}
  = [mkMemAllocation (mkLiveRange 0 2) (mkMemRegion 0 64);
     mkMemAllocation (mkLiveRange 1 3) (mkMemRegion 64 128);
     mkMemAllocation (mkLiveRange 2 4) (mkMemRegion 192 64)].
Proof. vm_compute. reflexivity. Qed.

(** ** Replay of a trace *)

Lemma replay_step_det (open o1 o2 : gmap string MemEvent) (e : MemEvent) :
  replay_step open e o1 → replay_step open e o2 → o1 = o2.
Proof. destruct 1; destruct 1; congruence. Qed.

Lemma replay_det (open o1 o2 : gmap string MemEvent) (es : list MemEvent) :
  replay open es o1 → replay open es o2 → o1 = o2.
Proof.
  intros H1. revert o2. induction H1 as [|open open1 open2 e es Hs _ IH]; intros o2 H2.
  - by inversion H2.
  - inversion H2 as [|? open1' ? ? ? Hs' Hr']; subst.
    pose proof (replay_step_det _ _ _ _ Hs Hs') as <-. by apply IH.
Qed.

Lemma pending_ok_um_insert (allocs : gmap string MemEvent) (e : MemEvent) (fid : FrameNodeId) :
  ev_type e = Allocate → ev_frame_node_id e = Some fid →
  pending_ok allocs → pending_ok (um_insert (ev_ptr_addr e) e allocs).
Proof.
  intros Ht Hf Hinv. unfold um_insert.
  destruct (allocs !! ev_ptr_addr e) eqn:Hl; [done|].
  apply map_Forall_insert; [done|]. split; [|done]. split; [done|]. rewrite Hf. by eexists.
Qed.

Lemma pending_ok_delete (allocs : gmap string MemEvent) (k : string) :
  pending_ok allocs → pending_ok (delete k allocs).
Proof. apply map_Forall_delete. Qed.

Lemma replayMemEvent_cases (managed : gmap LiveRange Z)
    (header : list (LiveRange * FrameNodeId)) (allocs : gmap string MemEvent) (e : MemEvent) :
  pending_ok allocs →
  match replayMemEvent (managed, header, allocs) e with
  | Done (_, _, allocs') log =>
      log = [] ∧ pending_ok allocs' ∧ replay_step allocs e allocs'
  | Fatal f =>
      (∃ site, f = InternalAssert site) ∧ ∀ allocs', ¬ replay_step allocs e allocs'
  end.
Proof.
  intros Hinv. unfold replayMemEvent.
  destruct (ev_type e) eqn:Ht.
  - destruct (ev_frame_node_id e) as [fid|] eqn:Hf.
    + rewrite M_ret_Done. split; [done|]. split.
      * by eapply pending_ok_um_insert.
      * by eapply step_allocate.
    + unfold TORCH_INTERNAL_ASSERT. destruct (ev_time e =? 0) eqn:Hz.
      * rewrite !M_ret_Done, M_bind_Done. split; [done|]. split; [done|].
        apply step_allocate_before_start; [done|done|lia].
      * simpl. split; [by eexists|]. intros allocs' Hs.
        destruct Hs; [congruence | lia | congruence].
  - destruct (allocs !! ev_ptr_addr e) as [a|] eqn:Hl.
    + rewrite !(bool_decide_eq_true_2 (is_Some (Some a))) by (by eexists).
      unfold TORCH_INTERNAL_ASSERT. rewrite !M_ret_Done, !M_bind_Done.
      pose proof (Hinv _ _ Hl) as Hx. simpl in Hx. destruct Hx as [Hta [fid Hfa]].
      rewrite bool_decide_eq_true_2 by done. rewrite !M_bind_Done.
      destruct (ev_size a =? ev_size e) eqn:Hsz.
      * rewrite !M_bind_Done.
        destruct (ev_time a <? ev_time e) eqn:Htm.
        -- rewrite !M_bind_Done, Hfa. split; [done|]. split.
           ++ by apply pending_ok_delete.
           ++ apply (step_free _ _ a); [done|done|lia|lia].
        -- simpl. split; [by eexists|]. intros allocs' Hs.
           destruct Hs as [| |a' ? Hl' ? ?]; [congruence | congruence |].
           rewrite Hl in Hl'. injection Hl' as <-. lia.
      * simpl. split; [by eexists|]. intros allocs' Hs.
        destruct Hs as [| |a' ? Hl' ? ?]; [congruence | congruence |].
        rewrite Hl in Hl'. injection Hl' as <-. lia.
    + rewrite bool_decide_eq_false_2 by (intros [? ?]; done).
      simpl. split; [by eexists|]. intros allocs' Hs.
      destruct Hs; congruence.
Qed.

Lemma sweep_cases (mem_events : list MemEvent) (managed : gmap LiveRange Z)
    (header : list (LiveRange * FrameNodeId)) (allocs : gmap string MemEvent) :
  pending_ok allocs →
  match foldM replayMemEvent mem_events ((managed, header, allocs) : TraceState) with
  | Done (_, _, allocs') log =>
      log = [] ∧ pending_ok allocs' ∧ replay allocs mem_events allocs'
  | Fatal f =>
      (∃ site, f = InternalAssert site) ∧ ∀ allocs', ¬ replay allocs mem_events allocs'
  end.
Proof.
  revert managed header allocs.
  induction mem_events as [|e es IH]; intros managed header allocs Hinv; cbn [foldM].
  - rewrite M_ret_Done. split; [done|]. split; [done|constructor].
  - pose proof (replayMemEvent_cases managed header allocs e Hinv) as Hstep.
    destruct (replayMemEvent (managed, header, allocs) e) as [[[m1 h1] a1] log|f].
    + destruct Hstep as (-> & Hinv1 & Hs1). rewrite M_bind_Done.
      specialize (IH m1 h1 a1 Hinv1).
      destruct (foldM replayMemEvent es (m1, h1, a1)) as [[[m2 h2] a2] log|f].
      * destruct IH as (-> & Hinv2 & Hr). split; [done|]. split; [done|].
        by econstructor.
      * destruct IH as [Hsite Hno]. split; [done|]. intros allocs' Hr.
        inversion Hr as [|? open1 ? ? ? Hs1' Hr']; subst.
        pose proof (replay_step_det _ _ _ _ Hs1 Hs1') as <-. by eapply Hno.
    + simpl. destruct Hstep as [Hsite Hno]. split; [done|]. intros allocs' Hr.
      inversion Hr as [|? open1 ? ? ? Hs1' Hr']; subst. by eapply Hno.
Qed.

Lemma for_each_assert_cases {A : Type} (site : string) (cond : A → bool) (l : list A) :
  match for_each (λ x : A, TORCH_INTERNAL_ASSERT site (cond x)) l with
  | Done _ log => log = [] ∧ Forall (λ x, cond x = true) l
  | Fatal f => f = InternalAssert site ∧ ¬ Forall (λ x, cond x = true) l
  end.
Proof.
  induction l as [|x l IH]; cbn [for_each]; [done|].
  destruct (cond x) eqn:Hc.
  - rewrite assert_true, M_bind_Done.
    destruct (for_each _ l) as [u log|f].
    + destruct IH as [-> IH]. split; [done|]. by constructor.
    + destruct IH as [-> IH]. split; [done|]. by intros [_ ?]%Forall_cons.
  - rewrite assert_false. simpl. split; [done|]. intros [? _]%Forall_cons. congruence.
Qed.

Lemma checkLeakedAlloc_cases (graph : Graph) (alloc : MemEvent) :
  ev_type alloc = Allocate ∧ is_Some (ev_frame_node_id alloc) →
  match checkLeakedAlloc graph alloc with
  | Done _ log => log = [] ∧ leak_tolerated graph alloc
  | Fatal f => (∃ site, f = InternalAssert site) ∧ ¬ leak_tolerated graph alloc
  end.
Proof.
  intros [Ht [fid Hf]]. unfold checkLeakedAlloc.
  rewrite (bool_decide_eq_true_2 (ev_type alloc = Allocate)) by done.
  rewrite (bool_decide_eq_true_2 (is_Some (ev_frame_node_id alloc))) by (by eexists).
  cbn [andb]. rewrite assert_true, M_bind_Done, Hf.
  destruct (outputs_of graph (node fid)) as [|out outs] eqn:Ho.
  - simpl. split; [done|]. exists fid. by rewrite Ho.
  - replace (0 <? length (out :: outs))%nat with true by (simpl; done).
    pose proof (for_each_assert_cases "g_outputs.count(out) > 0"
                  (λ o : Value, bool_decide (o ∈ graph_outputs graph)) (out :: outs)) as Hc.
    destruct (for_each _ (out :: outs)) as [u log|f].
    + destruct Hc as [-> Hall]. split; [done|]. exists fid. split; [done|]. rewrite Ho.
      eapply Forall_impl; [exact Hall|]. intros o Hb. simpl in Hb.
      by apply bool_decide_eq_true in Hb.
    + destruct Hc as [-> Hno]. split; [by eexists|]. intros (fid' & Hf' & Hall).
      rewrite Hf in Hf'. injection Hf' as <-. rewrite Ho in Hall. apply Hno.
      eapply Forall_impl; [exact Hall|]. intros o Hin. simpl.
      by apply bool_decide_eq_true.
Qed.

Lemma leak_check_cases (graph : Graph) (l : list MemEvent) :
  Forall (λ a, ev_type a = Allocate ∧ is_Some (ev_frame_node_id a)) l →
  match for_each (checkLeakedAlloc graph) l with
  | Done _ log => log = [] ∧ Forall (leak_tolerated graph) l
  | Fatal f => (∃ site, f = InternalAssert site) ∧ ¬ Forall (leak_tolerated graph) l
  end.
Proof.
  induction 1 as [|a l Ha _ IH]; cbn [for_each]; [done|].
  pose proof (checkLeakedAlloc_cases graph a Ha) as Hc.
  destruct (checkLeakedAlloc graph a) as [u log|f].
  - destruct Hc as [-> Hc]. rewrite M_bind_Done.
    destruct (for_each (checkLeakedAlloc graph) l) as [u' log|f].
    + destruct IH as [-> IH]. split; [done|]. by constructor.
    + destruct IH as [Hsite IH]. split; [done|]. by intros [_ ?]%Forall_cons.
  - simpl. destruct Hc as [Hsite Hc]. split; [done|]. by intros [? _]%Forall_cons.
Qed.

Lemma map_Forall_values {V : Type} (P : V → Prop) (m : gmap string V) :
  map_Forall (λ (_ : string) (v : V), P v) m ↔ Forall P (map_to_list m).*2.
Proof.
  rewrite map_Forall_to_list, Forall_fmap. apply Forall_proper; [|done].
  by intros [k v].
Qed.

Lemma getManagedLiveRangesFromMemEvents_cases (mem_events : list MemEvent) (graph : Graph) :
  match getManagedLiveRangesFromMemEvents mem_events graph with
  | Done _ log => log = [] ∧ trace_accepted graph mem_events
  | Fatal f => (∃ site, f = InternalAssert site) ∧ ¬ trace_accepted graph mem_events
  end.
Proof.
  unfold getManagedLiveRangesFromMemEvents.
  pose proof (sweep_cases mem_events ∅ [] ∅ (map_Forall_empty _)) as Hsw.
  destruct (foldM replayMemEvent mem_events _) as [[[m h] allocs] log|f].
  - destruct Hsw as (-> & Hinv & Hr). rewrite M_bind_Done.
    case_bool_decide as He; simpl.
    + subst allocs. split; [done|].
      exists ∅. split; [done|]. apply map_Forall_empty.
    + pose proof (leak_check_cases graph (map_to_list allocs).*2
                    (proj1 (map_Forall_values _ _) Hinv)) as Hc.
      destruct (for_each (checkLeakedAlloc graph) _) as [u log|f].
      * destruct Hc as [-> Hall]. rewrite M_bind_Done, M_ret_Done. split; [done|].
        exists allocs. split; [done|]. by apply map_Forall_values.
      * simpl. destruct Hc as [Hsite Hno]. split; [done|].
        intros (open & Hr' & Hall). pose proof (replay_det _ _ _ _ Hr Hr') as <-.
        by apply Hno, map_Forall_values.
  - simpl. destruct Hsw as [Hsite Hno]. split; [done|].
    intros (open & Hr' & _). by eapply Hno.
Qed.

Lemma replay_app_inv (open open' : gmap string MemEvent) (es1 es2 : list MemEvent) :
  replay open (es1 ++ es2) open' →
  ∃ open1, replay open es1 open1 ∧ replay open1 es2 open'.
Proof.
  revert open. induction es1 as [|e es1 IH]; intros open Hr; simpl in Hr.
  - exists open. split; [constructor|done].
  - inversion Hr as [|? o1 ? ? ? Hs Hr']; subst.
    destruct (IH _ Hr') as (o2 & H1 & H2). exists o2. split; [|done]. by econstructor.
Qed.

(** Whatever is pending after a replay was pending before it or is an
    [Allocate] event of the trace, filed under its own pointer key. *)
Lemma replay_pending_origin (open open' : gmap string MemEvent) (es : list MemEvent) :
  replay open es open' →
  ∀ k a, open' !! k = Some a →
         open !! k = Some a ∨ (a ∈ es ∧ ev_ptr_addr a = k ∧ ev_type a = Allocate).
Proof.
  induction 1 as [|open open1 open2 e es Hs _ IH]; intros k a Hk; [by left|].
  destruct (IH k a Hk) as [Hin|(Hin & Hptr & Hty)].
  - destruct Hs as [fid Hty Hfid| |a' Hty Hl Hsz Htm].
    + unfold um_insert in Hin. destruct (open !! ev_ptr_addr e) eqn:Ho; [by left|].
      apply lookup_insert_Some in Hin as [[<- <-]|[_ Hin]]; [|by left].
      right. split; [apply elem_of_cons; by left|done].
    + by left.
    + apply lookup_delete_Some in Hin as [_ Hin]. by left.
  - right. split; [apply elem_of_cons; by right|done].
Qed.

Lemma free_pairs_with_earlier_allocate (es1 es2 : list MemEvent) (f : MemEvent)
    (open : gmap string MemEvent) :
  replay ∅ (es1 ++ f :: es2) open → ev_type f = Free →
  ∃ a, a ∈ es1 ∧ ev_type a = Allocate ∧ ev_ptr_addr a = ev_ptr_addr f ∧
       ev_size a = ev_size f ∧ ev_time a < ev_time f.
Proof.
  intros Hr Hty. apply replay_app_inv in Hr as (o1 & Hr1 & Hr2).
  inversion Hr2 as [|? o2 ? ? ? Hs _]; subst.
  destruct Hs as [fid Hty'| Hty' |a Hty' Hl Hsz Htm]; [congruence|congruence|].
  destruct (replay_pending_origin _ _ _ Hr1 _ _ Hl) as [He|(Hin & Hptr & Hta)].
  - by rewrite lookup_empty in He.
  - by exists a.
Qed.

(** C6: the replay returns exactly on the traces in which every [Free]
    finds, under its pointer key, a pending [Allocate] of equal size and
    strictly earlier time (which it closes), every [Allocate] without a frame
    node id carries time 0, and every [Allocate] still pending at the end
    comes from a node all of whose outputs are graph outputs; on every other
    trace an internal assertion fails.  On a trace that is accepted, every
    [Free] is preceded by an [Allocate] with its pointer key and size and a
    strictly smaller time. *)
Theorem trace_replay_contract (mem_events : list MemEvent) (graph : Graph) :
  (trace_accepted graph mem_events ↔
   ∃ r, getManagedLiveRangesFromMemEvents mem_events graph = Done r [])
  ∧ (¬ trace_accepted graph mem_events ↔
     ∃ site, getManagedLiveRangesFromMemEvents mem_events graph = Fatal (InternalAssert site))
  ∧ (∀ r log es1 f es2,
       getManagedLiveRangesFromMemEvents mem_events graph = Done r log →
       mem_events = es1 ++ f :: es2 → ev_type f = Free →
       ∃ a, a ∈ es1 ∧ ev_type a = Allocate ∧ ev_ptr_addr a = ev_ptr_addr f ∧
            ev_size a = ev_size f ∧ ev_time a < ev_time f).
Proof.
  pose proof (getManagedLiveRangesFromMemEvents_cases mem_events graph) as Hc.
  destruct (getManagedLiveRangesFromMemEvents mem_events graph) as [r log|f].
  - destruct Hc as [-> Hacc]. split; [split|split; [split|]].
    + intros _. by exists r.
    + done.
    + done.
    + by intros [site ?].
    + intros _ _ es1 f es2 _ -> Hty. destruct Hacc as (open & Hr & _).
      by eapply free_pairs_with_earlier_allocate.
  - destruct Hc as [[site ->] Hno]. split; [split|split; [split|]].
    + done.
    + by intros [r ?].
    + intros _. by exists site.
    + done.
    + done.
Qed.

(** ** Examples of replayed traces *)

Example example_trace_replayed :
  getManagedLiveRangesFromMemEvents example_trace example_graph
  = Done ({[ mkLiveRange 1 3 := 32; mkLiveRange 2 5 := 32; mkLiveRange 4 6 := 32 ]},
          [(mkLiveRange 1 3, example_frame); (mkLiveRange 2 5, example_frame);
           (mkLiveRange 4 6, example_frame)]) [].
Proof. vm_compute. reflexivity. Qed.

Example orphan_free_rejected :
  getManagedLiveRangesFromMemEvents [mkMemEvent 3 "" "a" 32 Free None] example_graph
  = Fatal (InternalAssert "allocs.count(mem_event.ptr_addr) > 0").
Proof. vm_compute. reflexivity. Qed.

Example size_mismatch_rejected :
  getManagedLiveRangesFromMemEvents
    [mkMemEvent 1 "" "a" 32 Allocate (Some example_frame); mkMemEvent 3 "" "a" 64 Free None]
    example_graph
  = Fatal (InternalAssert "alloc.size == mem_event.size").
Proof. vm_compute. reflexivity. Qed.

Example free_not_later_rejected :
  getManagedLiveRangesFromMemEvents
    [mkMemEvent 3 "" "a" 32 Allocate (Some example_frame); mkMemEvent 3 "" "a" 32 Free None]
    example_graph
  = Fatal (InternalAssert "alloc.time < mem_event.time").
Proof. vm_compute. reflexivity. Qed.

Example late_unframed_allocate_rejected :
  getManagedLiveRangesFromMemEvents [mkMemEvent 1 "" "a" 32 Allocate None] example_graph
  = Fatal (InternalAssert "mem_event.time == 0").
Proof. vm_compute. reflexivity. Qed.

Example leak_of_graph_output_tolerated :
  getManagedLiveRangesFromMemEvents
    [mkMemEvent 1 "" "a" 32 Allocate (Some example_frame)] example_graph
  = Done (∅, []) [].
Proof. vm_compute. reflexivity. Qed.

Example leak_of_other_value_rejected :
  getManagedLiveRangesFromMemEvents
    [mkMemEvent 1 "" "a" 32 Allocate (Some example_frame)]
    (mkGraph (store example_graph) (schedule example_graph) []
             (values example_graph) (next_pointer example_graph))
  = Fatal (InternalAssert "g_outputs.count(out) > 0").
Proof. vm_compute. reflexivity. Qed.

(** ** Lookups in an ordered map after an insertion *)

Lemma sorted_keys_NoDup {V : Type} (m : LiveRangeMap.t V) :
  StronglySorted entry_lt m → NoDup m.*1.
Proof.
  induction 1 as [|[k v] m Hs IH Hall]; simpl; constructor; [|done].
  intros ([k' v'] & Hk & Hin)%list_elem_of_fmap. simpl in Hk. subst k'.
  rewrite Forall_forall in Hall. exact (key_lt_irrefl k (Hall _ Hin)).
Qed.

Lemma find_Some_elem_of {V : Type} (k : LiveRange) (x : V) (m : LiveRangeMap.t V) :
  LiveRangeMap.find k m = Some x → (k, x) ∈ m.
Proof.
  induction m as [|[k' v'] m IH]; simpl; [done|].
  destruct (live_range_start_cmp k k') eqn:H1; [done|].
  destruct (live_range_start_cmp k' k) eqn:H2.
  - intros H. apply elem_of_cons. right. by apply IH.
  - intros [= <-]. apply key_lt_false in H1, H2.
    rewrite (key_lt_total _ _ H1 H2). apply elem_of_cons. by left.
Qed.

Lemma find_insert {V : Type} (r k : LiveRange) (v : V) (m : LiveRangeMap.t V) :
  StronglySorted entry_lt m →
  LiveRangeMap.find r (LiveRangeMap.insert k v m)
  = if decide (k = r)
    then Some (default v (LiveRangeMap.find k m))
    else LiveRangeMap.find r m.
Proof.
  intros Hs. destruct (decide (k ∈ m.*1)) as [Hin|Hnin].
  - rewrite (insert_present k v m Hs Hin).
    destruct (decide (k = r)) as [<-|Hne]; [|done].
    apply list_elem_of_fmap in Hin as ([k' x] & Hk & Hin). simpl in Hk. subst k'.
    by rewrite (find_insert_present k v m x Hs Hin).
  - pose proof (insert_fresh k v m Hnin) as Hp.
    pose proof (insert_sorted k v m Hs) as Hs'.
    destruct (decide (k = r)) as [<-|Hne].
    + rewrite (find_None k m Hnin). simpl.
      apply (find_insert_present k v). { done. } rewrite Hp. apply elem_of_cons. by left.
    + destruct (LiveRangeMap.find r m) as [x|] eqn:Hf.
      * apply find_Some_elem_of in Hf.
        apply (find_insert_present r v). { done. } rewrite Hp. apply elem_of_cons. by right.
      * apply find_None. rewrite Hp. simpl. intros [->|Hin]%elem_of_cons; [done|].
        apply list_elem_of_fmap in Hin as ([k' x] & Hk & Hin). simpl in Hk. subst k'.
        by rewrite (find_insert_present r v m x Hs Hin) in Hf.
Qed.

Lemma holder_app (r : LiveRange) (l1 l2 : list (Value * LiveRange)) :
  holder r (l1 ++ l2)
  = match holder r l1 with Some v => Some v | None => holder r l2 end.
Proof.
  induction l1 as [|[v r'] l1 IH]; simpl; [done|]. by destruct (decide (r' = r)).
Qed.

(** ** The range-to-value record of [planMemory] *)

Lemma recordRangeValue_cases (m : LiveRangeMap.t Value) (item : Value * LiveRange) :
  recordRangeValue m item
  = Done (LiveRangeMap.insert item.2 item.1 m)
         (match LiveRangeMap.find item.2 m with
          | Some existing => [WarnOverlappingLiveRanges item.1 existing]
          | None => []
          end).
Proof.
  unfold recordRangeValue, LiveRangeMap.count, LiveRangeMap.at_.
  by destruct (LiveRangeMap.find item.2 m).
Qed.

Lemma rangeValues_from (seen entries : list (Value * LiveRange)) (m : LiveRangeMap.t Value) :
  StronglySorted entry_lt m →
  (∀ r, LiveRangeMap.find r m = holder r seen) →
  ∃ m', foldM recordRangeValue entries m = Done m' (overlap_warnings seen entries) ∧
        ∀ r, LiveRangeMap.find r m' = holder r (seen ++ entries).
Proof.
  revert seen m. induction entries as [|[v r0] entries IH]; intros seen m Hs Hm; cbn [foldM].
  - exists m. split; [done|]. intros r. by rewrite app_nil_r.
  - rewrite recordRangeValue_cases. simpl.
    destruct (IH (seen ++ [(v, r0)]) (LiveRangeMap.insert r0 v m)) as (m' & Hrun & Hfind).
    + by apply insert_sorted.
    + intros r. rewrite find_insert by done. rewrite holder_app, !Hm. simpl.
      destruct (decide (r0 = r)) as [<-|Hne].
      * by destruct (holder r0 seen).
      * by destruct (holder r seen).
    + exists m'. rewrite Hrun. rewrite Hm. split.
      * unfold mbind, M_bind. done.
      * intros r. rewrite Hfind. by rewrite <- app_assoc.
Qed.

(** C7 (as the code has it): whatever the order in which the managed values
    come, the loop never fails; it warns for every value whose live range is
    already on record, and the record keeps the value that came first for
    each range: [std::map::insert] does not replace. *)
Theorem rangeValues_first_wins (entries : list (Value * LiveRange)) :
  ∃ managed_range_values,
    rangeValues entries = Done managed_range_values (overlap_warnings [] entries) ∧
    ∀ r, LiveRangeMap.find r managed_range_values = holder r entries.
Proof.
  unfold rangeValues. apply (rangeValues_from [] entries []); [constructor|done].
Qed.

(** C7 (as the spec has it) fails: of two values with the live range
    [[0,5]], the one met first, not the later one, is on record. *)
Lemma later_value_does_not_win :
  let r := mkLiveRange 0 5 in
  let earlier : Value := 7%positive in
  let later : Value := 9%positive in
  rangeValues [(earlier, r); (later, r)]
  = Done [(r, earlier)] [WarnOverlappingLiveRanges later earlier]
  ∧ LiveRangeMap.find r [(r, earlier)] ≠ Some later.
Proof. split; [reflexivity | discriminate]. Qed.

(** A whole run of [planMemory] on two values with one live range: the
    iteration meets [%5] first; a warning is logged for [%3]; planning goes
    on, and the producer of [%5] alone receives an allocation. *)
Example planMemory_shared_range :
  ∃ graph',
    planMemory shared_range_ext shared_range_graph NAIVE
    = Done (graph', [mkMemAllocation (mkLiveRange 0 5) (mkMemRegion 0 64)])
           [WarnOverlappingLiveRanges 3%positive 5%positive]
    ∧ schedule graph' = [6%positive; 1%positive; 8%positive; 4%positive]
    ∧ kind_of graph' 8%positive = prim_AllocateTensor
    ∧ (node_inputs <$> store graph' !! 4%positive) = Some [2%positive; 9%positive]
    ∧ (node_inputs <$> store graph' !! 1%positive) = Some [2%positive].
Proof. eexists. split; [vm_compute; reflexivity|]. repeat split. Qed.

(** ** Strategies the entry points do not know *)

Lemma foldM_total {A S : Type} (body : S → A → M S) (l : list A) (s : S) :
  (∀ s x, ∃ s' log, body s x = Done s' log) →
  ∃ s' log, foldM body l s = Done s' log.
Proof.
  intros Hbody. revert s. induction l as [|x l IH]; intros s; cbn [foldM].
  - by eexists _, _.
  - destruct (Hbody s x) as (s1 & log1 & ->). destruct (IH s1) as (s2 & log2 & Heq).
    unfold mbind, M_bind. rewrite Heq. by eexists _, _.
Qed.

Lemma computeStorageSize_total (ext : Collaborators) (graph : Graph) (v : Value) :
  ∃ r log, computeStorageSize ext graph v = Done r log.
Proof.
  unfold computeStorageSize.
  destruct (type_of graph v) as [ttp|]; [|by eexists _, _].
  destruct (scalarType ttp), (concrete_sizes ttp); try by eexists _, _.
  destruct (numel ttp); by eexists _, _.
Qed.

Lemma manageOutput_total (ext : Collaborators) (graph : Graph) (alive : gset Value)
    (has_out : gmap NodeRef bool) (n : NodeRef) (st : ManagedState) (out_v : Value) :
  ∃ st' log, manageOutput ext graph alive has_out n st out_v = Done st' log.
Proof.
  unfold manageOutput. destruct st as [[out_nodes managed] leaked].
  case_bool_decide; [by eexists _, _|].
  destruct (computeStorageSize_total ext graph out_v) as (r & log & ->).
  unfold mbind, M_bind. cbv beta iota.
  destruct r as [s|].
  - destruct (0 <? s); [by eexists _, _|].
    destruct (isOptimizableContainerType ext graph n has_out); by eexists _, _.
  - destruct (isOptimizableContainerType ext graph n has_out); by eexists _, _.
Qed.

Lemma getManagedValues_total (ext : Collaborators) (graph : Graph) (alive : gset Value) :
  ∃ r log, getManagedValues ext graph alive = Done r log.
Proof.
  unfold getManagedValues.
  match goal with |- context [foldM ?body ?l ?s] =>
    destruct (foldM_total body l s) as (st & log & ->) end.
  - intros [[out_nodes managed] leaked] n.
    destruct (negb _); [by eexists _, _|].
    apply foldM_total. intros st x. apply manageOutput_total.
  - by eexists _, _.
Qed.

Lemma getManagedStuff_total (ext : Collaborators) (graph : Graph) :
  ∃ stuff log, getManagedStuff ext graph = Done stuff log.
Proof.
  unfold getManagedStuff.
  destruct (getManagedValues_total ext graph (GetAlwaysAliveValues ext graph))
    as ([out_nodes managed] & log & ->).
  by eexists _, _.
Qed.

(** C9: with a strategy value that is none of the six, [planMemory] returns
    after collecting the managed values: the plan is empty and the graph is
    the one it was given, no node inserted. *)
Theorem planMemory_unknown_strategy (ext : Collaborators) (graph : Graph) (strat : Strategy) :
  ¬ (NAIVE <= strat <= GREEDY_BY_BREADTH) →
  ∃ stuff log,
    getManagedStuff ext graph = Done stuff log ∧
    planMemory ext graph strat = Done (graph, []) log.
Proof.
  intros Hs. unfold NAIVE, GREEDY_BY_BREADTH in Hs.
  destruct (getManagedStuff_total ext graph) as ([[out_nodes sizes] ranges] & log & Hstuff).
  exists (out_nodes, sizes, ranges), log. split; [done|].
  unfold planMemory. rewrite Hstuff.
  unfold NAIVE, LINEAR_SCAN, GREEDY_BY_SIZE, GREEDY_BY_SIZE_WITH_FIRST_GAP,
    GREEDY_BY_LONGEST_AND_SIZE, GREEDY_BY_BREADTH.
  replace (strat =? 0) with false by lia. replace (strat =? 1) with false by lia.
  replace (strat =? 2) with false by lia. replace (strat =? 3) with false by lia.
  replace (strat =? 4) with false by lia. replace (strat =? 5) with false by lia.
  unfold mbind, M_bind. simpl.
  destruct (rangeSizes sizes ranges) as [mlr mvr]. by rewrite M_ret_Done, app_nil_r.
Qed.

Lemma planMemory_unknown_strategy_witness :
  ¬ (NAIVE <= 42 <= GREEDY_BY_BREADTH) ∧
  ∃ stuff log,
    getManagedStuff example_ext example_graph = Done stuff log ∧
    planMemory example_ext example_graph 42 = Done (example_graph, []) log.
Proof.
  assert (H : ¬ (NAIVE <= 42 <= GREEDY_BY_BREADTH)) by (unfold NAIVE, GREEDY_BY_BREADTH; lia).
  split; [exact H|]. exact (planMemory_unknown_strategy example_ext example_graph 42 H).
Defined.

(** C8 (as the code has it): on a trace that replays, [planMemoryWithTracing]
    called with any strategy other than NAIVE, LINEAR_SCAN and GREEDY_BY_SIZE
    returns without a plan, without touching the graph and without telling
    the caller: no failure, no diagnostic. *)
Theorem planMemoryWithTracing_other_strategies (ext : Collaborators) (graph : Graph)
    (strat : Strategy) (mem_events : list MemEvent) (device_type : option Z) :
  strat ≠ NAIVE → strat ≠ LINEAR_SCAN → strat ≠ GREEDY_BY_SIZE →
  mem_events ≠ [] →
  trace_accepted graph mem_events →
  planMemoryWithTracing ext graph strat mem_events device_type = Done (graph, []) [].
Proof.
  intros H0 H1 H2 Hne Hacc. unfold planMemoryWithTracing.
  rewrite bool_decide_eq_false_2 by done. simpl negb. rewrite assert_true, M_bind_Done.
  pose proof (getManagedLiveRangesFromMemEvents_cases mem_events graph) as Hc.
  destruct (getManagedLiveRangesFromMemEvents mem_events graph) as [[m h] log|f];
    [destruct Hc as [-> _] | by destruct Hc as [_ []]].
  rewrite M_bind_Done.
  unfold NAIVE, LINEAR_SCAN, GREEDY_BY_SIZE in *.
  replace (strat =? 0) with false by lia. replace (strat =? 1) with false by lia.
  replace (strat =? 2) with false by lia. done.
Qed.

Lemma planMemoryWithTracing_other_strategies_witness :
  planMemoryWithTracing example_ext example_graph GREEDY_BY_SIZE_WITH_FIRST_GAP
    example_trace None
  = Done (example_graph, []) [].
Proof.
  apply planMemoryWithTracing_other_strategies; try discriminate.
  exists ∅. split; [|apply map_Forall_empty].
  unfold example_trace.
  eapply replay_cons; [by eapply step_allocate|].
  eapply replay_cons; [by eapply step_allocate|].
  eapply replay_cons; [by eapply (step_free _ _ (mkMemEvent 1 "" "a" 32 Allocate (Some example_frame)))|].
  eapply replay_cons; [by eapply step_allocate|].
  eapply replay_cons; [by eapply (step_free _ _ (mkMemEvent 2 "" "b" 32 Allocate (Some example_frame)))|].
  eapply replay_cons; [by eapply (step_free _ _ (mkMemEvent 4 "" "c" 32 Allocate (Some example_frame)))|].
  replace (delete _ _) with (∅ : gmap string MemEvent) by (vm_compute; reflexivity).
  constructor.
Defined.

(** C8 (as the spec has it) fails: asked for GREEDY_BY_BREADTH,
    GREEDY_BY_LONGEST_AND_SIZE or GREEDY_BY_SIZE_WITH_FIRST_GAP on a trace
    that replays, the trace-driven entry point returns normally with an empty
    log, so nothing is flagged. *)
Lemma unsupported_strategy_not_flagged :
  ¬ flagged (planMemoryWithTracing example_ext example_graph GREEDY_BY_BREADTH
               example_trace None)
  ∧ ¬ flagged (planMemoryWithTracing example_ext example_graph GREEDY_BY_LONGEST_AND_SIZE
                 example_trace None)
  ∧ ¬ flagged (planMemoryWithTracing example_ext example_graph GREEDY_BY_SIZE_WITH_FIRST_GAP
                 example_trace None).
Proof. repeat split; vm_compute; intros H; by apply H. Qed.

(** * Further properties of the geometry primitives and the validator *)

Lemma wrap_range (z : Z) : Int64.in_range (Int64.wrap z).
Proof.
  unfold Int64.in_range, Int64.wrap, Int64.min, Int64.max.
  pose proof (Z.mod_pos_bound (z + 2 ^ 63) (2 ^ 64)). lia.
Qed.

(** X1: on 64-bit operands, [valid_add a b] holds exactly when the sum
    [a + b] is representable as a signed 64-bit integer. *)
Theorem valid_add_exact (a b : Z) :
  Int64.in_range a → Int64.in_range b →
  (valid_add a b = true ↔ Int64.in_range (a + b)).
Proof.
  unfold Int64.in_range, valid_add, Int64.min, Int64.max. intros Ha Hb.
  destruct (b >? 0) eqn:H1, (a >? 2 ^ 63 - 1 - b) eqn:H2,
    (b <? 0) eqn:H3, (a <? - 2 ^ 63 - b) eqn:H4; simpl; split; intros H; try done; lia.
Qed.

Lemma valid_add_exact_witness :
  Int64.in_range (2 ^ 62) ∧ (valid_add (2 ^ 62) (2 ^ 62) = true ↔ Int64.in_range (2 ^ 62 + 2 ^ 62)).
Proof.
  assert (H : Int64.in_range (2 ^ 62)) by (unfold Int64.in_range, Int64.min, Int64.max; lia).
  split; [exact H|]. exact (valid_add_exact (2 ^ 62) (2 ^ 62) H H).
Defined.

(** X2: on 64-bit operands, [valid_sub a b] holds exactly when the
    difference [a - b] is representable as a signed 64-bit integer. *)
Theorem valid_sub_exact (a b : Z) :
  Int64.in_range a → Int64.in_range b →
  (valid_sub a b = true ↔ Int64.in_range (a - b)).
Proof.
  unfold Int64.in_range, valid_sub, Int64.min, Int64.max. intros Ha Hb.
  destruct (b <? 0) eqn:H1, (a >? 2 ^ 63 - 1 + b) eqn:H2,
    (b >? 0) eqn:H3, (a <? - 2 ^ 63 + b) eqn:H4; simpl; split; intros H; try done; lia.
Qed.

Lemma valid_sub_exact_witness :
  Int64.in_range (- 2 ^ 63) ∧ Int64.in_range 1 ∧
  (valid_sub (- 2 ^ 63) 1 = true ↔ Int64.in_range (- 2 ^ 63 - 1)).
Proof.
  assert (H1 : Int64.in_range (- 2 ^ 63)) by (unfold Int64.in_range, Int64.min, Int64.max; lia).
  assert (H2 : Int64.in_range 1) by (unfold Int64.in_range, Int64.min, Int64.max; lia).
  split; [exact H1|]. split; [exact H2|]. exact (valid_sub_exact (- 2 ^ 63) 1 H1 H2).
Defined.

Lemma valid_add_comm (x y : Z) :
  Int64.in_range x → Int64.in_range y → valid_add x y = valid_add y x.
Proof.
  unfold Int64.in_range, valid_add, Int64.min, Int64.max. intros Hx Hy.
  destruct (y >? 0) eqn:H1, (x >? 2 ^ 63 - 1 - y) eqn:H2,
    (y <? 0) eqn:H3, (x <? - 2 ^ 63 - y) eqn:H4,
    (x >? 0) eqn:H5, (y >? 2 ^ 63 - 1 - x) eqn:H6,
    (x <? 0) eqn:H7, (y <? - 2 ^ 63 - x) eqn:H8; simpl; try done; lia.
Qed.

Lemma intersectArea_sym (a b c d : Z) :
  a <= b → c <= d → intersectArea a b c d = intersectArea c d a b.
Proof.
  intros Hab Hcd. unfold intersectArea.
  replace (a <=? b) with true by lia. replace (c <=? d) with true by lia.
  rewrite !assert_true, !M_bind_Done.
  rewrite (Z.max_comm d b), (Z.min_comm c a).
  rewrite (valid_add_comm (Int64.sub d c) (Int64.sub b a)) by apply wrap_range.
  unfold Int64.add. by rewrite (Z.add_comm (Int64.sub d c) (Int64.sub b a)).
Qed.

(** X3: whether two allocations intersect does not depend on the order in
    which they are given, as long as both pass the assertions of
    [intersectArea]. *)
Theorem intersectAllocs_sym (m1 m2 : MemAllocation) :
  MemAllocation_wf m1 → MemAllocation_wf m2 →
  intersectAllocs m1 m2 = intersectAllocs m2 m1.
Proof.
  intros [H1 H1'] [H2 H2']. unfold intersectAllocs, intersectLiveRange, intersectMemRegion.
  rewrite (intersectArea_sym _ _ _ _ H1 H2).
  by rewrite (intersectArea_sym _ _ _ _ H1' H2').
Qed.

Lemma intersectAllocs_sym_witness :
  let m1 := mkMemAllocation (mkLiveRange 0 5) (mkMemRegion 0 (2 ^ 62)) in
  let m2 := mkMemAllocation (mkLiveRange 3 10) (mkMemRegion 64 (2 ^ 62)) in
  MemAllocation_wf m1 ∧ MemAllocation_wf m2 ∧ intersectAllocs m1 m2 = intersectAllocs m2 m1.
Proof.
  intros m1 m2.
  assert (H1 : MemAllocation_wf m1) by (split; vm_compute; congruence).
  assert (H2 : MemAllocation_wf m2) by (split; vm_compute; congruence).
  split; [exact H1|]. split; [exact H2|]. exact (intersectAllocs_sym m1 m2 H1 H2).
Defined.

(** X4: on live ranges with non-negative 64-bit endpoints,
    [intersectLiveRange] never fails and answers true exactly when the two
    closed intervals have a point in common. *)
Theorem intersectLiveRange_exact (lvr1 lvr2 : LiveRange) :
  0 <= lvr_begin lvr1 <= lvr_end lvr1 → lvr_end lvr1 <= Int64.max →
  0 <= lvr_begin lvr2 <= lvr_end lvr2 → lvr_end lvr2 <= Int64.max →
  ∃ t, intersectLiveRange lvr1 lvr2 = Done t [] ∧
       (t = true ↔ lvr_begin lvr1 <= lvr_end lvr2 ∧ lvr_begin lvr2 <= lvr_end lvr1).
Proof.
  intros H1 H1' H2 H2'. unfold intersectLiveRange.
  rewrite intersectArea_nonneg by done. rewrite M_bind_Done, M_ret_Done.
  eexists. split; [reflexivity|].
  assert (Hm : Int64.max = 2 ^ 63 - 1) by reflexivity.
  unfold area_result.
  repeat match goal with |- context [if ?g then _ else _] => destruct g eqn:? end;
    split; intros H; try done; lia.
Qed.

Lemma intersectLiveRange_exact_witness :
  ∃ t, intersectLiveRange (mkLiveRange 0 5) (mkLiveRange 6 10) = Done t [] ∧
       (t = true ↔ 0 <= 10 ∧ 6 <= 5).
Proof.
  apply (intersectLiveRange_exact (mkLiveRange 0 5) (mkLiveRange 6 10));
    simpl; unfold Int64.max; lia.
Defined.

(** ** The total size *)

Lemma fold_max_ge (f : MemAllocation → Z) (l : list MemAllocation) (t : Z) :
  t <= fold_left (λ (total_size : Z) (alloc : MemAllocation), Z.max total_size (f alloc)) l t
  ∧ Forall (λ a, f a <= fold_left (λ (total_size : Z) (alloc : MemAllocation),
                                     Z.max total_size (f alloc)) l t) l.
Proof.
  revert t. induction l as [|a l IH]; intros t; simpl; [split; [lia|constructor]|].
  destruct (IH (Z.max t (f a))) as [H1 H2]. split; [lia|].
  constructor; [lia|done].
Qed.

Lemma fold_max_attained (f : MemAllocation → Z) (l : list MemAllocation) (t : Z) :
  let r := fold_left (λ (total_size : Z) (alloc : MemAllocation),
                        Z.max total_size (f alloc)) l t in
  r = t ∨ ∃ a, a ∈ l ∧ r = f a.
Proof.
  revert t. induction l as [|a l IH]; intros t; cbn [fold_left]; [by left|].
  destruct (IH (Z.max t (f a))) as [H|(a' & Hin & H)]; cbv zeta in *.
  - rewrite H. destruct (Z.max_spec t (f a)) as [[_ Hm]|[_ Hm]]; rewrite Hm.
    + right. exists a. split; [apply elem_of_cons; by left|done].
    + by left.
  - right. exists a'. split; [apply elem_of_cons; by right|done].
Qed.

(** X5: the total allocation size is never negative, is at least the end
    [offset + size] (in 64-bit arithmetic) of every allocation, and is
    either 0 or the end of one of the allocations. *)
Theorem getTotalAllocationSize_bounds (allocations : list MemAllocation) :
  let region_end (a : MemAllocation) := Int64.add (reg_offset (reg a)) (reg_size (reg a)) in
  0 <= getTotalAllocationSize allocations
  ∧ (∀ a, a ∈ allocations → region_end a <= getTotalAllocationSize allocations)
  ∧ (getTotalAllocationSize allocations = 0
     ∨ ∃ a, a ∈ allocations ∧ getTotalAllocationSize allocations = region_end a).
Proof.
  intros region_end. unfold getTotalAllocationSize.
  destruct (fold_max_ge region_end allocations 0) as [H1 H2].
  split; [exact H1|]. split.
  - intros a Ha. rewrite Forall_forall in H2. by apply H2.
  - apply (fold_max_attained region_end allocations 0).
Qed.

(** ** The validator and the set of allocations *)

(** X6: a plan that the validator accepts is still accepted after
    allocations are dropped, repeated or reordered: the verdict "valid"
    carries over to every list made of allocations of the accepted one. *)
Theorem validateAllocations_subset (allocations allocations' : list MemAllocation) :
  (∀ a, a ∈ allocations' → a ∈ allocations) →
  validateAllocations allocations = Done true [] →
  validateAllocations allocations' = Done true [].
Proof.
  intros Hsub Hv. unfold validateAllocations in *.
  pose proof (validateFrom_cases allocations allocations) as Hc. rewrite Hv in Hc.
  destruct Hc as [_ Hc].
  pose proof (validateFrom_cases allocations' allocations') as Hc'.
  destruct (validateFrom allocations' allocations') as [[] log|e].
  - by destruct Hc' as [-> _].
  - destruct Hc' as (a & b & _ & Ha & Hb & Hne & Hab).
    rewrite (Hc a b (Hsub a Ha) (Hsub b Hb) Hne) in Hab. done.
  - destruct Hc' as (a & b & Ha & Hb & Hne & Hf).
    rewrite (Hc a b (Hsub a Ha) (Hsub b Hb) Hne) in Hf. done.
Qed.

Lemma validateAllocations_subset_witness :
  let a := mkMemAllocation (mkLiveRange 0 5) (mkMemRegion 0 64) in
  let b := mkMemAllocation (mkLiveRange 3 8) (mkMemRegion 64 64) in
  validateAllocations [b; a; b] = Done true [].
Proof.
  intros a b. apply (validateAllocations_subset [a; b]).
  - intros x Hx. rewrite !elem_of_cons in Hx. rewrite !elem_of_cons.
    destruct Hx as [->|[->|[->|Hx]]]; auto; by apply elem_of_nil in Hx.
  - vm_compute. reflexivity.
Defined.

(** * Further properties of the NAIVE strategy *)

Lemma naive_sorted_items (managed_live_ranges : gmap LiveRange Z) :
  map_Forall (λ _ (s : Z), 0 <= s) managed_live_ranges →
  sum_aligned (map_to_list managed_live_ranges) <= Int64.max →
  let sorted := LiveRangeMap.of_list (map_to_list managed_live_ranges) in
  sorted ≡ₚ map_to_list managed_live_ranges ∧
  Forall (λ item : LiveRange * Z, 0 <= item.2) sorted ∧
  0 + sum_aligned sorted <= Int64.max.
Proof.
  intros Hpos Hmax sorted.
  destruct (of_list_sorted_perm (map_to_list managed_live_ranges)) as [Hperm _].
  { apply NoDup_fst_map_to_list. }
  fold sorted in Hperm. split; [done|]. split.
  - apply Forall_forall. intros [k s] Hin. rewrite Hperm in Hin.
    apply elem_of_map_to_list in Hin. exact (Hpos k s Hin).
  - rewrite (sum_aligned_perm _ _ Hperm). lia.
Qed.

Lemma sum_aligned_app (l1 l2 : list (LiveRange * Z)) :
  sum_aligned (l1 ++ l2) = sum_aligned l1 + sum_aligned l2.
Proof. unfold sum_aligned. by rewrite !fmap_app, sumZ_app. Qed.

Lemma sum_aligned_take_le (items : list (LiveRange * Z)) (i : nat) :
  Forall (λ item : LiveRange * Z, 0 <= item.2) items →
  0 <= sum_aligned (take i items) <= sum_aligned items.
Proof.
  intros Hpos. rewrite <- (take_drop i items) at 3. rewrite sum_aligned_app.
  pose proof (sum_aligned_nonneg (take i items) (Forall_take _ _ _ Hpos)).
  pose proof (sum_aligned_nonneg (drop i items) (Forall_drop _ _ _ Hpos)). lia.
Qed.

Lemma sum_aligned_take_lt (items : list (LiveRange * Z)) (i j : nat) (item : LiveRange * Z) :
  Forall (λ item : LiveRange * Z, 0 <= item.2) items →
  (i < j)%nat → items !! i = Some item →
  sum_aligned (take i items) + computeAlignedTensorSize item.2 <= sum_aligned (take j items).
Proof.
  intros Hpos Hij Hi.
  assert (Hsplit : take j items = take i items ++ item :: take (j - S i) (drop (S i) items)).
  { rewrite <- (take_drop_middle items i item Hi) at 1.
    rewrite take_app_ge by (rewrite length_take; lia).
    f_equal. rewrite length_take_le by (apply lookup_lt_Some in Hi; lia).
    replace (j - i)%nat with (S (j - S i)) by lia. done. }
  rewrite Hsplit, sum_aligned_app, sum_aligned_cons.
  pose proof (sum_aligned_nonneg (take (j - S i) (drop (S i) items))
                (Forall_take _ _ _ (Forall_drop _ _ _ Hpos))). lia.
Qed.

Lemma naive_offsets_increase (managed_live_ranges : gmap LiveRange Z)
    (i j : nat) (a b : MemAllocation) :
  map_Forall (λ _ (s : Z), 0 <= s) managed_live_ranges →
  sum_aligned (map_to_list managed_live_ranges) <= Int64.max →
  (i < j)%nat → naive managed_live_ranges !! i = Some a →
  naive managed_live_ranges !! j = Some b →
  reg_offset (reg a) + reg_size (reg a) <= reg_offset (reg b).
Proof.
  intros Hpos Hmax Hij. destruct (naive_sorted_items _ Hpos Hmax) as (Hperm & Hpos' & Hmax').
  unfold naive. cbv zeta.
  set (sorted := LiveRangeMap.of_list (map_to_list managed_live_ranges)) in *.
  intros Ha Hb.
  apply naive_loop_lookup in Ha as (ia & Hia & _ & Hsa & Hoa); [|lia|done|done].
  apply naive_loop_lookup in Hb as (ib & Hib & _ & _ & Hob); [|lia|done|done].
  rewrite Hoa, Hsa, Hob.
  pose proof (sum_aligned_take_lt sorted i j ia Hpos' Hij Hia). lia.
Qed.

Lemma naive_region_bounds (managed_live_ranges : gmap LiveRange Z) (a : MemAllocation) :
  map_Forall (λ _ (s : Z), 0 <= s) managed_live_ranges →
  sum_aligned (map_to_list managed_live_ranges) <= Int64.max →
  a ∈ naive managed_live_ranges →
  0 <= reg_offset (reg a) ∧ 0 <= reg_size (reg a) ∧
  reg_offset (reg a) + reg_size (reg a)
  <= getTotalAllocationSize (naive managed_live_ranges).
Proof.
  intros Hpos Hmax. destruct (naive_sorted_items _ Hpos Hmax) as (Hperm & Hpos' & Hmax').
  unfold naive. cbv zeta.
  set (sorted := LiveRangeMap.of_list (map_to_list managed_live_ranges)) in *.
  intros [i Ha]%list_elem_of_lookup.
  apply naive_loop_lookup in Ha as (ia & Hia & _ & Hsa & Hoa); [|lia|done|done].
  unfold getTotalAllocationSize. rewrite naive_loop_total by (done || lia).
  rewrite Hoa, Hsa.
  pose proof (sum_aligned_take_le sorted i Hpos') as Hle.
  assert (Hitem : 0 <= ia.2).
  { rewrite Forall_forall in Hpos'. apply Hpos'. by eapply list_elem_of_lookup_2. }
  pose proof (computeAlignedTensorSize_nonneg _ Hitem).
  assert (Hend : sum_aligned (take i sorted) + computeAlignedTensorSize ia.2
                 <= sum_aligned sorted).
  { pose proof (sum_aligned_take_lt sorted i (length sorted) ia Hpos') as Hlt.
    rewrite firstn_all in Hlt. apply Hlt; [|done]. by apply lookup_lt_Some in Hia. }
  lia.
Qed.

(** X7: NAIVE never reuses memory.  For non-negative sizes whose aligned sum
    fits in 64 bits, every region starts at a non-negative offset, a region
    listed earlier ends before a later one starts, and every region ends
    within the total allocation size. *)
Theorem naive_regions_disjoint (managed_live_ranges : gmap LiveRange Z) :
  map_Forall (λ _ (s : Z), 0 <= s) managed_live_ranges →
  sum_aligned (map_to_list managed_live_ranges) <= Int64.max →
  let allocations := naive managed_live_ranges in
  (∀ (i j : nat) (a b : MemAllocation),
     (i < j)%nat → allocations !! i = Some a → allocations !! j = Some b →
     reg_offset (reg a) + reg_size (reg a) <= reg_offset (reg b))
  ∧ (∀ a, a ∈ allocations →
       0 <= reg_offset (reg a) ∧ 0 <= reg_size (reg a) ∧
       reg_offset (reg a) + reg_size (reg a) <= getTotalAllocationSize allocations).
Proof.
  intros Hpos Hmax allocations. split.
  - intros i j a b Hij Ha Hb. by apply (naive_offsets_increase managed_live_ranges i j).
  - intros a Ha. by apply naive_region_bounds.
Qed.

Lemma naive_regions_disjoint_witness :
  let m : gmap LiveRange Z :=
    {[ mkLiveRange 1 3 := 100; mkLiveRange 0 2 := 10; mkLiveRange 2 4 := 10 ]} in
  let a := mkMemAllocation (mkLiveRange 1 3) (mkMemRegion 64 128) in
  0 <= reg_offset (reg a) ∧ 0 <= reg_size (reg a) ∧
  reg_offset (reg a) + reg_size (reg a) <= getTotalAllocationSize (naive m).
Proof.
  intros m a.
  assert (Hpos : map_Forall (λ _ (s : Z), 0 <= s) m).
  { apply map_Forall_to_list. vm_compute. repeat constructor; discriminate. }
  assert (Hmax : sum_aligned (map_to_list m) <= Int64.max) by (vm_compute; congruence).
  apply (proj2 (naive_regions_disjoint m Hpos Hmax) a).
  replace (naive m) with
    [mkMemAllocation (mkLiveRange 0 2) (mkMemRegion 0 64); a;
     mkMemAllocation (mkLiveRange 2 4) (mkMemRegion 192 64)] by (vm_compute; reflexivity).
  rewrite !elem_of_cons. auto.
Defined.

Lemma intersectMemRegion_nonneg (r1 r2 : MemRegion) :
  0 <= reg_offset r1 → 0 <= reg_size r1 → reg_offset r1 + reg_size r1 <= Int64.max →
  0 <= reg_offset r2 → 0 <= reg_size r2 → reg_offset r2 + reg_size r2 <= Int64.max →
  intersectMemRegion r1 r2 = Done (Int64.max <? reg_size r1 + reg_size r2) [].
Proof.
  intros Ho1 Hs1 Hm1 Ho2 Hs2 Hm2. unfold intersectMemRegion, Int64.add.
  assert (Hm : Int64.max = 2 ^ 63 - 1) by reflexivity.
  rewrite !wrap_in_range by (unfold Int64.in_range, Int64.min; lia).
  rewrite intersectArea_nonneg by lia. rewrite M_bind_Done, M_ret_Done.
  f_equal. unfold area_result.
  repeat match goal with |- context [if ?g then _ else _] => destruct g eqn:? end.
  all: lia.
Qed.

(** X8: the plan of NAIVE passes the validator: for live ranges with
    [begin <= end] and non-negative sizes whose aligned sum fits in 64 bits,
    [validateAllocations (naive m)] returns true and writes nothing. *)
Theorem naive_plan_valid (managed_live_ranges : gmap LiveRange Z) :
  map_Forall (λ (r : LiveRange) (s : Z), lvr_begin r <= lvr_end r ∧ 0 <= s)
             managed_live_ranges →
  sum_aligned (map_to_list managed_live_ranges) <= Int64.max →
  validateAllocations (naive managed_live_ranges) = Done true [].
Proof.
  intros Hwf Hmax.
  assert (Hpos : map_Forall (λ _ (s : Z), 0 <= s) managed_live_ranges).
  { intros r s Hr. by destruct (Hwf r s Hr). }
  pose proof (λ i j a b, naive_offsets_increase managed_live_ranges i j a b Hpos Hmax) as Hdisj.
  pose proof (λ a, naive_region_bounds managed_live_ranges a Hpos Hmax) as Hin.
  destruct (naive_sorted_items _ Hpos Hmax) as (Hperm & Hpos' & Hmax').
  set (allocations := naive managed_live_ranges) in *.
  assert (Htot : getTotalAllocationSize allocations <= Int64.max).
  { unfold allocations, naive, getTotalAllocationSize.
    rewrite naive_loop_total by (done || lia). lia. }
  assert (Hlvr : ∀ a, a ∈ allocations → lvr_begin (lvr a) <= lvr_end (lvr a)).
  { intros a Ha. assert (Hk : lvr a ∈ (map_to_list managed_live_ranges).*1).
    { rewrite <- Hperm. unfold allocations, naive in Ha.
      rewrite <- (naive_loop_lvr _ 0). apply list_elem_of_fmap. by exists a. }
    apply list_elem_of_fmap in Hk as ([r s] & -> & Hrs).
    apply elem_of_map_to_list in Hrs. by destruct (Hwf r s Hrs). }
  assert (Hpair : ∀ a b, a ∈ allocations → b ∈ allocations → a ≠ b →
                         intersectAllocs a b = Done false []).
  { intros a b Ha Hb Hne.
    destruct (Hin a Ha) as (Hoa & Hsa & Hea). destruct (Hin b Hb) as (Hob & Hsb & Heb).
    unfold intersectAllocs, intersectLiveRange.
    destruct (intersectArea_total _ _ _ _ (Hlvr a Ha) (Hlvr b Hb)) as [t ->].
    rewrite !M_bind_Done, !M_ret_Done, !M_bind_Done.
    destruct (t <=? 0); [|done].
    rewrite intersectMemRegion_nonneg by lia. do 2 f_equal.
    apply list_elem_of_lookup in Ha as [i Hi]. apply list_elem_of_lookup in Hb as [j Hj].
    destruct (Nat.lt_total i j) as [Hij|[->|Hji]].
    - pose proof (Hdisj i j a b Hij Hi Hj). lia.
    - congruence.
    - pose proof (Hdisj j i b a Hji Hj Hi). lia. }
  unfold validateAllocations.
  pose proof (validateFrom_cases allocations allocations) as Hc.
  destruct (validateFrom allocations allocations) as [[] log|e].
  - by destruct Hc as [-> _].
  - destruct Hc as (a & b & _ & Ha & Hb & Hne & Hab). by rewrite (Hpair a b Ha Hb Hne) in Hab.
  - destruct Hc as (a & b & Ha & Hb & Hne & Hf). by rewrite (Hpair a b Ha Hb Hne) in Hf.
Qed.

Lemma naive_plan_valid_witness :
  validateAllocations
    (naive {[ mkLiveRange 1 3 := 100; mkLiveRange 0 2 := 10; mkLiveRange 2 4 := 10 ]})
  = Done true [].
Proof.
  apply naive_plan_valid.
  - apply map_Forall_to_list. vm_compute. repeat constructor; discriminate.
  - vm_compute. congruence.
Defined.

(** * Further properties of the trace replay *)

Lemma paired_in_mono (seen : list MemEvent) (e : MemEvent) (r : LiveRange) (s : Z) :
  paired_in seen r s → paired_in (seen ++ [e]) r s.
Proof.
  intros (a & f & Ha & Hf & H). exists a, f.
  split; [apply elem_of_app; by left|]. split; [apply elem_of_app; by left|done].
Qed.

Lemma frees_snoc (seen : list MemEvent) (e : MemEvent) :
  frees (seen ++ [e]) = frees seen ++ (if decide (ev_type e = Free) then [e] else []).
Proof.
  unfold frees. rewrite filter_app. by f_equal.
Qed.

Lemma replayMemEvent_invariant (seen : list MemEvent) (st st' : TraceState)
    (e : MemEvent) (log : list Diag) :
  sweep_invariant seen st →
  replayMemEvent st e = Done st' log →
  sweep_invariant (seen ++ [e]) st'.
Proof.
  destruct st as [[managed header] allocs]. intros (Hal & Hm & Hh & Hlen). simpl in *.
  unfold replayMemEvent.
  destruct (ev_type e) eqn:Hty.
  - assert (Hkeep : ∀ st0 : TraceState, st0 = (managed, header, allocs) ∨
              (∃ fid, ev_frame_node_id e = Some fid ∧
                      st0 = (managed, header, um_insert (ev_ptr_addr e) e allocs)) →
              sweep_invariant (seen ++ [e]) st0).
    { intros st0 Hst0. repeat split; simpl.
      - destruct Hst0 as [->|(fid & Hfid & ->)]; simpl in H.
        + apply elem_of_app. left. by destruct (Hal k a H).
        + unfold um_insert in H. destruct (allocs !! ev_ptr_addr e) eqn:Ho.
          * apply elem_of_app. left. by destruct (Hal k a H).
          * apply lookup_insert_Some in H as [[<- <-]|[_ H]].
            -- apply elem_of_app. right. apply list_elem_of_singleton. done.
            -- apply elem_of_app. left. by destruct (Hal k a H).
      - destruct Hst0 as [->|(fid & Hfid & ->)]; simpl in H.
        + by destruct (Hal k a H) as (_ & ? & _).
        + unfold um_insert in H. destruct (allocs !! ev_ptr_addr e) eqn:Ho.
          * by destruct (Hal k a H) as (_ & ? & _).
          * apply lookup_insert_Some in H as [[<- <-]|[_ H]]; [done|].
            by destruct (Hal k a H) as (_ & ? & _).
      - destruct Hst0 as [->|(fid & Hfid & ->)]; simpl in H.
        + by destruct (Hal k a H) as (_ & _ & ?).
        + unfold um_insert in H. destruct (allocs !! ev_ptr_addr e) eqn:Ho.
          * by destruct (Hal k a H) as (_ & _ & ?).
          * apply lookup_insert_Some in H as [[<- <-]|[_ H]]; [done|].
            by destruct (Hal k a H) as (_ & _ & ?).
      - intros r s Hr. apply paired_in_mono, Hm.
        by destruct Hst0 as [->|(fid & Hfid & ->)].
      - destruct Hst0 as [->|(fid & Hfid & ->)]; apply Hh.
      - destruct Hst0 as [->|(fid & Hfid & ->)]; apply Hh.
      - rewrite frees_snoc, decide_False by congruence. rewrite app_nil_r.
        by destruct Hst0 as [->|(fid & Hfid & ->)]. }
    destruct (ev_frame_node_id e) as [fid|] eqn:Hfid.
    + intros [= <- _]. apply Hkeep. right. by exists fid.
    + destruct (ev_time e =? 0); [|by rewrite assert_false].
      rewrite assert_true, M_bind_Done. intros [= <- _]. apply Hkeep. by left.
  - destruct (allocs !! ev_ptr_addr e) as [a|] eqn:Hl.
    2:{ rewrite bool_decide_eq_false_2 by (intros [? ?]; done). done. }
    rewrite !(bool_decide_eq_true_2 (is_Some (Some a))) by (by eexists).
    rewrite !assert_true, !M_bind_Done.
    destruct (Hal _ _ Hl) as (Hain & Hta & Hpa).
    rewrite bool_decide_eq_true_2 by done. rewrite assert_true, M_bind_Done.
    destruct (ev_size a =? ev_size e) eqn:Hsz; [|by rewrite assert_false].
    rewrite assert_true, M_bind_Done.
    destruct (ev_time a <? ev_time e) eqn:Htm; [|by rewrite assert_false].
    rewrite assert_true, M_bind_Done.
    destruct (ev_frame_node_id a) as [fid|]; [|done].
    intros [= <- _].
    assert (Hpair : paired_in (seen ++ [e]) (mkLiveRange (ev_time a) (ev_time e)) (ev_size a)).
    { exists a, e. split; [apply elem_of_app; by left|].
      split; [apply elem_of_app; right; by apply list_elem_of_singleton|].
      repeat split; try done; lia. }
    repeat split; simpl in *.
    + apply lookup_delete_Some in H as [_ H]. apply elem_of_app. left. by destruct (Hal k a0 H).
    + apply lookup_delete_Some in H as [_ H]. by destruct (Hal k a0 H) as (_ & ? & _).
    + apply lookup_delete_Some in H as [_ H]. by destruct (Hal k a0 H) as (_ & _ & ?).
    + intros r s Hr. unfold um_insert in Hr.
      destruct (managed !! mkLiveRange (ev_time a) (ev_time e)) eqn:Ho.
      * by apply paired_in_mono, Hm.
      * apply lookup_insert_Some in Hr as [[<- <-]|[_ Hr]]; [done|].
        by apply paired_in_mono, Hm.
    + intros Hr. rewrite fmap_app, elem_of_app. simpl. unfold um_insert in Hr.
      destruct (managed !! mkLiveRange (ev_time a) (ev_time e)) eqn:Ho.
      * left. by apply Hh.
      * destruct (decide (mkLiveRange (ev_time a) (ev_time e) = r)) as [<-|Hne].
        -- right. by apply list_elem_of_singleton.
        -- left. apply Hh. by rewrite lookup_insert_ne in Hr.
    + rewrite fmap_app, elem_of_app. simpl. unfold um_insert.
      intros [Hr|Hr%list_elem_of_singleton].
      * apply Hh in Hr. destruct (managed !! mkLiveRange (ev_time a) (ev_time e)) eqn:Ho; [done|].
        destruct (decide (mkLiveRange (ev_time a) (ev_time e) = r)) as [<-|Hne].
        -- rewrite lookup_insert_eq. by eexists.
        -- by rewrite lookup_insert_ne.
      * subst r. destruct (managed !! mkLiveRange (ev_time a) (ev_time e)) eqn:Ho.
        -- rewrite Ho. by eexists.
        -- rewrite lookup_insert_eq. by eexists.
    + rewrite frees_snoc, decide_True by done. rewrite !length_app. simpl. lia.
Qed.

Lemma sweep_keeps_invariant (mem_events seen : list MemEvent) (st st' : TraceState)
    (log : list Diag) :
  sweep_invariant seen st →
  foldM replayMemEvent mem_events st = Done st' log →
  sweep_invariant (seen ++ mem_events) st'.
Proof.
  revert seen st log. induction mem_events as [|e es IH]; intros seen st log Hinv; cbn [foldM].
  - intros [= <- _]. by rewrite app_nil_r.
  - intros (st1 & l1 & l2 & Hstep & Hrest & _)%M_bind_Done_inv.
    replace (seen ++ e :: es) with ((seen ++ [e]) ++ es) by (by rewrite <- app_assoc).
    eapply IH; [|exact Hrest]. by eapply replayMemEvent_invariant.
Qed.

Lemma sweep_invariant_initial : sweep_invariant [] ((∅, [], ∅) : TraceState).
Proof.
  split; [|split; [|split]]; simpl.
  - intros k a H. by rewrite lookup_empty in H.
  - intros r s H. by rewrite lookup_empty in H.
  - intros r. split.
    + intros [? H]. by rewrite lookup_empty in H.
    + intros H. by apply elem_of_nil in H.
  - done.
Qed.

(** X9: when the replay of a trace returns, every managed live range is
    [[t_alloc, t_free]] for an [Allocate] and a [Free] of the trace with the
    same pointer key and size and [t_alloc < t_free], its size is that of
    the [Allocate]; the managed ranges are exactly the ranges of the
    companion list; and the companion list has one entry per [Free]. *)
Theorem trace_ranges_accounted_for (mem_events : list MemEvent) (graph : Graph)
    (managed_live_ranges : gmap LiveRange Z)
    (live_range_node_header : list (LiveRange * FrameNodeId)) (log : list Diag) :
  getManagedLiveRangesFromMemEvents mem_events graph
    = Done (managed_live_ranges, live_range_node_header) log →
  (∀ r s, managed_live_ranges !! r = Some s → paired_in mem_events r s)
  ∧ (∀ r, is_Some (managed_live_ranges !! r) ↔ r ∈ live_range_node_header.*1)
  ∧ length live_range_node_header = length (frees mem_events).
Proof.
  unfold getManagedLiveRangesFromMemEvents.
  intros ([[m h] allocs] & l1 & l2 & Hsweep & Hrest & _)%M_bind_Done_inv.
  apply M_bind_Done_inv in Hrest as (u & l3 & l4 & _ & Hret & _).
  injection Hret as <- <- _.
  apply (sweep_keeps_invariant mem_events []) in Hsweep as (_ & Hm & Hh & Hlen).
  - done.
  - apply sweep_invariant_initial.
Qed.

Lemma trace_ranges_accounted_for_witness :
  length [(mkLiveRange 1 3, example_frame); (mkLiveRange 2 5, example_frame);
          (mkLiveRange 4 6, example_frame)]
  = length (frees example_trace).
Proof.
  refine (proj2 (proj2 (trace_ranges_accounted_for example_trace example_graph
    {[ mkLiveRange 1 3 := 32; mkLiveRange 2 5 := 32; mkLiveRange 4 6 := 32 ]} _ [] _))).
  vm_compute. reflexivity.
Defined.

Lemma trace_accepted_iff_returns (mem_events : list MemEvent) (graph : Graph) :
  (∃ r, getManagedLiveRangesFromMemEvents mem_events graph = Done r []) ↔
  trace_accepted graph mem_events.
Proof.
  pose proof (getManagedLiveRangesFromMemEvents_cases mem_events graph) as Hc.
  destruct (getManagedLiveRangesFromMemEvents mem_events graph) as [r log|f].
  - destruct Hc as [-> Hacc]. split; [done|]. intros _. by exists r.
  - destruct Hc as [_ Hno]. split; [by intros [r ?]|done].
Qed.

(** * Further properties of the two entry points *)

(** X10: [planMemoryWithTracing] checks the trace before it looks at the
    strategy: with an empty trace, or one the replay does not accept, an
    internal assertion fails whatever the strategy, known or not. *)
Theorem planMemoryWithTracing_rejects_bad_trace (ext : Collaborators) (graph : Graph)
    (strat : Strategy) (mem_events : list MemEvent) (device_type : option Z) :
  mem_events = [] ∨ ¬ trace_accepted graph mem_events →
  ∃ site, planMemoryWithTracing ext graph strat mem_events device_type
          = Fatal (InternalAssert site).
Proof.
  intros Hbad. unfold planMemoryWithTracing.
  destruct (decide (mem_events = [])) as [->|Hne].
  - by eexists.
  - destruct Hbad as [?|Hno]; [done|].
    rewrite bool_decide_eq_false_2 by done. simpl negb. rewrite assert_true, M_bind_Done.
    pose proof (getManagedLiveRangesFromMemEvents_cases mem_events graph) as Hc.
    destruct (getManagedLiveRangesFromMemEvents mem_events graph) as [r log|f].
    + by destruct Hc as [_ ?].
    + destruct Hc as [[site ->] _]. by exists site.
Qed.

Lemma planMemoryWithTracing_rejects_bad_trace_witness :
  ∃ site, planMemoryWithTracing example_ext example_graph GREEDY_BY_BREADTH [] None
          = Fatal (InternalAssert site).
Proof.
  apply planMemoryWithTracing_rejects_bad_trace. by left.
Defined.

Lemma M_bind_Done_log {A B : Type} (a : A) (log : list Diag) (f : A → M B) :
  (Done a log ≫= f)
  = match f a with Done b log' => Done b (log ++ log') | Fatal e => Fatal e end.
Proof. reflexivity. Qed.

Lemma M_bind_Fatal {A B : Type} (e : Failure) (f : A → M B) : (Fatal e ≫= f) = Fatal e.
Proof. reflexivity. Qed.

(** [planMemory] from the call of the heuristic on: the plan is validated,
    the verdict asserted, the nodes inserted, and the plan handed back. *)
Lemma planMemory_from_call (ext : Collaborators) (graph : Graph) (strat : Strategy)
    (out_nodes : list NodeRef) (sizes : gmap Value Z) (ranges : gmap Value LiveRange)
    (l1 l2 : list Diag) (allocations : list MemAllocation) :
  getManagedStuff ext graph = Done (out_nodes, sizes, ranges) l1 →
  strategy_call ext strat out_nodes sizes ranges = Some (Done allocations l2) →
  ∃ insert_nodes : M Graph,
    planMemory ext graph strat
    = (Done () (l1 ++ l2);;
       valid ← validateAllocations allocations;
       TORCH_INTERNAL_ASSERT "invalid allocation" valid;;
       graph' ← insert_nodes;
       mret (graph', allocations)).
Proof.
  intros Hstuff Hcall. unfold planMemory, strategy_call in *. rewrite Hstuff.
  rewrite M_bind_Done_log. cbv beta iota zeta.
  destruct (rangeSizes sizes ranges) as [mlr mvr].
  exists (managed_range_values ← rangeValues (map_to_list mvr);
          let '(storage_node, graph1) :=
            insertAllocStorageNode ext graph (getTotalAllocationSize allocations) in
          insertAllocTensorNodes ext graph1 storage_node allocations managed_range_values).
  repeat match type of Hcall with
         | (if ?c then _ else _) = Some _ => destruct c
         end; try discriminate Hcall.
  all: apply (inj Some) in Hcall; cbv beta iota; rewrite Hcall; clear Hcall.
  all: rewrite !M_bind_Done_log.
  all: destruct (validateAllocations allocations) as [[] l3|e];
    rewrite ?M_bind_Done_log, ?M_bind_Fatal, ?assert_true, ?assert_false; try done.
  all: rewrite !M_bind_Done_log.
  all: destruct (rangeValues (map_to_list mvr)) as [mrv l4|e];
    rewrite ?M_bind_Done_log, ?M_bind_Fatal; try done.
  all: destruct (insertAllocStorageNode ext graph (getTotalAllocationSize allocations))
    as [storage_node graph1].
  all: rewrite ?M_bind_Done_log.
  all: destruct (insertAllocTensorNodes ext graph1 storage_node allocations mrv) as [g l5|e];
    rewrite ?M_bind_Done_log, ?M_bind_Fatal, ?M_ret_Done; try done.
  all: by rewrite ?app_nil_r, ?app_nil_l, ?app_assoc.
Qed.

(** X11: [planMemory] hands a plan back only after the validator accepted
    it.  Whenever the call returns, whatever the strategy and the heuristic
    behind it, [validateAllocations] answers true on the allocations it
    returns.  And when the heuristic of the strategy computes a plan, the
    allocations returned, if any, are that plan; if the validator rejects it
    the call fails on the assertion "invalid allocation", and if the
    validator fails the call fails the same way. *)
Theorem planMemory_plan_validated (ext : Collaborators) (graph : Graph) (strat : Strategy) :
  (∀ graph' allocations log,
     planMemory ext graph strat = Done (graph', allocations) log →
     validateAllocations allocations = Done true [])
  ∧ (∀ out_nodes sizes ranges l1 allocations l2,
       getManagedStuff ext graph = Done (out_nodes, sizes, ranges) l1 →
       strategy_call ext strat out_nodes sizes ranges = Some (Done allocations l2) →
       (∀ graph' allocations' log,
          planMemory ext graph strat = Done (graph', allocations') log →
          allocations' = allocations)
       ∧ (∀ l3, validateAllocations allocations = Done false l3 →
                planMemory ext graph strat = Fatal (InternalAssert "invalid allocation"))
       ∧ (∀ e, validateAllocations allocations = Fatal e →
               planMemory ext graph strat = Fatal e)).
Proof.
  split.
  - intros graph' allocations log. unfold planMemory.
    intros ([[out_nodes sizes] ranges] & l1 & l2 & _ & Hrest & _)%M_bind_Done_inv.
    destruct (rangeSizes sizes ranges) as [mlr mvr].
    match type of Hrest with
    | match ?planned with _ => _ end = _ => destruct planned as [plan|]
    end.
    + apply M_bind_Done_inv in Hrest as (allocs & l3 & l4 & _ & Hrest & _).
      apply M_bind_Done_inv in Hrest as (valid & l5 & l6 & Hvalid & Hrest & _).
      apply M_bind_Done_inv in Hrest as (u & l7 & l8 & Hassert & Hrest & _).
      apply M_bind_Done_inv in Hrest as (mrv & l9 & l10 & _ & Hrest & _).
      destruct (insertAllocStorageNode ext graph (getTotalAllocationSize allocs))
        as [storage_node graph1].
      apply M_bind_Done_inv in Hrest as (graph2 & l11 & l12 & _ & Hret & _).
      injection Hret as _ <- _.
      destruct valid; [|done].
      pose proof (validateFrom_cases allocs allocs) as Hc.
      unfold validateAllocations in *. rewrite Hvalid in Hc. by destruct Hc as [-> _].
    + by injection Hrest as _ <- _.
  - intros out_nodes sizes ranges l1 allocations l2 Hstuff Hcall.
    destruct (planMemory_from_call _ _ _ _ _ _ _ _ _ Hstuff Hcall) as [insert_nodes ->].
    rewrite M_bind_Done_log. split; [|split].
    + intros graph' allocations' log.
      destruct (validateAllocations allocations ≫= _) as [[g al] l|e] eqn:Hrun; [|done].
      intros [= -> -> _].
      apply M_bind_Done_inv in Hrun as (valid & l3 & l4 & _ & Hrun & _).
      apply M_bind_Done_inv in Hrun as (u & l5 & l6 & _ & Hrun & _).
      apply M_bind_Done_inv in Hrun as (g' & l7 & l8 & _ & Hret & _).
      by injection Hret as _ <- _.
    + intros l3 ->. by rewrite M_bind_Done_log, assert_false, M_bind_Fatal.
    + intros e ->. by rewrite M_bind_Fatal.
Qed.

Lemma planMemory_plan_validated_witness :
  let a1 := mkMemAllocation (mkLiveRange 0 5) (mkMemRegion 0 64) in
  let a2 := mkMemAllocation (mkLiveRange 3 8) (mkMemRegion 64 64) in
  let b1 := mkMemAllocation (mkLiveRange 0 5) (mkMemRegion 0 (2 ^ 62)) in
  let b2 := mkMemAllocation (mkLiveRange 3 8) (mkMemRegion 0 (2 ^ 62)) in
  validateAllocations [a1; a2] = Done true [] ∧
  validateAllocations [b1; b2] = Done false [CerrConflict b1 b2] ∧
  planMemory staggered_ext shared_range_graph LINEAR_SCAN
  = Fatal (InternalAssert "invalid allocation").
Proof.
  intros a1 a2 b1 b2.
  assert (Hrejected : validateAllocations [b1; b2] = Done false [CerrConflict b1 b2])
    by (vm_compute; reflexivity).
  split; [|split; [exact Hrejected|]].
  - refine (proj1 (planMemory_plan_validated staggered_ext shared_range_graph NAIVE)
              staggered_planned [a1; a2] [] _).
    vm_compute. reflexivity.
  - refine (proj1 (proj2 (proj2 (planMemory_plan_validated staggered_ext shared_range_graph
                                   LINEAR_SCAN)
                            [1%positive; 4%positive]
                            {[ 3%positive := 16; 5%positive := 16 ]}
                            {[ 3%positive := mkLiveRange 0 5; 5%positive := mkLiveRange 3 8 ]}
                            [] [b1; b2] [] _ _))
              [CerrConflict b1 b2] Hrejected).
    + vm_compute. reflexivity.
    + vm_compute. reflexivity.
Defined.

(** * Names and orders of memory_planning.h *)

(** X12: the six strategies print under six different names, and a value
    prints as "UNKNOWN STRATEGY" exactly when it is none of the six. *)
Theorem toString_names_strategy (s1 s2 : Strategy) :
  (NAIVE <= s1 <= GREEDY_BY_BREADTH → NAIVE <= s2 <= GREEDY_BY_BREADTH →
   toString s1 = toString s2 → s1 = s2)
  ∧ (toString s1 = "UNKNOWN STRATEGY" ↔ ¬ (NAIVE <= s1 <= GREEDY_BY_BREADTH)).
Proof.
  unfold NAIVE, GREEDY_BY_BREADTH. split.
  - intros H1 H2.
    assert (C1 : s1 = 0 ∨ s1 = 1 ∨ s1 = 2 ∨ s1 = 3 ∨ s1 = 4 ∨ s1 = 5) by lia.
    assert (C2 : s2 = 0 ∨ s2 = 1 ∨ s2 = 2 ∨ s2 = 3 ∨ s2 = 4 ∨ s2 = 5) by lia.
    destruct C1 as [->|[->|[->|[->|[->| ->]]]]];
      destruct C2 as [->|[->|[->|[->|[->| ->]]]]]; vm_compute; congruence.
  - split.
    + intros Hs Hr.
      assert (C1 : s1 = 0 ∨ s1 = 1 ∨ s1 = 2 ∨ s1 = 3 ∨ s1 = 4 ∨ s1 = 5) by lia.
      destruct C1 as [->|[->|[->|[->|[->| ->]]]]]; vm_compute in Hs; congruence.
    + intros Hr. unfold toString, NAIVE, LINEAR_SCAN, GREEDY_BY_SIZE,
        GREEDY_BY_SIZE_WITH_FIRST_GAP, GREEDY_BY_LONGEST_AND_SIZE, GREEDY_BY_BREADTH.
      replace (s1 =? 0) with false by lia. replace (s1 =? 1) with false by lia.
      replace (s1 =? 2) with false by lia. replace (s1 =? 3) with false by lia.
      replace (s1 =? 4) with false by lia. replace (s1 =? 5) with false by lia. done.
Qed.

(** X13: [region_size_cmp] is a strict total order on regions: no region is
    before itself, the order is transitive, and two regions that neither
    precedes the other are the same region. *)
Theorem region_size_cmp_strict_total (r1 r2 r3 : MemRegion) :
  region_size_cmp r1 r1 = false
  ∧ (region_size_cmp r1 r2 = true → region_size_cmp r2 r3 = true →
     region_size_cmp r1 r3 = true)
  ∧ (region_size_cmp r1 r2 = false → region_size_cmp r2 r1 = false → r1 = r2).
Proof.
  unfold region_size_cmp. destruct r1 as [o1 s1], r2 as [o2 s2], r3 as [o3 s3]. simpl.
  repeat split.
  - rewrite Z.eqb_refl. lia.
  - destruct (s1 =? s2) eqn:E12, (s2 =? s3) eqn:E23, (s1 =? s3) eqn:E13; lia.
  - destruct (s1 =? s2) eqn:E12, (s2 =? s1) eqn:E21; intros H1 H2; try lia.
    f_equal; lia.
Qed.

(** X14: [region_offset_cmp] is a strict total order on regions as well. *)
Theorem region_offset_cmp_strict_total (r1 r2 r3 : MemRegion) :
  region_offset_cmp r1 r1 = false
  ∧ (region_offset_cmp r1 r2 = true → region_offset_cmp r2 r3 = true →
     region_offset_cmp r1 r3 = true)
  ∧ (region_offset_cmp r1 r2 = false → region_offset_cmp r2 r1 = false → r1 = r2).
Proof.
  unfold region_offset_cmp. destruct r1 as [o1 s1], r2 as [o2 s2], r3 as [o3 s3]. simpl.
  repeat split.
  - rewrite Z.eqb_refl. lia.
  - destruct (o1 =? o2) eqn:E12, (o2 =? o3) eqn:E23, (o1 =? o3) eqn:E13; lia.
  - destruct (o1 =? o2) eqn:E12, (o2 =? o1) eqn:E21; intros H1 H2; try lia.
    f_equal; lia.
Qed.

(** * Managed values *)

(** X15: [computeStorageSize] never fails.  It either declines with exactly
    one warning about the value, or returns without a warning the product of
    the element count and the element size of a tensor type that has a
    scalar type and concrete sizes, reduced to 64 unsigned bits. *)
Theorem computeStorageSize_outcome (ext : Collaborators) (graph : Graph) (value : Value) :
  (∃ why, computeStorageSize ext graph value = Done None [WarnStorageSize why value])
  ∨ (∃ ttp scalar_type n,
       type_of graph value = TensorTypeOf ttp ∧
       scalarType ttp = Some scalar_type ∧ is_Some (concrete_sizes ttp) ∧
       numel ttp = Some n ∧
       computeStorageSize ext graph value
       = Done (Some ((n * elementSize ext scalar_type) mod 2 ^ 64)) []).
Proof.
  unfold computeStorageSize.
  destruct (type_of graph value) as [ttp|]; [|left; by eexists].
  destruct (scalarType ttp) as [st|] eqn:Hst; [|left; by eexists].
  destruct (concrete_sizes ttp) as [sz|] eqn:Hsz; [|left; by eexists].
  destruct (numel ttp) as [n|] eqn:Hn; [|left; by eexists].
  right. exists ttp, st, n. rewrite Hsz. by repeat split.
Qed.

(** ** Invariants of loops *)

Lemma foldM_invariant {A S : Type} (I : list A → S → Prop) (body : S → A → M S)
    (l : list A) (s s' : S) (log : list Diag) :
  I [] s →
  (∀ seen x s0 s1 l1, I seen s0 → x ∈ l → body s0 x = Done s1 l1 → I (seen ++ [x]) s1) →
  foldM body l s = Done s' log →
  I l s'.
Proof.
  intros Hinit Hstep.
  assert (Hgen : ∀ rest seen s0 log0,
            (∀ x, x ∈ rest → x ∈ l) → I seen s0 →
            foldM body rest s0 = Done s' log0 → I (seen ++ rest) s').
  { induction rest as [|x rest IH]; intros seen s0 log0 Hsub Hs0; cbn [foldM].
    - intros [= <- _]. by rewrite app_nil_r.
    - intros (s1 & l1 & l2 & Hx & Hrest & _)%M_bind_Done_inv.
      replace (seen ++ x :: rest) with ((seen ++ [x]) ++ rest) by (by rewrite <- app_assoc).
      eapply IH; [| |exact Hrest].
      + intros y Hy. apply Hsub. apply elem_of_cons. by right.
      + eapply Hstep; [done| |done]. apply Hsub. apply elem_of_cons. by left. }
  intros Hrun. exact (Hgen l [] s log (λ x Hx, Hx) Hinit Hrun).
Qed.

Lemma out_variant_table (ext : Collaborators) (graph : Graph) (nodes : list NodeRef)
    (m : gmap NodeRef bool) :
  (∀ n b, m !! n = Some b → b = hasOutVariant ext graph n) →
  let table := fold_left (λ (m : gmap NodeRef bool) (n : NodeRef),
                            um_insert n (hasOutVariant ext graph n) m) nodes m in
  (∀ n b, table !! n = Some b → b = hasOutVariant ext graph n) ∧
  (∀ n, n ∈ nodes → is_Some (table !! n)) ∧
  (∀ n, is_Some (m !! n) → is_Some (table !! n)).
Proof.
  revert m. induction nodes as [|x nodes IH]; intros m Hm; simpl.
  - split; [done|]. split; [|done]. intros n Hn. by apply elem_of_nil in Hn.
  - assert (Hm' : ∀ n b, um_insert x (hasOutVariant ext graph x) m !! n = Some b →
                         b = hasOutVariant ext graph n).
    { intros n b. unfold um_insert. destruct (m !! x) eqn:Hx; [apply Hm|].
      intros [[<- <-]|[_ H]]%lookup_insert_Some; [done|by apply Hm]. }
    assert (Hkeep : ∀ n, is_Some (m !! n) → is_Some (um_insert x (hasOutVariant ext graph x) m !! n)).
    { intros n Hn. unfold um_insert. destruct (m !! x) eqn:Hx; [done|].
      destruct (decide (x = n)) as [<-|Hne]; [by rewrite lookup_insert_eq|].
      by rewrite lookup_insert_ne. }
    assert (Hx : is_Some (um_insert x (hasOutVariant ext graph x) m !! x)).
    { unfold um_insert. destruct (m !! x) eqn:Hx; [by rewrite Hx|]. by rewrite lookup_insert_eq. }
    destruct (IH _ Hm') as (H1 & H2 & H3). split; [done|]. split.
    + intros n [->|Hn]%elem_of_cons; [by apply H3|by apply H2].
    + intros n Hn. by apply H3, Hkeep.
Qed.

Lemma computeStorageSize_Some_log (ext : Collaborators) (graph : Graph) (v : Value)
    (s : Z) (log : list Diag) :
  computeStorageSize ext graph v = Done (Some s) log → log = [].
Proof.
  unfold computeStorageSize.
  destruct (type_of graph v) as [ttp|]; [|done].
  destruct (scalarType ttp), (concrete_sizes ttp); try done.
  destruct (numel ttp); [|done]. by intros [= _ <-].
Qed.

(** What the loop over the outputs of node [n] keeps true. *)
Lemma manageOutput_invariant (ext : Collaborators) (graph : Graph) (alive : gset Value)
    (table : gmap NodeRef bool) (n : NodeRef) (P : Value → Z → Prop)
    (st st' : ManagedState) (out_v : Value) (log : list Diag) :
  (∀ s0, out_v ∉ alive → computeStorageSize ext graph out_v = Done (Some s0) [] → 0 < s0 →
         P out_v (Int64.wrap s0)) →
  (∀ v s, st.1.2 !! v = Some s → P v s) →
  manageOutput ext graph alive table n st out_v = Done st' log →
  st'.1.1 = st.1.1 ∧ ∀ v s, st'.1.2 !! v = Some s → P v s.
Proof.
  destruct st as [[out_nodes managed] leaked]. simpl. intros Hnew Hold.
  unfold manageOutput. case_bool_decide as Halive; [by intros [= <- _]|].
  destruct (computeStorageSize_total ext graph out_v) as (size & lg & Hc). rewrite Hc.
  unfold mbind, M_bind. cbv beta iota.
  destruct size as [s0|].
  - pose proof (computeStorageSize_Some_log _ _ _ _ _ Hc) as ->.
    destruct (0 <? s0) eqn:Hpos.
    + intros [= <- _]. simpl. split; [done|]. intros v s. unfold um_insert.
      destruct (managed !! out_v) eqn:Ho; [apply Hold|].
      intros [[<- <-]|[_ H]]%lookup_insert_Some; [|by apply Hold].
      apply Hnew; [done|done|lia].
    + destruct (isOptimizableContainerType ext graph n table); by intros [= <- _].
  - destruct (isOptimizableContainerType ext graph n table); by intros [= <- _].
Qed.

(** X16: what [getManagedValues] returns.  The out-nodes are the nodes of
    the schedule that have an out variant, in schedule order.  Every managed
    value is an output of such a node, is not always-alive, and is entered
    with the positive size [computeStorageSize] found for it, converted to a
    signed 64-bit integer. *)
Theorem getManagedValues_sound (ext : Collaborators) (graph : Graph)
    (always_alive_values : gset Value) (out_nodes : list NodeRef)
    (managed_tensor_values : gmap Value Z) (log : list Diag) :
  getManagedValues ext graph always_alive_values
    = Done (out_nodes, managed_tensor_values) log →
  out_nodes = filter (λ n, hasOutVariant ext graph n = true) (schedule graph)
  ∧ ∀ v s, managed_tensor_values !! v = Some s →
      (v ∉ always_alive_values) ∧
      (∃ n, n ∈ schedule graph ∧ hasOutVariant ext graph n = true ∧ v ∈ outputs_of graph n) ∧
      ∃ s0, computeStorageSize ext graph v = Done (Some s0) [] ∧ 0 < s0 ∧ s = Int64.wrap s0.
Proof.
  unfold getManagedValues.
  destruct (out_variant_table ext graph (schedule graph) ∅) as (Htab & Hdom & _).
  { intros n b H. by rewrite lookup_empty in H. }
  set (table := fold_left _ (schedule graph) ∅) in *.
  intros ([[nodes managed] leaked] & l1 & l2 & Hloop & Hret & _)%M_bind_Done_inv.
  injection Hret as <- <- _.
  set (good (seen : list NodeRef) (v : Value) (s : Z) :=
         (v ∉ always_alive_values) ∧
         (∃ n, n ∈ seen ∧ hasOutVariant ext graph n = true ∧ v ∈ outputs_of graph n) ∧
         ∃ s0, computeStorageSize ext graph v = Done (Some s0) [] ∧ 0 < s0 ∧ s = Int64.wrap s0).
  apply (foldM_invariant
           (λ (seen : list NodeRef) (st : ManagedState),
              st.1.1 = filter (λ n, hasOutVariant ext graph n = true) seen ∧
              (∀ x, x ∈ seen → x ∈ schedule graph) ∧
              ∀ v s, st.1.2 !! v = Some s → good seen v s)) in Hloop.
  - destruct Hloop as (Hout & Hsub & Hman). split; [done|].
    intros v s Hv. exact (Hman v s Hv).
  - simpl. split; [done|]. split; [intros x Hx; by apply elem_of_nil in Hx|].
    intros v s H. by rewrite lookup_empty in H.
  - intros seen x [[on mt] lk] st1 lg (Hout & Hsub & Hman) Hx. simpl in *.
    assert (Hsub' : ∀ y, y ∈ seen ++ [x] → y ∈ schedule graph).
    { intros y [Hy|Hy%list_elem_of_singleton]%elem_of_app; [by apply Hsub|by subst]. }
    assert (Hmono : ∀ v s, good seen v s → good (seen ++ [x]) v s).
    { intros v s (Hal & (n & Hn & Hov & Hvo) & Hs). split; [done|]. split; [|done].
      exists n. split; [apply elem_of_app; by left|done]. }
    destruct (Hdom x Hx) as [b Hb]. rewrite Hb. simpl default.
    pose proof (Htab x b Hb) as ->.
    rewrite filter_app, filter_cons, filter_nil.
    destruct (hasOutVariant ext graph x) eqn:Hov; simpl negb; cbv iota.
    + rewrite decide_True by done. intros Hinner.
      apply (foldM_invariant
               (λ (outs : list Value) (st : ManagedState),
                  st.1.1 = on ++ [x] ∧
                  ∀ v s, st.1.2 !! v = Some s → good (seen ++ [x]) v s)) in Hinner.
      * destruct Hinner as [H1 H2]. rewrite H1, Hout. done.
      * simpl. split; [done|]. intros v s Hv. by apply Hmono, Hman.
      * intros outs out_v st0 st2 lg2 [H1 H2] Hin Hstep.
        eapply (manageOutput_invariant _ _ _ _ _ (good (seen ++ [x]))) in Hstep.
        -- destruct Hstep as [H3 H4]. split; [by rewrite H3|done].
        -- intros s0 Hal Hc Hpos. split; [done|]. split; [|by exists s0].
           exists x. split; [apply elem_of_app; right; by apply list_elem_of_singleton|done].
        -- done.
    + rewrite decide_False by done. rewrite app_nil_r.
      intros [= <- _]. simpl. split; [done|]. split; [done|].
      intros v s Hv. by apply Hmono, Hman.
Qed.

Lemma getManagedValues_sound_witness :
  [1%positive; 4%positive]
  = filter (λ n, hasOutVariant shared_range_ext shared_range_graph n = true)
           (schedule shared_range_graph).
Proof.
  refine (proj1 (getManagedValues_sound shared_range_ext shared_range_graph ∅
                   [1%positive; 4%positive] {[ 3%positive := 16; 5%positive := 16 ]} [] _)).
  vm_compute. reflexivity.
Defined.

(** ** Ranges of the managed values *)

Lemma option_eq_Some {A : Type} (o1 o2 : option A) :
  (∀ x, o1 = Some x ↔ o2 = Some x) → o1 = o2.
Proof.
  intros H. destruct o1 as [x|], o2 as [y|]; try done.
  - by apply H.
  - symmetry. by apply H.
  - by apply H.
Qed.

Lemma managed_ranges_lookup (sizes : gmap Value Z) (l : list (Value * LiveRange))
    (m0 : gmap Value LiveRange) (v : Value) (r : LiveRange) :
  NoDup l.*1 → (∀ k, k ∈ l.*1 → m0 !! k = None) →
  fold_left (λ (m : gmap Value LiveRange) (item : Value * LiveRange),
               if bool_decide (is_Some (sizes !! item.1))
               then um_insert item.1 item.2 m else m) l m0 !! v = Some r
  ↔ m0 !! v = Some r ∨ ((v, r) ∈ l ∧ is_Some (sizes !! v)).
Proof.
  revert m0. induction l as [|[k x] l IH]; intros m0 Hnd Hfresh; simpl.
  - split; [by left|]. intros [?|[Hin _]]; [done|by apply elem_of_nil in Hin].
  - apply NoDup_cons in Hnd as [Hk Hnd].
    assert (Hk0 : m0 !! k = None) by (apply Hfresh, elem_of_cons; by left).
    rewrite IH; [|done|].
    + unfold um_insert. rewrite Hk0. case_bool_decide as Hs; rewrite elem_of_cons.
      * rewrite lookup_insert_Some. split.
        -- intros [[[<- <-]|[_ H]]|[Hin Hsz]]; [right; split; [by left|done] | by left |].
           right. split; [by right|done].
        -- intros [H|[[[= <- <-]|Hin] Hsz]].
           ++ left. right. split; [|done]. intros <-. congruence.
           ++ left. by left.
           ++ right. done.
      * split.
        -- intros [H|[Hin Hsz]]; [by left|]. right. split; [by right|done].
        -- intros [H|[[[= <- <-]|Hin] Hsz]]; [by left|done|]. right. done.
    + intros k' Hk'. case_bool_decide; [|apply Hfresh, elem_of_cons; by right].
      unfold um_insert. rewrite Hk0. rewrite lookup_insert_ne.
      * apply Hfresh, elem_of_cons. by right.
      * intros <-. done.
Qed.

(** X17: [getManagedStuff] returns the out-nodes and sizes that
    [getManagedValues] finds for the always-alive set of the graph, and
    gives a live range to exactly the managed values for which the liveness
    analysis has one; a managed value without one is left without a range,
    and nothing fails. *)
Theorem getManagedStuff_ranges (ext : Collaborators) (graph : Graph)
    (out_nodes : list NodeRef) (managed_tensor_values : gmap Value Z)
    (managed_ranges : gmap Value LiveRange) (log : list Diag) :
  getManagedStuff ext graph = Done (out_nodes, managed_tensor_values, managed_ranges) log →
  let always_alive := GetAlwaysAliveValues ext graph in
  getManagedValues ext graph always_alive = Done (out_nodes, managed_tensor_values) log
  ∧ managed_ranges
    = filter (λ item : Value * LiveRange, is_Some (managed_tensor_values !! item.1))
             (GetLiveness ext graph always_alive).
Proof.
  unfold getManagedStuff. intros ([nodes sizes] & l1 & l2 & Hv & Hret & ->)%M_bind_Done_inv.
  injection Hret as <- <- <- <-. simpl. rewrite app_nil_r. split; [done|].
  apply map_eq. intros v. apply option_eq_Some. intros r.
  rewrite managed_ranges_lookup.
  - rewrite map_lookup_filter_Some, lookup_empty, elem_of_map_to_list. simpl.
    split; [intros [?|?]; done | intros ?; by right].
  - apply NoDup_fst_map_to_list.
  - intros k _. apply lookup_empty.
Qed.

Lemma getManagedStuff_ranges_witness :
  ({[ 3%positive := mkLiveRange 0 5; 5%positive := mkLiveRange 0 5 ]} : gmap Value LiveRange)
  = filter (λ item : Value * LiveRange,
              is_Some (({[ 3%positive := 16; 5%positive := 16 ]} : gmap Value Z) !! item.1))
           (GetLiveness shared_range_ext shared_range_graph
              (GetAlwaysAliveValues shared_range_ext shared_range_graph)).
Proof.
  refine (proj2 (getManagedStuff_ranges shared_range_ext shared_range_graph
                   [1%positive; 4%positive] {[ 3%positive := 16; 5%positive := 16 ]}
                   {[ 3%positive := mkLiveRange 0 5; 5%positive := mkLiveRange 0 5 ]} [] _)).
  vm_compute. reflexivity.
Defined.

Lemma rangeSizes_from (ranges : gmap Value LiveRange) (rest seen : list (Value * Z))
    (st : gmap LiveRange Z * gmap Value LiveRange) :
  NoDup (seen.*1 ++ rest.*1) →
  (∀ v, st.2 !! v = match ranges !! v with
                    | Some r => Some r
                    | None => if decide (v ∈ seen.*1) then Some (mkLiveRange 0 0) else None
                    end) →
  (∀ r s, st.1 !! r = Some s → ∃ v, (v, s) ∈ seen ∧ st.2 !! v = Some r) →
  (∀ v s r, (v, s) ∈ seen → st.2 !! v = Some r → is_Some (st.1 !! r)) →
  let st' := fold_left
               (λ (st : gmap LiveRange Z * gmap Value LiveRange) (item : Value * Z),
                  let '(r, ranges) := um_index item.1 (mkLiveRange 0 0) st.2 in
                  (<[r := item.2]> st.1, ranges)) rest st in
  (∀ v, st'.2 !! v = match ranges !! v with
                     | Some r => Some r
                     | None => if decide (v ∈ (seen ++ rest).*1)
                               then Some (mkLiveRange 0 0) else None
                     end) ∧
  (∀ r s, st'.1 !! r = Some s → ∃ v, (v, s) ∈ seen ++ rest ∧ st'.2 !! v = Some r) ∧
  (∀ v s r, (v, s) ∈ seen ++ rest → st'.2 !! v = Some r → is_Some (st'.1 !! r)).
Proof.
  revert seen st. induction rest as [|[v0 s0] rest IH]; intros seen [mlr mvr] Hnd H1 H2 H3.
  - simpl. rewrite app_nil_r. done.
  - cbn [fold_left]. simpl in H1, H2, H3.
    replace (seen ++ (v0, s0) :: rest) with ((seen ++ [(v0, s0)]) ++ rest)
      by (by rewrite <- app_assoc).
    assert (Hv0 : v0 ∉ seen.*1).
    { intros Hin. apply NoDup_app in Hnd as (_ & Hd & _). apply (Hd v0 Hin).
      simpl. apply elem_of_cons. by left. }
    assert (Hseen' : (seen ++ [(v0, s0)]).*1 = seen.*1 ++ [v0]) by (by rewrite fmap_app).
    apply IH.
    + rewrite Hseen', <- app_assoc. done.
    + intros v. cbn [fst snd]. unfold um_index.
      destruct (mvr !! v0) as [r0|] eqn:Hr0; cbn [fst snd].
      * rewrite H1. destruct (ranges !! v) eqn:Hrv; [done|].
        rewrite Hseen'. destruct (decide (v = v0)) as [->|Hne].
        -- rewrite H1, Hrv in Hr0. rewrite decide_False in Hr0 by done. done.
        -- destruct (decide (v ∈ seen.*1)) as [Hin|Hnin].
           ++ rewrite decide_True; [done|]. apply elem_of_app. by left.
           ++ rewrite decide_False; [done|].
              intros [?|?%list_elem_of_singleton]%elem_of_app; done.
      * rewrite Hseen'. destruct (decide (v = v0)) as [->|Hne].
        -- rewrite lookup_insert_eq. rewrite H1 in Hr0.
           destruct (ranges !! v0); [done|].
           rewrite decide_True; [done|]. apply elem_of_app. right.
           by apply list_elem_of_singleton.
        -- rewrite lookup_insert_ne by done. rewrite H1.
           destruct (ranges !! v); [done|].
           destruct (decide (v ∈ seen.*1)) as [Hin|Hnin].
           ++ rewrite decide_True; [done|]. apply elem_of_app. by left.
           ++ rewrite decide_False; [done|].
              intros [?|?%list_elem_of_singleton]%elem_of_app; done.
    + intros r s. cbn [fst snd]. unfold um_index.
      destruct (mvr !! v0) as [r0|] eqn:Hr0; cbn [fst snd].
      * intros [[<- <-]|[_ H]]%lookup_insert_Some.
        -- exists v0. split; [|done]. apply elem_of_app. right. by apply list_elem_of_singleton.
        -- destruct (H2 r s H) as (v & Hin & Hv). exists v. split; [|done].
           apply elem_of_app. by left.
      * intros [[<- <-]|[_ H]]%lookup_insert_Some.
        -- exists v0. split; [|by rewrite lookup_insert_eq].
           apply elem_of_app. right. by apply list_elem_of_singleton.
        -- destruct (H2 r s H) as (v & Hin & Hv). exists v. split.
           ++ apply elem_of_app. by left.
           ++ rewrite lookup_insert_ne; [done|]. intros <-. congruence.
    + intros v s r. cbn [fst snd]. unfold um_index.
      rewrite elem_of_app, list_elem_of_singleton.
      destruct (mvr !! v0) as [r0|] eqn:Hr0; cbn [fst snd].
      * intros [Hin|[= -> ->]] Hv.
        -- destruct (H3 v s r Hin Hv) as [x Hx].
           destruct (decide (r0 = r)) as [->|Hne]; [by rewrite lookup_insert_eq|].
           rewrite lookup_insert_ne by done. by exists x.
        -- rewrite Hr0 in Hv. injection Hv as ->. by rewrite lookup_insert_eq.
      * intros [Hin|[= -> ->]] Hv.
        -- assert (Hne : v ≠ v0).
           { intros ->. apply Hv0. apply list_elem_of_fmap. by exists (v0, s). }
           rewrite lookup_insert_ne in Hv by done.
           destruct (H3 v s r Hin Hv) as [x Hx].
           destruct (decide (mkLiveRange 0 0 = r)) as [<-|Hne']; [by rewrite lookup_insert_eq|].
           rewrite lookup_insert_ne by done. by exists x.
        -- rewrite lookup_insert_eq in Hv. injection Hv as <-. by rewrite lookup_insert_eq.
Qed.

(** X18: the loop of [planMemory] that keys the sizes by live range.  A
    managed value that has no live range is given the range [[0,0]] on the
    way (the others keep theirs, and values that are not managed are left
    alone); every key of [managed_live_ranges] is then the range of a
    managed value and carries the size of such a value, and the range of
    every managed value is a key. *)
Theorem rangeSizes_default_range (managed_value_sizes : gmap Value Z)
    (managed_value_ranges : gmap Value LiveRange) :
  let managed_live_ranges := (rangeSizes managed_value_sizes managed_value_ranges).1 in
  let ranges' := (rangeSizes managed_value_sizes managed_value_ranges).2 in
  (∀ v, ranges' !! v
        = match managed_value_ranges !! v with
          | Some r => Some r
          | None => if decide (is_Some (managed_value_sizes !! v))
                    then Some (mkLiveRange 0 0) else None
          end)
  ∧ (∀ r s, managed_live_ranges !! r = Some s →
            ∃ v, managed_value_sizes !! v = Some s ∧ ranges' !! v = Some r)
  ∧ (∀ v s r, managed_value_sizes !! v = Some s → ranges' !! v = Some r →
              is_Some (managed_live_ranges !! r)).
Proof.
  unfold rangeSizes.
  destruct (rangeSizes_from managed_value_ranges (map_to_list managed_value_sizes) []
              (∅, managed_value_ranges)) as (H1 & H2 & H3).
  - simpl. apply NoDup_fst_map_to_list.
  - intros v. cbn [fst snd fmap list_fmap]. destruct (managed_value_ranges !! v); [done|].
    by destruct (decide (v ∈ [])) as [?%elem_of_nil|].
  - intros r s H. simpl in H. by rewrite lookup_empty in H.
  - intros v s r Hin. by apply elem_of_nil in Hin.
  - simpl in H1, H2, H3. cbv zeta. split; [|split].
    + intros v. rewrite H1. destruct (managed_value_ranges !! v); [done|].
      destruct (decide (is_Some (managed_value_sizes !! v))) as [[s Hs]|Hno].
      * rewrite decide_True; [done|]. apply list_elem_of_fmap. exists (v, s).
        split; [done|]. by apply elem_of_map_to_list.
      * rewrite decide_False; [done|]. intros ([v' s] & -> & Hin)%list_elem_of_fmap.
        apply elem_of_map_to_list in Hin. apply Hno. by exists s.
    + intros r s Hr. destruct (H2 r s Hr) as (v & Hin & Hv). exists v.
      split; [by apply elem_of_map_to_list|done].
    + intros v s r Hs Hv. apply (H3 v s r); [|done]. by apply elem_of_map_to_list.
Qed.

(** * The trace-driven entry point and the graph *)

Lemma extends_refl (graph : Graph) : extends graph graph.
Proof. by repeat split. Qed.

Lemma extends_create (g0 g : Graph) (kind : NodeKind) :
  extends g0 g → extends g0 (Graph_create kind g).2.
Proof.
  intros (Ho & Hn & Hs & Hv & Hsub). unfold extends, Graph_create.
  cbn [snd graph_outputs next_pointer store values schedule].
  split; [done|]. split; [lia|]. split; [|split; [|done]].
  - intros n Hlt. rewrite lookup_insert_ne by lia. by apply Hs.
  - intros v Hlt. rewrite lookup_insert_ne by lia. by apply Hv.
Qed.

Lemma extends_update (g0 g : Graph) (n : NodeRef) (f : Node → Node) :
  extends g0 g → (next_pointer g0 ≤ n)%positive → extends g0 (update_node n f g).
Proof.
  intros (Ho & Hn & Hs & Hv & Hsub) Hle. unfold extends, update_node.
  cbn [graph_outputs next_pointer store values schedule].
  split; [done|]. split; [done|]. split; [|done].
  intros m Hlt. rewrite lookup_alter_ne by lia. by apply Hs.
Qed.

Lemma insert_before_sublist (new target : NodeRef) (l : list NodeRef) :
  l `sublist_of` insert_before new target l.
Proof.
  induction l as [|n l IH]; simpl; [done|].
  destruct (decide (n = target)); [by apply sublist_cons|by apply sublist_skip].
Qed.

Lemma extends_insertBefore (g0 g : Graph) (new target : NodeRef) :
  extends g0 g → extends g0 (Node_insertBefore new target g).
Proof.
  intros (Ho & Hn & Hs & Hv & Hsub). unfold extends, Node_insertBefore.
  cbn [graph_outputs next_pointer store values schedule].
  repeat split; try done. etrans; [exact Hsub|]. apply insert_before_sublist.
Qed.

Lemma extends_insertFront (g0 g : Graph) (new : NodeRef) :
  extends g0 g → extends g0 (Node_insertFront new g).
Proof.
  intros (Ho & Hn & Hs & Hv & Hsub). unfold extends, Node_insertFront.
  cbn [graph_outputs next_pointer store values schedule].
  repeat split; try done. by apply sublist_cons.
Qed.

Lemma extends_insertBeforeReturn (g0 g : Graph) (new : NodeRef) :
  extends g0 g → extends g0 (Node_insertBeforeReturn new g).
Proof.
  intros (Ho & Hn & Hs & Hv & Hsub). unfold extends, Node_insertBeforeReturn.
  cbn [graph_outputs next_pointer store values schedule].
  repeat split; try done. etrans; [exact Hsub|]. by apply sublist_inserts_r.
Qed.

Lemma create_fresh (g0 g : Graph) (kind : NodeKind) :
  extends g0 g → (next_pointer g0 ≤ (Graph_create kind g).1)%positive.
Proof. intros (_ & Hn & _). done. Qed.

Lemma extends_insertAllocStorageNode (ext : Collaborators) (g0 g : Graph) (total_size : Z) :
  extends g0 g →
  extends g0 (insertAllocStorageNode ext g total_size).2 ∧
  (next_pointer g0 ≤ (insertAllocStorageNode ext g total_size).1)%positive.
Proof.
  intros He. unfold insertAllocStorageNode.
  pose proof (extends_create g0 g prim_AllocateStorage He) as Hc.
  pose proof (create_fresh g0 g prim_AllocateStorage He) as Hf.
  destruct (Graph_create prim_AllocateStorage g) as [storage g1]. cbn [fst snd] in *.
  split; [|done]. apply extends_insertFront. unfold Node_set_attr.
  destruct (pickDeviceType ext _); by repeat (apply extends_update; [|done]).
Qed.

Lemma extends_insertPreAllocTensorNode (g0 : Graph) (storage nd : NodeRef)
    (st st' : Graph * gmap LiveRange MemRegion * list NodeRef) (lvr : LiveRange)
    (log : list Diag) :
  extends g0 st.1.1 →
  insertPreAllocTensorNode storage nd st lvr = Done st' log →
  extends g0 st'.1.1.
Proof.
  destruct st as [[g am] ins]. simpl. intros He. unfold insertPreAllocTensorNode.
  destruct (um_index lvr (mkMemRegion 0 0) am) as [region am'].
  pose proof (extends_create g0 g prim_PreAllocateTensor He) as Hc.
  pose proof (create_fresh g0 g prim_PreAllocateTensor He) as Hf.
  destruct (Graph_create prim_PreAllocateTensor g) as [alloc g1]. cbn [fst snd] in *.
  intros (device & l1 & l2 & _ & Hret & _)%M_bind_Done_inv.
  injection Hret as <- _. cbn [fst snd]. unfold Node_set_attr, Node_addInput.
  repeat (apply extends_update; [|first [done | exact (proj1 (proj2 He))]]).
  apply extends_insertBefore. first [done | by apply extends_create].
Qed.

Lemma extends_insertPreAllocTensorNodes (g0 g g' : Graph) (storage : NodeRef)
    (allocations : list MemAllocation) (collected : list (FrameNodeId * list LiveRange))
    (inserted : list NodeRef) (log : list Diag) :
  extends g0 g →
  insertPreAllocTensorNodes g storage allocations collected = Done (inserted, g') log →
  extends g0 g' ∧ Forall (λ n, (next_pointer g0 ≤ n)%positive) inserted.
Proof.
  intros He. unfold insertPreAllocTensorNodes.
  intros (st & l1 & l2 & Hloop & Hret & _)%M_bind_Done_inv.
  injection Hret as <- <- _.
  set (I := λ st : Graph * gmap LiveRange MemRegion * list NodeRef,
              extends g0 st.1.1 ∧ Forall (λ n, (next_pointer g0 ≤ n)%positive) st.2).
  assert (Hstep : ∀ nd lvr s0 s1 lg, I s0 →
            insertPreAllocTensorNode storage nd s0 lvr = Done s1 lg → I s1).
  { intros nd lvr s0 s1 lg [H1 H2] Hrun. split.
    - by eapply extends_insertPreAllocTensorNode.
    - destruct s0 as [[ga am] ins]. unfold insertPreAllocTensorNode in Hrun.
      destruct (um_index lvr (mkMemRegion 0 0) am) as [region am'].
      pose proof (create_fresh g0 ga prim_PreAllocateTensor H1) as Hf.
      destruct (Graph_create prim_PreAllocateTensor ga) as [alloc g1]. cbn [fst snd] in *.
      apply M_bind_Done_inv in Hrun as (device & l3 & l4 & _ & Hret & _).
      injection Hret as <- _. cbn [fst snd]. apply Forall_app. split; [done|]. by constructor. }
  apply (foldM_invariant (λ _ st, I st)) in Hloop; [done| |].
  - split; [done|constructor].
  - intros seen item s0 s1 lg Hs0 _ Hinner.
    apply (foldM_invariant (λ _ st, I st)) in Hinner; [done|done|].
    intros seen' lvr s2 s3 lg' Hs2 _ Hrun. by eapply Hstep.
Qed.

Lemma extends_insertCollect (g0 g : Graph) (alloc_nodes : list NodeRef) :
  extends g0 g → extends g0 (insertCollectAllocatedTensorsNode g alloc_nodes).
Proof.
  intros He. unfold insertCollectAllocatedTensorsNode.
  pose proof (extends_create g0 g prim_Constant He) as Hc.
  pose proof (create_fresh g0 g prim_Constant He) as Hf.
  destruct (Graph_create prim_Constant g) as [collect g1]. cbn [fst snd] in *.
  apply (extends_insertBeforeReturn _ _ collect) in Hc. revert Hc.
  generalize (Node_insertBeforeReturn collect g1). clear g1.
  induction alloc_nodes as [|n l IH]; intros g2 H2; cbn [fold_left]; [done|].
  apply IH. unfold Node_addInput. by apply extends_update.
Qed.

(** X19: the trace-driven entry point only adds to the graph.  Whenever
    [planMemoryWithTracing] returns, with whatever strategy and heuristics,
    the graph it leaves has the graph outputs of the one it was given,
    every node and value of that graph unchanged, and its schedule kept in
    order among the nodes added. *)
Theorem planMemoryWithTracing_only_adds (ext : Collaborators) (graph graph' : Graph)
    (strat : Strategy) (mem_events : list MemEvent) (device_type : option Z)
    (allocations : list MemAllocation) (log : list Diag) :
  planMemoryWithTracing ext graph strat mem_events device_type
    = Done (graph', allocations) log →
  extends graph graph'.
Proof.
  unfold planMemoryWithTracing.
  intros (u & l1 & l2 & _ & Hrest & _)%M_bind_Done_inv.
  apply M_bind_Done_inv in Hrest as ([m h] & l3 & l4 & _ & Hrest & _).
  match type of Hrest with
  | match ?planned with _ => _ end = _ => destruct planned as [plan|]
  end.
  - apply M_bind_Done_inv in Hrest as (allocs & l5 & l6 & _ & Hrest & _).
    destruct (extends_insertAllocStorageNode ext graph graph (getTotalAllocationSize allocs)
                (extends_refl graph)) as [He1 _].
    destruct (insertAllocStorageNode ext graph (getTotalAllocationSize allocs))
      as [storage g1]. simpl in He1.
    apply M_bind_Done_inv in Hrest as ([ins g2] & l7 & l8 & Hpre & Hret & _).
    injection Hret as <- _ _.
    apply extends_insertCollect.
    by destruct (extends_insertPreAllocTensorNodes _ _ _ _ _ _ _ _ He1 Hpre).
  - injection Hrest as <- _ _. apply extends_refl.
Qed.

Lemma planMemoryWithTracing_only_adds_witness : extends example_graph example_traced.
Proof.
  refine (planMemoryWithTracing_only_adds example_ext example_graph example_traced NAIVE
            example_trace None
            [mkMemAllocation (mkLiveRange 1 3) (mkMemRegion 0 64);
             mkMemAllocation (mkLiveRange 2 5) (mkMemRegion 64 64);
             mkMemAllocation (mkLiveRange 4 6) (mkMemRegion 128 64)] [] _).
  vm_compute. reflexivity.
Defined.

Lemma foldM_success {A S : Type} (I : S → Prop) (body : S → A → M S) (l : list A) (s : S) :
  I s →
  (∀ s0 x, I s0 → ∃ s1, body s0 x = Done s1 [] ∧ I s1) →
  ∃ s', foldM body l s = Done s' [] ∧ I s'.
Proof.
  intros Hs Hstep. revert s Hs. induction l as [|x l IH]; intros s Hs; cbn [foldM].
  - by exists s.
  - destruct (Hstep s x Hs) as (s1 & Hx & Hs1). rewrite Hx, M_bind_Done. by apply IH.
Qed.

Lemma holds_node_update (nd0 : Node) (n m : NodeRef) (f : Node → Node) (g : Graph) :
  m ≠ n → holds_node nd0 n g → holds_node nd0 n (update_node m f g).
Proof.
  intros Hne (Hs & Hlt & Hin). unfold holds_node, update_node.
  cbn [graph_outputs next_pointer store values schedule].
  by rewrite lookup_alter_ne.
Qed.

Lemma holds_node_create (nd0 : Node) (n : NodeRef) (kind : NodeKind) (g : Graph) :
  holds_node nd0 n g →
  holds_node nd0 n (Graph_create kind g).2 ∧ (Graph_create kind g).1 ≠ n.
Proof.
  intros (Hs & Hlt & Hin). unfold holds_node, Graph_create.
  cbn [fst snd graph_outputs next_pointer store values schedule].
  split; [|lia]. rewrite lookup_insert_ne by lia. split; [done|]. split; [lia|done].
Qed.

Lemma insert_before_elem_of (new target n : NodeRef) (l : list NodeRef) :
  n ∈ l → n ∈ insert_before new target l.
Proof. intros Hn. eapply elem_of_sublist; [done|apply insert_before_sublist]. Qed.

Lemma holds_node_insertBefore (nd0 : Node) (n new target : NodeRef) (g : Graph) :
  holds_node nd0 n g → holds_node nd0 n (Node_insertBefore new target g).
Proof.
  intros (Hs & Hlt & Hin). unfold holds_node, Node_insertBefore.
  cbn [graph_outputs next_pointer store values schedule].
  split; [done|]. split; [done|]. by apply insert_before_elem_of.
Qed.

Lemma holds_node_insertBeforeReturn (nd0 : Node) (n new : NodeRef) (g : Graph) :
  holds_node nd0 n g → holds_node nd0 n (Node_insertBeforeReturn new g).
Proof.
  intros (Hs & Hlt & Hin). unfold holds_node, Node_insertBeforeReturn.
  cbn [graph_outputs next_pointer store values schedule].
  split; [done|]. split; [done|]. apply elem_of_app. by left.
Qed.

Lemma Node_i_holds (nd0 : Node) (n : NodeRef) (name : Attr) (g g' : Graph) :
  holds_node nd0 n g → holds_node nd0 n g' → Node_i g' n name = Node_i g n name.
Proof. intros (Hs & _) (Hs' & _). unfold Node_i. by rewrite Hs, Hs'. Qed.

Lemma insertAllocStorageNode_holds (ext : Collaborators) (g : Graph) (total_size : Z) :
  let storage := (insertAllocStorageNode ext g total_size).1 in
  let g1 := (insertAllocStorageNode ext g total_size).2 in
  ∃ nd0 device,
    holds_node nd0 storage g1 ∧ node_kind nd0 = prim_AllocateStorage ∧
    Node_i g1 storage attr_total_size = Done total_size [] ∧
    Node_i g1 storage attr_device = Done device [].
Proof.
  unfold insertAllocStorageNode, Graph_create, Node_set_attr, Node_insertFront, update_node.
  cbn [fst snd graph_outputs next_pointer store values schedule].
  match goal with |- context [pickDeviceType ext ?gx] => destruct (pickDeviceType ext gx) as [d|] end;
    cbn [fst snd graph_outputs next_pointer store values schedule].
  all: eexists _, _; unfold holds_node, Node_i;
    cbn [fst snd graph_outputs next_pointer store values schedule];
    rewrite !lookup_alter_eq, !lookup_insert_eq; cbn [fmap option_fmap option_map].
  all: split; [split; [reflexivity|split; [lia|apply elem_of_cons; by left]]|].
  all: split; [reflexivity|].
  all: cbn.
  all: rewrite (decide_False (P := attr_device = attr_total_size)) by done.
  all: rewrite (decide_True (P := attr_total_size ≠ attr_device)) by done.
  all: rewrite (decide_True (P := attr_device = attr_device)) by done.
  all: cbn.
  all: rewrite (decide_True (P := attr_total_size = attr_total_size)) by done.
  all: split; reflexivity.
Qed.

Lemma insertPreAllocTensorNode_ok (nd0 : Node) (storage nd : NodeRef) (device : Z)
    (g : Graph) (am : gmap LiveRange MemRegion) (ins : list NodeRef) (lvr : LiveRange) :
  holds_node nd0 storage g →
  Node_i g storage attr_device = Done device [] →
  ∃ st', insertPreAllocTensorNode storage nd (g, am, ins) lvr = Done st' [] ∧
         holds_node nd0 storage st'.1.1.
Proof.
  intros Hh Hdev. unfold insertPreAllocTensorNode.
  destruct (um_index lvr (mkMemRegion 0 0) am) as [region am'].
  destruct (holds_node_create nd0 storage prim_PreAllocateTensor g Hh) as [Hc Hne].
  destruct (Graph_create prim_PreAllocateTensor g) as [alloc g1]. cbn [fst snd] in *.
  set (gx := Node_set_attr alloc attr_offset _ _).
  assert (Hx : holds_node nd0 storage gx).
  { unfold gx, Node_set_attr, Node_addInput.
    repeat (apply holds_node_update; [done|]). by apply holds_node_insertBefore. }
  rewrite (Node_i_holds nd0 storage attr_device g gx Hh Hx), Hdev, M_bind_Done.
  eexists. split; [reflexivity|]. cbn [fst snd]. unfold Node_set_attr.
  by apply holds_node_update.
Qed.

Lemma insertPreAllocTensorNodes_ok (nd0 : Node) (storage : NodeRef) (device : Z) (g : Graph)
    (allocations : list MemAllocation) (collected : list (FrameNodeId * list LiveRange)) :
  holds_node nd0 storage g →
  Node_i g storage attr_device = Done device [] →
  ∃ inserted g', insertPreAllocTensorNodes g storage allocations collected
                 = Done (inserted, g') [] ∧ holds_node nd0 storage g'.
Proof.
  intros Hh Hdev. unfold insertPreAllocTensorNodes.
  set (I := λ st : Graph * gmap LiveRange MemRegion * list NodeRef,
              holds_node nd0 storage st.1.1).
  assert (Hstep : ∀ nd (s0 : Graph * gmap LiveRange MemRegion * list NodeRef) lvr, I s0 →
            ∃ s1, insertPreAllocTensorNode storage nd s0 lvr = Done s1 [] ∧ I s1).
  { intros nd [[ga am] ins] lvr Hs0. apply (insertPreAllocTensorNode_ok nd0 _ _ device); [done|].
    by rewrite (Node_i_holds nd0 storage attr_device g ga Hh Hs0). }
  match goal with |- context [foldM ?body ?l ?s] =>
    destruct (foldM_success I body l s) as (st & Hrun & Hst) end.
  - done.
  - intros s0 item Hs0. apply foldM_success; [done|]. intros s1 lvr Hs1. by apply Hstep.
  - rewrite Hrun, M_bind_Done. by eexists _, _.
Qed.

Lemma insertCollect_holds (nd0 : Node) (storage : NodeRef) (g : Graph)
    (alloc_nodes : list NodeRef) :
  holds_node nd0 storage g →
  holds_node nd0 storage (insertCollectAllocatedTensorsNode g alloc_nodes).
Proof.
  intros Hh. unfold insertCollectAllocatedTensorsNode.
  destruct (holds_node_create nd0 storage prim_Constant g Hh) as [Hc Hne].
  destruct (Graph_create prim_Constant g) as [collect g1]. cbn [fst snd] in *.
  apply (holds_node_insertBeforeReturn _ _ collect) in Hc. revert Hc.
  generalize (Node_insertBeforeReturn collect g1). clear g1.
  induction alloc_nodes as [|n l IH]; intros g2 H2; cbn [fold_left]; [done|].
  apply IH. unfold Node_addInput. by apply holds_node_update.
Qed.

(** X20: on a non-empty trace that replays, [planMemoryWithTracing] with
    NAIVE always returns, without a diagnostic.  Its plan is the NAIVE plan of
    the live ranges of the trace, and the graph it leaves has a scheduled
    AllocateStorage node whose [total_size] attribute is the total
    allocation size of that plan. *)
Theorem planMemoryWithTracing_naive_succeeds (ext : Collaborators) (graph : Graph)
    (mem_events : list MemEvent) (device_type : option Z) :
  mem_events ≠ [] →
  trace_accepted graph mem_events →
  ∃ managed header graph' storage,
    getManagedLiveRangesFromMemEvents mem_events graph = Done (managed, header) [] ∧
    planMemoryWithTracing ext graph NAIVE mem_events device_type
      = Done (graph', naive managed) [] ∧
    storage ∈ schedule graph' ∧
    kind_of graph' storage = prim_AllocateStorage ∧
    Node_i graph' storage attr_total_size = Done (getTotalAllocationSize (naive managed)) [].
Proof.
  intros Hne Hacc. unfold planMemoryWithTracing.
  rewrite bool_decide_eq_false_2 by done. simpl negb. rewrite assert_true, M_bind_Done.
  pose proof (getManagedLiveRangesFromMemEvents_cases mem_events graph) as Hc.
  destruct (getManagedLiveRangesFromMemEvents mem_events graph) as [[m h] log|f];
    [destruct Hc as [-> _] | by destruct Hc as [_ []]].
  rewrite M_bind_Done. exists m, h.
  replace (NAIVE =? NAIVE) with true by done. cbv iota.
  rewrite M_ret_Done, M_bind_Done.
  destruct (insertAllocStorageNode_holds ext graph (getTotalAllocationSize (naive m)))
    as (nd0 & device & Hh & Hkind & Htot & Hdev).
  destruct (insertAllocStorageNode ext graph (getTotalAllocationSize (naive m)))
    as [storage g1]. cbn [fst snd] in *.
  destruct (insertPreAllocTensorNodes_ok nd0 storage device g1 (naive m)
              (collectLiveRangesPerNode h) Hh Hdev) as (ins & g2 & Hrun & Hh2).
  rewrite Hrun, M_bind_Done, M_ret_Done.
  pose proof (insertCollect_holds nd0 storage g2 ins Hh2) as Hh3.
  eexists _, storage. split; [reflexivity|]. split; [reflexivity|].
  split; [by destruct Hh3 as (_ & _ & ?)|]. split.
  - unfold kind_of. destruct Hh3 as (-> & _). done.
  - by rewrite (Node_i_holds nd0 storage attr_total_size g1 _ Hh Hh3).
Qed.

Lemma planMemoryWithTracing_naive_succeeds_witness :
  ∃ managed header graph' storage,
    getManagedLiveRangesFromMemEvents example_trace example_graph
      = Done (managed, header) [] ∧
    planMemoryWithTracing example_ext example_graph NAIVE example_trace None
      = Done (graph', naive managed) [] ∧
    storage ∈ schedule graph' ∧
    kind_of graph' storage = prim_AllocateStorage ∧
    Node_i graph' storage attr_total_size = Done (getTotalAllocationSize (naive managed)) [].
Proof.
  apply planMemoryWithTracing_naive_succeeds; [discriminate|].
  apply (proj1 (trace_accepted_iff_returns example_trace example_graph)).
  eexists. vm_compute. reflexivity.
Defined.

(** * Live ranges per node *)

Lemma sort_insert_perm {A : Type} (lt : A → A → bool) (x : A) (l : list A) :
  sort_insert lt x l ≡ₚ x :: l.
Proof.
  induction l as [|y l IH]; simpl; [done|].
  destruct (lt y x); [|done]. rewrite IH. apply Permutation_swap.
Qed.

Lemma std_sort_perm {A : Type} (lt : A → A → bool) (l : list A) : std_sort lt l ≡ₚ l.
Proof.
  unfold std_sort. induction l as [|x l IH]; simpl; [done|].
  by rewrite sort_insert_perm, IH.
Qed.

Lemma elem_of_std_sort {A : Type} (lt : A → A → bool) (x : A) (l : list A) :
  x ∈ std_sort lt l ↔ x ∈ l.
Proof. by rewrite std_sort_perm. Qed.

Lemma sort_insert_sorted {A : Type} (lt : A → A → bool) (x : A) (l : list A) :
  (∀ a b, lt a b = true → lt b a = false) →
  (∀ a b c, lt b a = false → lt c b = false → lt c a = false) →
  StronglySorted (λ a b, lt b a = false) l →
  StronglySorted (λ a b, lt b a = false) (sort_insert lt x l).
Proof.
  intros Hasym Htrans. induction 1 as [|y l Hs IH Hall]; simpl.
  - repeat constructor.
  - destruct (lt y x) eqn:Hyx.
    + constructor; [done|]. apply Forall_forall. intros z Hz.
      rewrite sort_insert_perm in Hz. apply elem_of_cons in Hz as [->|Hz].
      * by apply Hasym.
      * rewrite Forall_forall in Hall. by apply Hall.
    + constructor; [by constructor|]. constructor; [done|].
      eapply Forall_impl; [exact Hall|]. intros z Hz. simpl in Hz. by eapply Htrans.
Qed.

Lemma std_sort_sorted {A : Type} (lt : A → A → bool) (l : list A) :
  (∀ a b, lt a b = true → lt b a = false) →
  (∀ a b c, lt b a = false → lt c b = false → lt c a = false) →
  StronglySorted (λ a b, lt b a = false) (std_sort lt l).
Proof.
  intros Hasym Htrans. unfold std_sort. induction l as [|x l IH]; simpl; [constructor|].
  by apply sort_insert_sorted.
Qed.

Lemma StronglySorted_weaken {A : Type} (R1 R2 : A → A → Prop) (l : list A) :
  (∀ a b, R1 a b → R2 a b) → StronglySorted R1 l → StronglySorted R2 l.
Proof.
  intros Himp. induction 1 as [|x l Hs IH Hall]; constructor; [done|].
  eapply Forall_impl; [exact Hall|]. intros y. apply Himp.
Qed.

Lemma FrameNodeId_eqb_refl (f : FrameNodeId) : FrameNodeId_eqb f f = true.
Proof. unfold FrameNodeId_eqb. by rewrite Z.eqb_refl, !String.eqb_refl. Qed.

Lemma node_live_ranges_add_perm (fid : FrameNodeId) (lvr : LiveRange)
    (m : list (FrameNodeId * list LiveRange)) :
  concat (node_live_ranges_add fid lvr m).*2 ≡ₚ lvr :: concat m.*2.
Proof.
  induction m as [|[k lvrs] m IH]; simpl; [done|].
  destruct (FrameNodeId_eqb k fid); simpl.
  - rewrite <- app_assoc. simpl. by rewrite <- Permutation_middle.
  - rewrite IH. by rewrite <- Permutation_middle.
Qed.

Lemma node_live_ranges_add_filed (fid : FrameNodeId) (lvr : LiveRange)
    (m : list (FrameNodeId * list LiveRange)) :
  (∃ k lvrs, (k, lvrs) ∈ node_live_ranges_add fid lvr m ∧
             FrameNodeId_eqb k fid = true ∧ lvr ∈ lvrs)
  ∧ (∀ k lvrs x, (k, lvrs) ∈ m → x ∈ lvrs →
       ∃ lvrs', (k, lvrs') ∈ node_live_ranges_add fid lvr m ∧ x ∈ lvrs').
Proof.
  induction m as [|[k0 l0] m [IH1 IH2]]; simpl.
  - split.
    + exists fid, [lvr]. rewrite list_elem_of_singleton, FrameNodeId_eqb_refl.
      split; [done|]. split; [done|]. by apply list_elem_of_singleton.
    + intros k lvrs x Hin. by apply elem_of_nil in Hin.
  - destruct (FrameNodeId_eqb k0 fid) eqn:Heq.
    + split.
      * exists k0, (l0 ++ [lvr]). split; [apply elem_of_cons; by left|]. split; [done|].
        apply elem_of_app. right. by apply list_elem_of_singleton.
      * intros k lvrs x [[= -> ->]|Hin]%elem_of_cons Hx.
        -- exists (l0 ++ [lvr]). split; [apply elem_of_cons; by left|].
           apply elem_of_app. by left.
        -- exists lvrs. split; [apply elem_of_cons; by right|done].
    + split.
      * destruct IH1 as (k & lvrs & Hin & Hk & Hl). exists k, lvrs.
        split; [apply elem_of_cons; by right|done].
      * intros k lvrs x [[= -> ->]|Hin]%elem_of_cons Hx.
        -- exists l0. split; [apply elem_of_cons; by left|done].
        -- destruct (IH2 k lvrs x Hin Hx) as (lvrs' & Hin' & Hx'). exists lvrs'.
           split; [apply elem_of_cons; by right|done].
Qed.

Lemma node_live_ranges_fold (items : list (LiveRange * FrameNodeId))
    (m : list (FrameNodeId * list LiveRange)) :
  let m' := fold_left (λ m (item : LiveRange * FrameNodeId),
                         node_live_ranges_add item.2 item.1 m) items m in
  concat m'.*2 ≡ₚ concat m.*2 ++ items.*1
  ∧ (∀ lvr fid, (lvr, fid) ∈ items →
       ∃ k lvrs, (k, lvrs) ∈ m' ∧ FrameNodeId_eqb k fid = true ∧ lvr ∈ lvrs)
  ∧ (∀ k lvrs x, (k, lvrs) ∈ m → x ∈ lvrs → ∃ lvrs', (k, lvrs') ∈ m' ∧ x ∈ lvrs').
Proof.
  revert m. induction items as [|[lvr fid] items IH]; intros m; simpl.
  - rewrite app_nil_r. split; [done|]. split.
    + intros lvr fid Hin. by apply elem_of_nil in Hin.
    + intros k lvrs x Hin Hx. by exists lvrs.
  - destruct (IH (node_live_ranges_add fid lvr m)) as (Hp & Hf & Hk).
    destruct (node_live_ranges_add_filed fid lvr m) as [Hnew Hold].
    split; [|split].
    + rewrite Hp, node_live_ranges_add_perm. by rewrite <- Permutation_middle.
    + intros lvr' fid' [[= -> ->]|Hin]%elem_of_cons; [|by apply Hf].
      destruct Hnew as (k & lvrs & Hin & Heq & Hl).
      destruct (Hk k lvrs lvr Hin Hl) as (lvrs' & Hin' & Hl'). by exists k, lvrs'.
    + intros k lvrs x Hin Hx. destruct (Hold k lvrs x Hin Hx) as (l1 & Hin1 & Hx1).
      by apply (Hk k l1 x).
Qed.

(** X21: [collectLiveRangesPerNode] keeps every live range of its input,
    as often as it occurs there, and files each under an id equal to the
    one it came with; the groups come out by ascending [pc], and the ranges
    of each group in the order of [live_range_start_cmp]. *)
Theorem collectLiveRangesPerNode_groups
    (live_range_node_header : list (LiveRange * FrameNodeId)) :
  let collected := collectLiveRangesPerNode live_range_node_header in
  concat collected.*2 ≡ₚ live_range_node_header.*1
  ∧ (∀ lvr fid, (lvr, fid) ∈ live_range_node_header →
       ∃ k lvrs, (k, lvrs) ∈ collected ∧ FrameNodeId_eqb k fid = true ∧ lvr ∈ lvrs)
  ∧ StronglySorted (λ f1 f2 : FrameNodeId * list LiveRange, pc f1.1 <= pc f2.1) collected
  ∧ Forall (λ item : FrameNodeId * list LiveRange,
              StronglySorted (λ r1 r2, live_range_start_cmp r2 r1 = false) item.2)
           collected.
Proof.
  unfold collectLiveRangesPerNode.
  destruct (node_live_ranges_fold live_range_node_header []) as (Hp & Hf & _).
  set (groups := fold_left _ live_range_node_header []) in *.
  set (sorted_groups := (λ item : FrameNodeId * list LiveRange,
                           (item.1, std_sort live_range_start_cmp item.2)) <$> groups).
  assert (Hcmp1 : ∀ a b, live_range_start_cmp a b = true → live_range_start_cmp b a = false).
  { intros a b Hab. apply key_lt_false. intros Hba.
    exact (key_lt_irrefl a (key_lt_trans _ _ _ Hab Hba)). }
  assert (Hcmp2 : ∀ a b c, live_range_start_cmp b a = false →
                           live_range_start_cmp c b = false → live_range_start_cmp c a = false).
  { intros a b c. rewrite !key_lt_false, !key_lt_spec. lia. }
  cbv zeta. split; [|split; [|split]].
  - rewrite std_sort_perm. rewrite <- Hp. simpl. unfold sorted_groups. clear.
    induction groups as [|[k l] groups IH]; simpl; [done|].
    by rewrite std_sort_perm, IH.
  - intros lvr fid Hin. destruct (Hf lvr fid Hin) as (k & lvrs & Hk & Heq & Hl).
    exists k, (std_sort live_range_start_cmp lvrs). split; [|split; [done|]].
    + apply elem_of_std_sort. apply list_elem_of_fmap. by exists (k, lvrs).
    + by apply elem_of_std_sort.
  - eapply (StronglySorted_weaken (λ a b, frame_node_id_cmp b a = false)).
    + intros a b. unfold frame_node_id_cmp. lia.
    + apply std_sort_sorted; unfold frame_node_id_cmp; intros; lia.
  - apply Forall_forall. intros item Hin. apply elem_of_std_sort in Hin.
    apply list_elem_of_fmap in Hin as ([k l] & -> & _). simpl.
    by apply std_sort_sorted.
Qed.

(** * The static path and the size of the arena *)

Lemma foldM_Fatal {A S : Type} (I : S → Prop) (body : S → A → M S) (l : list A) (s : S)
    (f : Failure) :
  I s →
  (∀ s0 x s1 lg, I s0 → body s0 x = Done s1 lg → I s1) →
  foldM body l s = Fatal f →
  ∃ s0 x, I s0 ∧ body s0 x = Fatal f.
Proof.
  intros Hs Hstep. revert s Hs. induction l as [|x l IH]; intros s Hs; cbn [foldM]; [done|].
  destruct (body s x) as [s1 lg|e] eqn:Hx.
  - unfold mbind, M_bind.
    destruct (foldM body l s1) as [s2 lg2|e] eqn:Hrest; [done|].
    intros [= ->]. apply (IH s1); [by eapply Hstep|done].
  - intros [= ->]. by exists s, x.
Qed.

Lemma allocations_map_of_regions (allocations : list MemAllocation) (k : LiveRange)
    (r : MemRegion) :
  allocations_map_of allocations !! k = Some r →
  ∃ a, a ∈ allocations ∧ lvr a = k ∧ reg a = r.
Proof.
  unfold allocations_map_of.
  assert (Hgen : ∀ l (m : gmap LiveRange MemRegion),
            fold_left (λ (m : gmap LiveRange MemRegion) (item : MemAllocation),
                         <[lvr item := reg item]> m) l m !! k = Some r →
            m !! k = Some r ∨ ∃ a, a ∈ l ∧ lvr a = k ∧ reg a = r).
  { induction l as [|a l IH]; intros m; simpl; [by left|].
    intros [[[<- <-]|[_ H]]%lookup_insert_Some|(a' & Hin & H)]%IH.
    - right. exists a. split; [apply elem_of_cons; by left|done].
    - by left.
    - right. exists a'. split; [apply elem_of_cons; by right|done]. }
  intros [H|H]%Hgen; [by rewrite lookup_empty in H|done].
Qed.

Lemma Node_i_no_check (graph : Graph) (n : NodeRef) (name : Attr) (site : string) :
  Node_i graph n name ≠ Fatal (CheckFailed site).
Proof.
  unfold Node_i. destruct (store graph !! n) as [nd|]; [|done].
  destruct (list_find _ _) as [[i [a [z|zs]]]|]; done.
Qed.

Lemma insertAllocTensorNode_check (ext : Collaborators) (storage : NodeRef) (total_size : Z)
    (st : Graph * gmap LiveRange MemRegion) (item : LiveRange * Value) :
  0 <= total_size →
  (∀ k r, st.2 !! k = Some r → Int64.add (reg_offset r) (reg_size r) <= total_size) →
  match insertAllocTensorNode ext storage total_size st item with
  | Done st' _ =>
      ∀ k r, st'.2 !! k = Some r → Int64.add (reg_offset r) (reg_size r) <= total_size
  | Fatal f => ∀ site, f ≠ CheckFailed site
  end.
Proof.
  destruct st as [g am]. cbn [fst snd]. intros Hpos Ham. unfold insertAllocTensorNode.
  assert (Hidx : let p := um_index item.1 (mkMemRegion 0 0) am in
                 Int64.add (reg_offset p.1) (reg_size p.1) <= total_size ∧
                 ∀ k r, p.2 !! k = Some r →
                        Int64.add (reg_offset r) (reg_size r) <= total_size).
  { unfold um_index. destruct (am !! item.1) as [r0|] eqn:Hr0; cbn [fst snd].
    - split; [by apply (Ham item.1)|done].
    - split; [done|]. intros k r [[_ <-]|[_ H]]%lookup_insert_Some; [done|by apply (Ham k)]. }
  destruct (um_index item.1 (mkMemRegion 0 0) am) as [region am']. cbn [fst snd] in Hidx.
  destruct Hidx as [Hreg Ham'].
  destruct (Graph_create prim_AllocateTensor g) as [alloc g1].
  match goal with |- context [type_of ?gx item.2] => destruct (type_of gx item.2) as [ttp|] end;
    [|done].
  destruct (getSizesStrides ext ttp) as [sizes strides].
  replace (Int64.add (reg_offset region) (reg_size region) <=? total_size) with true by lia.
  unfold TORCH_CHECK. rewrite M_ret_Done, M_bind_Done.
  match goal with |- context [Node_i ?gx storage attr_device] =>
    pose proof (Node_i_no_check gx storage attr_device) as Hni;
    destruct (Node_i gx storage attr_device) as [device lg|e] end.
  - unfold mbind, M_bind. destruct (scalarType ttp); [done|]. intros site. done.
  - intros site ->. by apply (Hni site).
Qed.

(** X22: the bound check of [insertAllocTensorNodes] cannot fail on a plan
    whose total allocation size is the [total_size] of the storage node, as
    [planMemory] sets it: every region the loop looks up is a region of the
    plan, or the empty region [{0, 0}] for a range the plan does not have,
    and both end within the total. *)
Theorem insertAllocTensorNodes_check_holds (ext : Collaborators) (graph : Graph)
    (storage : NodeRef) (allocations : list MemAllocation)
    (managed_range_values : LiveRangeMap.t Value) (log : list Diag) (site : string) :
  Node_i graph storage attr_total_size = Done (getTotalAllocationSize allocations) log →
  insertAllocTensorNodes ext graph storage allocations managed_range_values
  ≠ Fatal (CheckFailed site).
Proof.
  intros Htot. unfold insertAllocTensorNodes. rewrite Htot.
  destruct (fold_max_ge (λ a, Int64.add (reg_offset (reg a)) (reg_size (reg a)))
              allocations 0) as [Hpos Hall].
  fold (getTotalAllocationSize allocations) in Hpos, Hall.
  set (T := getTotalAllocationSize allocations) in *.
  set (I := λ st : Graph * gmap LiveRange MemRegion,
              ∀ k r, st.2 !! k = Some r → Int64.add (reg_offset r) (reg_size r) <= T).
  assert (Hinit : I (graph, allocations_map_of allocations)).
  { intros k r (a & Ha & _ & <-)%allocations_map_of_regions.
    rewrite Forall_forall in Hall. by apply Hall. }
  unfold mbind, M_bind.
  destruct (foldM (insertAllocTensorNode ext storage T) managed_range_values
              (graph, allocations_map_of allocations)) as [st lg|f] eqn:Hrun; [done|].
  apply (foldM_Fatal I) in Hrun as (s0 & x & Hs0 & Hx); [| done |].
  - pose proof (insertAllocTensorNode_check ext storage T s0 x Hpos Hs0) as Hc.
    rewrite Hx in Hc. intros [= ->]. by apply (Hc site).
  - intros s0 x s1 lg Hs0 Hx.
    pose proof (insertAllocTensorNode_check ext storage T s0 x Hpos Hs0) as Hc.
    by rewrite Hx in Hc.
Qed.

Lemma insertAllocTensorNodes_check_holds_witness :
  let allocations := [mkMemAllocation (mkLiveRange 0 5) (mkMemRegion 0 64)] in
  let planned := insertAllocStorageNode shared_range_ext shared_range_graph
                   (getTotalAllocationSize allocations) in
  insertAllocTensorNodes shared_range_ext planned.2 planned.1 allocations
    [(mkLiveRange 0 5, 5%positive); (mkLiveRange 7 9, 3%positive)]
  ≠ Fatal (CheckFailed "trying to create an allocation that exceeds previously planned memory").
Proof.
  intros allocations planned.
  apply (insertAllocTensorNodes_check_holds _ _ _ _ _ []).
  vm_compute. reflexivity.
Defined.
